(** * The parallax controller of the Wright framework

    A shallow embedding of [Parallax] (the scroll-driven parallax controller
    for index pages and page banners) together with the part of the browser it
    talks to: the DOM tree, the window's listeners, timers and animation
    frames, and the three collaborators [Tweak], [ImageLoader] and [Darwin].
    The scroll indicator of the same framework has a module of its own,
    [ScrollIndicator].

    JavaScript numbers are IEEE 754 binary64 values, so they are modelled by
    Rocq's primitive floats; [undefined] numeric fields are [None] and are
    converted to [nan] where the source does arithmetic on them. *)

From Stdlib Require Import ZArith List String Ascii Floats Bool Lia.
From stdpp Require Import base option list gmap strings.

Local Open Scope string_scope.
Local Open Scope list_scope.

(** ** JavaScript values *)

Inductive exn :=
| TypeError              (* property access on [null] or [undefined] *)
| HierarchyRequestError  (* [appendChild] that would create a cycle *)
| SyntaxError.           (* [querySelector] on a text that is no selector *)

(** What a callback may receive as its first argument. *)
Inductive jsval :=
| JUndefined
| JBool (b : bool)
| JNum (x : float)
| JObj.

(** [force === false] *)
Definition strict_eq_false (v : jsval) : bool :=
  match v with JBool false => true | _ => false end.

(** [ToNumber] on a numeric field that may still be [undefined]. *)
Definition ToNumber (v : option float) : float := default nan v.

(** Truthiness of a number: [0], [-0] and [NaN] are falsy. *)
Definition truthy (x : float) : bool :=
  negb (PrimFloat.eqb x 0 || PrimFloat.is_nan x).

(** [a || b] on numbers. *)
Definition or_num (a b : float) : float := if truthy a then a else b.

(** [cached !== current], where the cached side may be [undefined]. *)
Definition strict_neq (cached : option float) (current : float) : bool :=
  match cached with
  | None => true
  | Some c => negb (PrimFloat.eqb c current)
  end.

(** A string built by concatenation.  Number-to-string conversion is kept
    symbolic: [Num x] stands for the decimal rendering of [x]. *)
Inductive frag :=
| Str (s : string)
| Num (x : float).

Definition css := list frag.

(** [v + 'px'] for a field that may be [undefined]. *)
Definition show (v : option float) : frag :=
  match v with
  | Some x => Num x
  | None => Str "undefined"
  end.

(** ** The DOM *)

Definition node := positive.

(** Layout of an element as the browser reports it:
    [getBoundingClientRect()], [offsetWidth] and [offsetHeight]. *)
Record Box := {
  rect_top : float;
  rect_right : float;
  rect_bottom : float;
  rect_left : float;
  offsetWidth : float;
  offsetHeight : float
}.

Definition zero_box : Box :=
  {| rect_top := 0; rect_right := 0; rect_bottom := 0; rect_left := 0;
     offsetWidth := 0; offsetHeight := 0 |}.

(** The tree is a parent map; [order] lists the nodes so that siblings appear
    in document order ([appendChild] moves the child to the end). *)
Record Dom := {
  order : list node;
  parentNode : gmap node node;
  tagName : gmap node string;
  attribute : gmap (node * string) string;
  classList : gmap node (list string)
}.

Definition children (d : Dom) (p : node) : list node :=
  filter (fun c => parentNode d !! c = Some p) (order d).

(** Descendants of [n] in document order, [n] excluded. *)
Fixpoint descendants (fuel : nat) (d : Dom) (n : node) : list node :=
  match fuel with
  | O => []
  | S f => flat_map (fun c => c :: descendants f d c) (children d n)
  end.

Definition subtree (d : Dom) (n : node) : list node :=
  descendants (length (order d)) d n.

(** [a.contains(b)]: [b] is [a] or a descendant of [a]. *)
Fixpoint ancestor_or_self (fuel : nat) (d : Dom) (a b : node) : bool :=
  if decide (a = b) then true
  else match fuel with
       | O => false
       | S f =>
           match parentNode d !! b with
           | Some p => ancestor_or_self f d a p
           | None => false
           end
       end.

Definition contains (d : Dom) (a b : node) : bool :=
  ancestor_or_self (size (parentNode d)) d a b.

Definition getAttribute (d : Dom) (n : node) (a : string) : option string :=
  attribute d !! (n, a).

Definition hasAttribute (d : Dom) (n : node) (a : string) : bool :=
  bool_decide (is_Some (getAttribute d n a)).

Definition classes (d : Dom) (n : node) : list string :=
  default [] (classList d !! n).

Definition classList_contains (d : Dom) (n : node) (c : string) : bool :=
  bool_decide (c ∈ classes d n).

(** The compound selectors the controller uses. *)
Inductive simple_selector :=
| SelTag (t : string)            (* [img] *)
| SelClass (c : string)          (* [.c] *)
| SelNotClass (c : string)       (* [:not(.c)] *)
| SelAttr (a : string)           (* [[a]] *)
| SelAttrEq (a v : string).      (* [[a="v"]] *)

Definition selector := list simple_selector.

Definition matches1 (d : Dom) (n : node) (s : simple_selector) : bool :=
  match s with
  | SelTag t => bool_decide (tagName d !! n = Some t)
  | SelClass c => classList_contains d n c
  | SelNotClass c => negb (classList_contains d n c)
  | SelAttr a => hasAttribute d n a
  | SelAttrEq a v => bool_decide (getAttribute d n a = Some v)
  end.

Definition matches (d : Dom) (sel : selector) (n : node) : bool :=
  forallb (matches1 d n) sel.

Definition querySelectorAll (d : Dom) (root : node) (sel : selector) : list node :=
  List.filter (matches d sel) (subtree d root).

Definition querySelector (d : Dom) (root : node) (sel : selector) : option node :=
  head (querySelectorAll d root sel).

(** ** The window, the collaborators and the controller's own variables *)

(** The four index-editing event names of [indexEditEvents]; the constants
    module is not part of the sources, so the names stay symbolic. *)
Inductive indexEditEvent :=
| EditEnabled
| EditDisabled
| EditDeleted
| EditReorder.

Inductive eventType :=
| EvScroll
| EvIndexEdit (e : indexEditEvent).

(** The function objects the controller hands to the browser. *)
Inductive fn :=
| FnSyncParallax
| FnScrollCallback
| FnHandleScroll
| FnHandleIndexEditEnabled
| FnHandleIndexEditDisabled
| FnHandleIndexEditDeleted
| FnHandleIndexEditReorder
| FnTweakWatcher     (* the arrow passed to [Tweak.watch] *)
| FnScrollEnd.       (* the arrow passed to [setTimeout] in [handleScroll] *)

Global Instance indexEditEvent_eq_dec : EqDecision indexEditEvent.
Proof. solve_decision. Defined.
Global Instance eventType_eq_dec : EqDecision eventType.
Proof. solve_decision. Defined.
Global Instance fn_eq_dec : EqDecision fn.
Proof. solve_decision. Defined.

Record Window := {
  layout : gmap node Box;
  documentElement : node;
  body : node;
  documentElement_scrollTop : float;
  body_scrollTop : float;
  innerHeight : float;
  pageYOffset : float;
  listeners : list (eventType * fn);
  timers : list (nat * fn);          (* pending timeouts: id and callback *)
  nextTimer : nat;
  frameRequests : list fn;           (* pending animation-frame callbacks *)
  parseSelector : string -> option (Dom -> node -> bool)
    (* the browser's reading of a selector text: the elements it matches,
       or nothing when the text is no selector *)
}.

(** A [Darwin] mutation watcher, an object of the mutation-observation
    service: what it was constructed with and the calls made on it since. *)
Record Darwin := {
  targets : list string;
  callback : fn;
  observing : bool;     (* [init()] has been called *)
  destroyed : bool      (* [destroy()] has been called *)
}.

Record Collaborators := {
  tweakValues : gmap string string;          (* [Tweak.getValue] *)
  tweakWatchers : list (list string * fn);   (* [Tweak.watch] *)
  resizeEndCallbacks : list fn;              (* [resizeEnd] *)
  darwins : list Darwin                      (* the watchers constructed so far *)
}.

(** One entry of the matrix. *)
Record MatrixItem := {
  originalNode : node;
  mediaWrapper : node;
  mediaElement : node;
  focalPoint : float;
  parallaxItem : option node;
  top : option float;
  right : option float;
  bottom : option float;
  left : option float;
  width : option float;
  height : option float
}.

(** The variables closed over by the functions of [Parallax(element)]. *)
Record Closure := {
  element : node;
  darwin : option nat;       (* a reference to a watcher, or [null] *)
  scrolling : bool;
  scrollTimeout : option nat;
  windowHeight : option float;
  matrix : list MatrixItem;
  isEditingIndex : bool
}.

(** What the controller does to the page, in the order it does it. *)
Inductive Effect :=
| SetStyle (n : node) (prop : string) (v : css)
| ClassAdd (n : node) (c : string)
| AppendChild (parent child : node)
| RemoveChild (parent child : node)
| ImageLoad (image : node)
| Uncaught (e : exn).

Record State := {
  dom : Dom;
  window : Window;
  collab : Collaborators;
  vars : Closure;
  trace : list Effect
}.

Definition set_dom (f : Dom -> Dom) (s : State) : State :=
  {| dom := f (dom s); window := window s; collab := collab s;
     vars := vars s; trace := trace s |}.
Definition set_window (f : Window -> Window) (s : State) : State :=
  {| dom := dom s; window := f (window s); collab := collab s;
     vars := vars s; trace := trace s |}.
Definition set_collab (f : Collaborators -> Collaborators) (s : State) : State :=
  {| dom := dom s; window := window s; collab := f (collab s);
     vars := vars s; trace := trace s |}.
Definition set_vars (f : Closure -> Closure) (s : State) : State :=
  {| dom := dom s; window := window s; collab := collab s;
     vars := f (vars s); trace := trace s |}.
Definition set_trace (f : list Effect -> list Effect) (s : State) : State :=
  {| dom := dom s; window := window s; collab := collab s;
     vars := vars s; trace := f (trace s) |}.

Definition with_parentNode (m : gmap node node) (d : Dom) : Dom :=
  {| order := order d; parentNode := m; tagName := tagName d;
     attribute := attribute d; classList := classList d |}.
Definition with_order (l : list node) (d : Dom) : Dom :=
  {| order := l; parentNode := parentNode d; tagName := tagName d;
     attribute := attribute d; classList := classList d |}.
Definition with_classList (m : gmap node (list string)) (d : Dom) : Dom :=
  {| order := order d; parentNode := parentNode d; tagName := tagName d;
     attribute := attribute d; classList := m |}.

Definition with_listeners (l : list (eventType * fn)) (w : Window) : Window :=
  {| layout := layout w; documentElement := documentElement w; body := body w;
     documentElement_scrollTop := documentElement_scrollTop w;
     body_scrollTop := body_scrollTop w; innerHeight := innerHeight w;
     pageYOffset := pageYOffset w; listeners := l; timers := timers w;
     nextTimer := nextTimer w; frameRequests := frameRequests w;
     parseSelector := parseSelector w |}.
Definition with_timers (l : list (nat * fn)) (next : nat) (w : Window) : Window :=
  {| layout := layout w; documentElement := documentElement w; body := body w;
     documentElement_scrollTop := documentElement_scrollTop w;
     body_scrollTop := body_scrollTop w; innerHeight := innerHeight w;
     pageYOffset := pageYOffset w; listeners := listeners w; timers := l;
     nextTimer := next; frameRequests := frameRequests w;
     parseSelector := parseSelector w |}.
Definition with_frameRequests (l : list fn) (w : Window) : Window :=
  {| layout := layout w; documentElement := documentElement w; body := body w;
     documentElement_scrollTop := documentElement_scrollTop w;
     body_scrollTop := body_scrollTop w; innerHeight := innerHeight w;
     pageYOffset := pageYOffset w; listeners := listeners w; timers := timers w;
     nextTimer := nextTimer w; frameRequests := l;
     parseSelector := parseSelector w |}.

Definition with_layout (m : gmap node Box) (w : Window) : Window :=
  {| layout := m; documentElement := documentElement w; body := body w;
     documentElement_scrollTop := documentElement_scrollTop w;
     body_scrollTop := body_scrollTop w; innerHeight := innerHeight w;
     pageYOffset := pageYOffset w; listeners := listeners w; timers := timers w;
     nextTimer := nextTimer w; frameRequests := frameRequests w;
     parseSelector := parseSelector w |}.

Definition with_tweakWatchers (l : list (list string * fn)) (c : Collaborators) :=
  {| tweakValues := tweakValues c; tweakWatchers := l;
     resizeEndCallbacks := resizeEndCallbacks c; darwins := darwins c |}.
Definition with_resizeEndCallbacks (l : list fn) (c : Collaborators) :=
  {| tweakValues := tweakValues c; tweakWatchers := tweakWatchers c;
     resizeEndCallbacks := l; darwins := darwins c |}.
Definition with_darwins (l : list Darwin) (c : Collaborators) :=
  {| tweakValues := tweakValues c; tweakWatchers := tweakWatchers c;
     resizeEndCallbacks := resizeEndCallbacks c; darwins := l |}.

Definition with_observing (b : bool) (d : Darwin) : Darwin :=
  {| targets := targets d; callback := callback d;
     observing := b; destroyed := destroyed d |}.
Definition with_destroyed (b : bool) (d : Darwin) : Darwin :=
  {| targets := targets d; callback := callback d;
     observing := observing d; destroyed := b |}.

Definition with_darwin (d : option nat) (v : Closure) : Closure :=
  {| element := element v; darwin := d; scrolling := scrolling v;
     scrollTimeout := scrollTimeout v; windowHeight := windowHeight v;
     matrix := matrix v; isEditingIndex := isEditingIndex v |}.
Definition with_scrolling (b : bool) (v : Closure) : Closure :=
  {| element := element v; darwin := darwin v; scrolling := b;
     scrollTimeout := scrollTimeout v; windowHeight := windowHeight v;
     matrix := matrix v; isEditingIndex := isEditingIndex v |}.
Definition with_scrollTimeout (t : option nat) (v : Closure) : Closure :=
  {| element := element v; darwin := darwin v; scrolling := scrolling v;
     scrollTimeout := t; windowHeight := windowHeight v;
     matrix := matrix v; isEditingIndex := isEditingIndex v |}.
Definition with_windowHeight (h : option float) (v : Closure) : Closure :=
  {| element := element v; darwin := darwin v; scrolling := scrolling v;
     scrollTimeout := scrollTimeout v; windowHeight := h;
     matrix := matrix v; isEditingIndex := isEditingIndex v |}.
Definition with_matrix (m : list MatrixItem) (v : Closure) : Closure :=
  {| element := element v; darwin := darwin v; scrolling := scrolling v;
     scrollTimeout := scrollTimeout v; windowHeight := windowHeight v;
     matrix := m; isEditingIndex := isEditingIndex v |}.
Definition with_isEditingIndex (b : bool) (v : Closure) : Closure :=
  {| element := element v; darwin := darwin v; scrolling := scrolling v;
     scrollTimeout := scrollTimeout v; windowHeight := windowHeight v;
     matrix := matrix v; isEditingIndex := b |}.

Definition with_parallaxItem (p : option node) (it : MatrixItem) : MatrixItem :=
  {| originalNode := originalNode it; mediaWrapper := mediaWrapper it;
     mediaElement := mediaElement it; focalPoint := focalPoint it;
     parallaxItem := p; top := top it; right := right it; bottom := bottom it;
     left := left it; width := width it; height := height it |}.

(** ** Computations that may throw *)

Inductive Res (A : Type) :=
| Ok (a : A) (s : State)
| Throw (e : exn) (s : State).
Arguments Ok {A} a s.
Arguments Throw {A} e s.

Definition M (A : Type) : Type := State -> Res A.

Definition ret {A} (a : A) : M A := fun s => Ok a s.
Definition bind {A B} (m : M A) (k : A -> M B) : M B :=
  fun s => match m s with
           | Ok a s' => k a s'
           | Throw e s' => Throw e s'
           end.
Definition throw {A} (e : exn) : M A := fun s => Throw e s.
Definition get : M State := fun s => Ok s s.
Definition modify (f : State -> State) : M unit := fun s => Ok tt (f s).

Declare Scope M_scope.
Delimit Scope M_scope with M.
Bind Scope M_scope with M.
Notation "x ← y ; z" := (bind y (fun x => z))
  (at level 20, y at level 100, z at level 200, only parsing) : M_scope.
Notation "y ;; z" := (bind y (fun _ => z))
  (at level 100, z at level 200, only parsing, right associativity) : M_scope.
Local Open Scope M_scope.

(** Property access on a value that may be [null] or [undefined]. *)
Definition deref {A} (o : option A) : M A :=
  match o with
  | Some a => ret a
  | None => throw TypeError
  end.

Fixpoint forEach {A} (f : A -> M unit) (l : list A) : M unit :=
  match l with
  | [] => ret tt
  | x :: l' => f x ;; forEach f l'
  end.

(** [Array.prototype.map] with a callback that may throw. *)
Fixpoint mapM {A B} (f : A -> M B) (l : list A) : M (list B) :=
  match l with
  | [] => ret []
  | x :: l' => y ← f x; ys ← mapM f l'; ret (y :: ys)
  end.

(** [Array.prototype.filter] over the indices of the matrix: the callback
    sees the item stored at the index and the result is a new array. *)
Fixpoint filterM (f : nat -> M bool) (l : list nat) : M (list nat) :=
  match l with
  | [] => ret []
  | i :: l' => keep ← f i; rest ← filterM f l';
               ret (if keep then i :: rest else rest)
  end.

(** ** DOM operations with effects *)

Definition emit (e : Effect) : M unit :=
  modify (set_trace (fun t => t ++ [e])).

(** [n.style.prop = v] *)
Definition setStyle (n : node) (prop : string) (v : css) : M unit :=
  emit (SetStyle n prop v).

(** [n.classList.add(c)] *)
Definition classList_add (n : node) (c : string) : M unit :=
  modify (set_dom (fun d =>
    if classList_contains d n c then d
    else with_classList (<[n := classes d n ++ [c]]> (classList d)) d)) ;;
  emit (ClassAdd n c).

(** [parent.appendChild(child)] *)
Definition appendChild (parent child : node) : M unit :=
  s ← get;
  if contains (dom s) child parent then throw HierarchyRequestError
  else
    modify (set_dom (fun d =>
      with_order (filter (fun x => x ≠ child) (order d) ++ [child])
        (with_parentNode (<[child := parent]> (parentNode d)) d))) ;;
    emit (AppendChild parent child).

(** [parent.removeChild(child)], called only on a child of [parent]. *)
Definition removeChild (parent child : node) : M unit :=
  modify (set_dom (fun d => with_parentNode (delete child (parentNode d)) d)) ;;
  emit (RemoveChild parent child).

(** [window.addEventListener(type, listener)]: registering the same pair
    twice has no effect. *)
Definition addEventListener (ev : eventType) (f : fn) : M unit :=
  modify (set_window (fun w =>
    if bool_decide ((ev, f) ∈ listeners w) then w
    else with_listeners (listeners w ++ [(ev, f)]) w)).

(** [window.removeEventListener(type, listener)]: silent when the pair is
    not registered. *)
Definition removeEventListener (ev : eventType) (f : fn) : M unit :=
  modify (set_window (fun w =>
    with_listeners (filter (fun l => l ≠ (ev, f)) (listeners w)) w)).

Definition requestAnimationFrame (f : fn) : M unit :=
  modify (set_window (fun w => with_frameRequests (frameRequests w ++ [f]) w)).

(** [setTimeout(f, delay)] returns a fresh id; ids are positive in a
    browser, hence truthy.  Time is not modelled, so the delay is dropped:
    a timeout expires when the browser says so ([timeoutExpires]). *)
Definition setTimeout (f : fn) : M nat :=
  s ← get;
  let id := nextTimer (window s) in
  modify (set_window (fun w => with_timers (timers w ++ [(id, f)]) (S id) w)) ;;
  ret id.

Definition clearTimeout (id : nat) : M unit :=
  modify (set_window (fun w =>
    with_timers (filter (fun t => t.1 ≠ id) (timers w)) (nextTimer w) w)).

(** Modelled from the spec: [resizeEnd] of [../util] is not part of the
    sources; it is "a resize-debounce utility that invokes a callback after
    resize activity settles", so it records the callback. *)
Definition resizeEnd (f : fn) : M unit :=
  modify (set_collab (fun c =>
    with_resizeEndCallbacks (resizeEndCallbacks c ++ [f]) c)).

(** [Tweak.watch(names, callback)] *)
Definition Tweak_watch (names : list string) (f : fn) : M unit :=
  modify (set_collab (fun c =>
    with_tweakWatchers (tweakWatchers c ++ [(names, f)]) c)).

(** Modelled from the spec: [Darwin] is not part of the sources; it is the
    "mutation-observation service: construct with [{targets, callback}],
    [.init()], [.destroy()]".  A watcher is an object of the service, which
    the controller holds by reference; the three operations record what was
    asked of it.  What the service does inside is not modelled: in
    particular nothing here says that a watcher stops reporting once
    [destroy()] has been called on it. *)
Definition Darwin_new (targets : list string) (callback : fn) : M nat :=
  s ← get;
  modify (set_collab (fun c =>
    with_darwins
      (darwins c ++ [{| targets := targets; callback := callback;
                        observing := false; destroyed := false |}]) c)) ;;
  ret (length (darwins (collab s))).

Definition Darwin_init (r : nat) : M unit :=
  modify (set_collab (fun c =>
    with_darwins (alter (with_observing true) r (darwins c)) c)).

Definition Darwin_destroy (r : nat) : M unit :=
  modify (set_collab (fun c =>
    with_darwins (alter (with_destroyed true) r (darwins c)) c)).

(** ** The controller *)

Local Open Scope float_scope.

Definition parallaxOffset : float := 500.

(** [isEditingIndex ? false :
     Tweak.getValue('tweak-overlay-parallax-enabled') === 'true'] *)
Definition isParallaxEnabled (s : State) : bool :=
  if isEditingIndex (vars s) then false
  else bool_decide
         (tweakValues (collab s) !! "tweak-overlay-parallax-enabled"%string
          = Some "true"%string).

(** [document.documentElement.scrollTop || document.body.scrollTop] *)
Definition page_scrollTop (s : State) : float :=
  or_num (documentElement_scrollTop (window s)) (body_scrollTop (window s)).

Definition box_of (s : State) (n : node) : Box :=
  default zero_box (layout (window s) !! n).

Definition setItem (i : nat) (it : MatrixItem) : M unit :=
  modify (set_vars (fun v => with_matrix (<[i := it]> (matrix v)) v)).

(** [updateMatrixItem(matrixItem)], the item being the one stored at index
    [i] of the matrix. *)
Definition updateMatrixItem (i : nat) : M bool :=
  s ← get;
  matrixItem ← deref (matrix (vars s) !! i);
  let scrollTop := page_scrollTop s in
  let rect := box_of s (originalNode matrixItem) in
  let currentDims_top := rect_top rect + scrollTop in
  let currentDims_left := rect_left rect in
  let currentDims_width := offsetWidth rect in
  let currentDims_height := offsetHeight rect in
  if strict_neq (top matrixItem) currentDims_top
     || strict_neq (left matrixItem) currentDims_left
     || strict_neq (width matrixItem) currentDims_width
     || strict_neq (height matrixItem) currentDims_height
  then
    setItem i
      {| originalNode := originalNode matrixItem;
         mediaWrapper := mediaWrapper matrixItem;
         mediaElement := mediaElement matrixItem;
         focalPoint := focalPoint matrixItem;
         parallaxItem := parallaxItem matrixItem;
         top := Some currentDims_top;
         right := Some (rect_right rect);
         bottom := Some (rect_bottom rect + scrollTop);
         left := Some currentDims_left;
         width := Some currentDims_width;
         height := Some currentDims_height |} ;;
    ret true
  else ret false.

(** The [forEach] of [updateAllMatrixItems], [didUpdate] being its flag. *)
Fixpoint updateEach (l : list nat) (didUpdate : bool) : M bool :=
  match l with
  | [] => ret didUpdate
  | i :: l' =>
      updated ← updateMatrixItem i;
      updateEach l' (if updated then true else didUpdate)
  end.

(** [updateAllMatrixItems()] *)
Definition updateAllMatrixItems : M bool :=
  s ← get;
  updateEach (seq 0 (length (matrix (vars s)))) false.

(** The three assignments of a transform string: prefixed and unprefixed. *)
Definition setTransform (n : node) (v : css) : M unit :=
  setStyle n "webkitTransform" v ;;
  setStyle n "msTransform" v ;;
  setStyle n "transform" v.

(** The body of the [forEach] callback of [scroll]. *)
Definition scrollItem (scrollTop : float) (matrixItem : MatrixItem) : M unit :=
  s ← get;
  let windowHeight := ToNumber (windowHeight (vars s)) in
  let top := ToNumber (top matrixItem) in
  let bottom := ToNumber (bottom matrixItem) in
  let left := ToNumber (left matrixItem) in
  let width := ToNumber (width matrixItem) in
  let height := ToNumber (height matrixItem) in
  if (top <? scrollTop + windowHeight) && (scrollTop <? bottom) then
    let focalPointVertical := height * focalPoint matrixItem in
    let parallaxProportion :=
      1 - ((top + focalPointVertical - scrollTop) / windowHeight) in
    let elementTransformString :=
      [Str "translatey("; Num (parallaxProportion * parallaxOffset); Str "px)"] in
    setTransform (mediaElement matrixItem) elementTransformString ;;
    let parallaxItemTransformString :=
      [Str "translatey("; Num (-1 * scrollTop); Str "px)"] in
    p ← deref (parallaxItem matrixItem);
    setTransform p parallaxItemTransformString
  else
    let parallaxItemTransformString :=
      [Str "translate3d("; Num (-1 * width - left); Str "px, 0, 0)"] in
    p ← deref (parallaxItem matrixItem);
    setTransform p parallaxItemTransformString.

(** [scroll(scrollTop)]: a falsy argument is replaced by the page's scroll
    offset. *)
Definition scroll (scrollTop : float) : M unit :=
  s ← get;
  let scrollTop := or_num scrollTop (page_scrollTop s) in
  if negb (isParallaxEnabled s) then ret tt
  else forEach (scrollItem scrollTop) (matrix (vars s)).

(** The frame callback: [scroll], then one more frame while scrolling. *)
Definition scrollCallback : M unit :=
  s ← get;
  scroll (pageYOffset (window s)) ;;
  s ← get;
  if scrolling (vars s) then requestAnimationFrame FnScrollCallback
  else ret tt.

(** Truthiness of a timeout id held in a variable: [undefined] and [0] are
    falsy. *)
Definition truthy_id (t : option nat) : bool :=
  match t with
  | Some id => negb (Nat.eqb id 0)
  | None => false
  end.

(** The scroll listener: starts the frame loop and re-arms the timeout that
    ends it. *)
Definition handleScroll : M unit :=
  s ← get;
  (if negb (scrolling (vars s)) then
     modify (set_vars (with_scrolling true)) ;;
     setStyle (documentElement (window s)) "pointerEvents" [Str "none"] ;;
     scrollCallback
   else ret tt) ;;
  s ← get;
  (if truthy_id (scrollTimeout (vars s)) then
     match scrollTimeout (vars s) with
     | Some id => clearTimeout id
     | None => ret tt
     end
   else ret tt) ;;
  id ← setTimeout FnScrollEnd;
  modify (set_vars (with_scrollTimeout (Some id))).

(** The timeout callback of [handleScroll]. *)
Definition scrollEnd : M unit :=
  s ← get;
  modify (set_vars (with_scrolling false)) ;;
  setStyle (documentElement (window s)) "pointerEvents" [Str "auto"].

(** [loadImage(mediaElement)]; [ImageLoader.load] is recorded in the trace. *)
Definition loadImage (mediaElement : node) : M unit :=
  s ← get;
  let isVideoBackground :=
    classList_contains (dom s) mediaElement "sqs-video-background" in
  let videoBackgroundFallbackImage :=
    querySelector (dom s) mediaElement
      [SelTag "img"; SelClass "custom-fallback-image"] in
  let isMediaElementImage := hasAttribute (dom s) mediaElement "data-src" in
  let image :=
    match (if isVideoBackground then videoBackgroundFallbackImage else None) with
    | Some img => Some img
    | None => if isMediaElementImage then Some mediaElement else None
    end in
  match image with
  | None => ret tt
  | Some img => emit (ImageLoad img)
  end.

(** The characters that do not stand for themselves inside a double-quoted
    string of a selector: the double quote, the backslash, the line breaks
    (line feed, form feed, carriage return) and the null character. *)
Definition plain_char (c : ascii) : bool :=
  negb (Ascii.eqb c "034" || Ascii.eqb c "092" || Ascii.eqb c "010"
        || Ascii.eqb c "012" || Ascii.eqb c "013" || Ascii.eqb c "000")%char.

Fixpoint plain (s : string) : bool :=
  match s with
  | EmptyString => true
  | String c r => plain_char c && plain r
  end.

(** ['[data-parallax-item][data-parallax-id="' + id + '"]']: the id is
    spliced into the text as it is; a missing attribute is concatenated as
    ["null"]. *)
Definition slot_text (id : option string) : string :=
  "[data-parallax-item][data-parallax-id="
  +:+ String "034" (default "null" id +:+ String "034" "]").

(** The selector that text is when the id is [plain]. *)
Definition slot_selector (id : option string) : selector :=
  [SelAttr "data-parallax-item";
   SelAttrEq "data-parallax-id" (default "null"%string id)].

(** [host.querySelector(slot_text id)]: the first element below [host] the
    text matches; no result at all when the text is no selector.  A plain id
    gives the selector [slot_selector id].  Any other id changes how the
    text reads (it may end the string early, or leave the text unreadable):
    what the text then matches is the browser's reading of it. *)
Definition findSlot (w : Window) (d : Dom) (host : node) (id : option string) :
    option (option node) :=
  if plain (default "null" id) then Some (querySelector d host (slot_selector id))
  else match parseSelector w (slot_text id) with
       | Some matching => Some (head (List.filter (matching d) (subtree d host)))
       | None => None
       end.

Definition querySlot (host : node) (id : option string) : M (option node) :=
  s ← get;
  match findSlot (window s) (dom s) host id with
  | Some found => ret found
  | None => throw SyntaxError
  end.

(** The body of the [filter] callback of [syncParallax], for the item stored
    at index [i]. *)
Definition syncItem (parallaxHost : option node) (i : nat) : M bool :=
  s ← get;
  matrixItem ← deref (matrix (vars s) !! i);
  let originalNode := originalNode matrixItem in
  let mediaWrapper := mediaWrapper matrixItem in
  let mediaElement := mediaElement matrixItem in
  if negb (contains (dom s) (element (vars s)) originalNode) then
    host ← deref parallaxHost;
    match parallaxItem matrixItem with
    | Some p =>
        if bool_decide (p ∈ children (dom s) host) then removeChild host p
        else ret tt
    | None => ret tt
    end ;;
    ret false
  else
    (if isParallaxEnabled s then
       parallaxItem ←
         (if bool_decide (parentNode (dom s) !! mediaWrapper = Some originalNode)
          then
            let id := getAttribute (dom s) originalNode "data-parallax-id" in
            host ← deref parallaxHost;
            found ← querySlot host id;
            setItem i (with_parallaxItem found matrixItem) ;;
            p ← deref found;
            appendChild p mediaWrapper ;;
            ret found
          else ret (parallaxItem matrixItem));
       p ← deref parallaxItem;
       setStyle p "top" [show (top matrixItem); Str "px"] ;;
       setStyle p "left" [show (left matrixItem); Str "px"] ;;
       setStyle p "width" [show (width matrixItem); Str "px"] ;;
       setStyle p "height" [show (height matrixItem); Str "px"] ;;
       setStyle mediaWrapper "top" [Num (-1 * parallaxOffset); Str "px"] ;;
       loadImage mediaElement ;;
       classList_add mediaWrapper "loaded"
     else
       (if negb (bool_decide
                   (parentNode (dom s) !! mediaWrapper = Some originalNode))
        then appendChild originalNode mediaWrapper
        else ret tt) ;;
       match parallaxItem matrixItem with
       | Some p =>
           setStyle p "top" [] ;;
           setStyle p "left" [] ;;
           setStyle p "width" [] ;;
           setStyle p "height" []
       | None => ret tt
       end ;;
       setStyle mediaWrapper "top" [] ;;
       setTransform mediaElement []) ;;
    loadImage mediaElement ;;
    classList_add mediaWrapper "loaded" ;;
    ret true.

(** What [syncParallax] does past its early return: the [filter] over the
    matrix, whose resulting array is not stored, then [scroll] when parallax
    is enabled. *)
Definition syncPass (parallaxHost : option node) (scrollTop : float) : M unit :=
  s ← get;
  _ ← filterM (syncItem parallaxHost) (seq 0 (length (matrix (vars s))));
  s ← get;
  if isParallaxEnabled s then scroll scrollTop else ret tt.

(** [syncParallax(force)] *)
Definition syncParallax (force : jsval) : M unit :=
  s ← get;
  let parallaxHost :=
    querySelector (dom s) (body (window s)) [SelAttr "data-parallax-host"] in
  let scrollTop := page_scrollTop s in
  modify (set_vars (with_windowHeight (Some (innerHeight (window s))))) ;;
  hasUpdated ← updateAllMatrixItems;
  if negb hasUpdated && strict_eq_false force then ret tt
  else syncPass parallaxHost scrollTop.

(** The handlers of the index-editing events. *)
Definition handleIndexEditEnabled : M unit :=
  modify (set_vars (with_isEditingIndex true)) ;;
  syncParallax (JBool true).
Definition handleIndexEditDisabled : M unit :=
  modify (set_vars (with_isEditingIndex false)) ;;
  syncParallax (JBool true).
Definition handleIndexEditDeleted : M unit := syncParallax (JBool true).
Definition handleIndexEditReorder : M unit := syncParallax (JBool true).

(** [bindListeners()] *)
Definition bindListeners : M unit :=
  addEventListener EvScroll FnHandleScroll ;;
  resizeEnd FnSyncParallax ;;
  addEventListener (EvIndexEdit EditEnabled) FnHandleIndexEditEnabled ;;
  addEventListener (EvIndexEdit EditDisabled) FnHandleIndexEditDisabled ;;
  addEventListener (EvIndexEdit EditDeleted) FnHandleIndexEditDeleted ;;
  addEventListener (EvIndexEdit EditReorder) FnHandleIndexEditReorder ;;
  Tweak_watch
    ["tweak-overlay-parallax-enabled"; "tweak-site-width-option";
     "tweak-site-width"; "tweak-index-page-padding";
     "tweak-index-page-overlay-padding"]%string
    FnTweakWatcher.

(** [destroy()] *)
Definition destroy : M unit :=
  s ← get;
  match darwin (vars s) with
  | Some r => Darwin_destroy r ;; modify (set_vars (with_darwin None))
  | None => ret tt
  end ;;
  removeEventListener EvScroll FnHandleScroll ;;
  removeEventListener (EvIndexEdit EditEnabled) FnHandleIndexEditEnabled ;;
  removeEventListener (EvIndexEdit EditDisabled) FnHandleIndexEditDisabled ;;
  removeEventListener (EvIndexEdit EditDeleted) FnHandleIndexEditDeleted ;;
  removeEventListener (EvIndexEdit EditReorder) FnHandleIndexEditReorder.

(** ['a,b,c'.split(',')] *)
Fixpoint split_comma (s : string) : list string :=
  match s with
  | EmptyString => [EmptyString]
  | String c r =>
      if Ascii.eqb c ","%char then EmptyString :: split_comma r
      else match split_comma r with
           | h :: t => String c h :: t
           | [] => [String c EmptyString]
           end
  end.

(** [mediaWrapper.querySelector('img:not(.custom-fallback-image)') ||
     mediaWrapper.querySelector('div.sqs-video-background')].  Tag names are
    the lower-case local names the selectors are written with. *)
Definition findMediaElement (d : Dom) (mediaWrapper : node) : option node :=
  match querySelector d mediaWrapper
          [SelTag "img"; SelNotClass "custom-fallback-image"] with
  | Some img => Some img
  | None => querySelector d mediaWrapper
              [SelTag "div"; SelClass "sqs-video-background"]
  end.

(** The [nodes] of [initParallax]: the element itself when it is an
    original element, else the original elements below it. *)
Definition nodes_of (d : Dom) (element : node) : list node :=
  let isOriginalElement :=
    hasAttribute d element "data-parallax-original-element" in
  let originalDOMNodes :=
    querySelectorAll d element [SelAttr "data-parallax-original-element"] in
  if isOriginalElement then [element] else originalDOMNodes.

Section Init.

(** The global [parseFloat], a builtin of the language. *)
Variable parseFloat : string -> float.

(** The body of the [map] callback of [initParallax]. *)
Definition makeItem (originalNode : node) : M MatrixItem :=
  s ← get;
  mediaWrapper ←
    deref (querySelector (dom s) originalNode
             [SelAttr "data-parallax-image-wrapper"]);
  mediaElement ← deref (findMediaElement (dom s) mediaWrapper);
  let focalPointString :=
    getAttribute (dom s) mediaElement "data-image-focal-point" in
  let focalPoint :=
    match focalPointString with
    | None | Some EmptyString => 0.5
    | Some str =>
        parseFloat (default "undefined"%string (split_comma str !! 1%nat))
    end in
  ret {| originalNode := originalNode; mediaWrapper := mediaWrapper;
         mediaElement := mediaElement; focalPoint := focalPoint;
         parallaxItem := None; top := None; right := None; bottom := None;
         left := None; width := None; height := None |}.

(** [initParallax()]: the matrix is assigned once every item is built. *)
Definition initParallax : M unit :=
  s ← get;
  m ← mapM makeItem (nodes_of (dom s) (element (vars s)));
  modify (set_vars (with_matrix m)).

(** [init()] *)
Definition init : M unit :=
  initParallax ;;
  requestAnimationFrame FnSyncParallax ;;
  bindListeners ;;
  r ← Darwin_new
        [".sqs-block-form"; ".sqs-block-tourdates"; ".sqs-block-code";
         ".Header"; ".sqs-announcement-bar-dropzone"]%string
        FnSyncParallax;
  modify (set_vars (with_darwin (Some r))) ;;
  s ← get;
  match darwin (vars s) with
  | Some r => Darwin_init r
  | None => ret tt
  end.

(** [Parallax(element)]: fresh variables, then [init()]. *)
Definition Parallax (el : node) : M unit :=
  modify (set_vars (fun _ =>
    {| element := el; darwin := None; scrolling := false;
       scrollTimeout := None; windowHeight := None; matrix := [];
       isEditingIndex := false |})) ;;
  init.

End Init.

(** ** The browser calling back *)

Definition call (f : fn) (arg : jsval) : M unit :=
  match f with
  | FnSyncParallax => syncParallax arg
  | FnScrollCallback => scrollCallback
  | FnHandleScroll => handleScroll
  | FnHandleIndexEditEnabled => handleIndexEditEnabled
  | FnHandleIndexEditDisabled => handleIndexEditDisabled
  | FnHandleIndexEditDeleted => handleIndexEditDeleted
  | FnHandleIndexEditReorder => handleIndexEditReorder
  | FnTweakWatcher => syncParallax (JBool true)
  | FnScrollEnd => scrollEnd
  end.

(** A callback run by the browser: an exception it throws is reported as
    uncaught and the browser carries on. *)
Definition run (arg : jsval) (s : State) (f : fn) : State :=
  match call f arg s with
  | Ok _ s' => s'
  | Throw e s' => set_trace (fun t => t ++ [Uncaught e]) s'
  end.

(** An animation frame: the pending requests run with the frame's timestamp. *)
Definition animationFrame (timestamp : float) (s : State) : State :=
  fold_left (run (JNum timestamp)) (frameRequests (window s))
    (set_window (with_frameRequests []) s).

(** An event of type [ev] reaches the window. *)
Definition dispatchEvent (ev : eventType) (s : State) : State :=
  fold_left (run JObj)
    (map snd (filter (fun l => l.1 = ev) (listeners (window s)))) s.

(** The timeout [id] expires. *)
Definition timeoutExpires (id : nat) (s : State) : State :=
  fold_left (run JUndefined)
    (map snd (filter (fun t => t.1 = id) (timers (window s))))
    (set_window (fun w =>
       with_timers (filter (fun t => t.1 ≠ id) (timers w)) (nextTimer w) w) s).

(** The tweak [name] changes and [Tweak] notifies its watchers. *)
Definition tweakChanged (name : string) (arg : jsval) (s : State) : State :=
  fold_left (run arg)
    (map snd (filter (fun w => name ∈ w.1) (tweakWatchers (collab s)))) s.

(** Resize activity settles. *)
Definition resizeEnded (arg : jsval) (s : State) : State :=
  fold_left (run arg) (resizeEndCallbacks (collab s)) s.

(** The watcher [r] reports a mutation under one of its targets: it calls
    its callback.  It can do so once [init()] has been called on it; that it
    no longer does after [destroy()] is not assumed. *)
Definition mutationObserved (r : nat) (arg : jsval) (s : State) : State :=
  match darwins (collab s) !! r with
  | Some d => if observing d then run arg s (callback d) else s
  | None => s
  end.

(** ** A sample page

    [html > body > (section > original > wrapper > img, host > slot)], the
    original node laid out at 1000..1500 in a window 800 high. *)

Module Sample.

Definition html : node := 1%positive.
Definition page_body : node := 2%positive.
Definition section : node := 3%positive.
Definition original : node := 4%positive.
Definition wrapper : node := 5%positive.
Definition img : node := 6%positive.
Definition host : node := 7%positive.
Definition slot : node := 8%positive.

Definition page : Dom :=
  {| order := [html; page_body; section; original; wrapper; img; host; slot];
     parentNode :=
       list_to_map
         [(page_body, html); (section, page_body); (original, section);
          (wrapper, original); (img, wrapper); (host, page_body);
          (slot, host)];
     tagName :=
       list_to_map
         [(html, "html"); (page_body, "body"); (section, "div");
          (original, "div"); (wrapper, "div"); (img, "img"); (host, "div");
          (slot, "div")]%string;
     attribute :=
       list_to_map
         [((original, "data-parallax-original-element"), "");
          ((original, "data-parallax-id"), "a");
          ((wrapper, "data-parallax-image-wrapper"), "");
          ((img, "data-src"), "banner.png");
          ((host, "data-parallax-host"), "");
          ((slot, "data-parallax-item"), "");
          ((slot, "data-parallax-id"), "a")]%string;
     classList := ∅ |}.

Definition view : Window :=
  {| layout :=
       {[ original :=
            {| rect_top := 1000; rect_right := 1200; rect_bottom := 1500;
               rect_left := 0; offsetWidth := 1200; offsetHeight := 500 |} ]};
     documentElement := html;
     body := page_body;
     documentElement_scrollTop := 0;
     body_scrollTop := 0;
     innerHeight := 800;
     pageYOffset := 0;
     listeners := [];
     timers := [];
     nextTimer := 1;
     frameRequests := [];
     parseSelector := fun _ => None |}.

(** The page before the controller is constructed, the tweak
    [tweak-overlay-parallax-enabled] having the value [enabled]. *)
Definition fresh (d : Dom) (enabled : string) : State :=
  {| dom := d;
     window := view;
     collab :=
       {| tweakValues := {[ "tweak-overlay-parallax-enabled"%string := enabled ]};
          tweakWatchers := [];
          resizeEndCallbacks := [];
          darwins := [] |};
     vars :=
       {| element := section; darwin := None; scrolling := false;
          scrollTimeout := None; windowHeight := None; matrix := [];
          isEditingIndex := false |};
     trace := [] |}.

(** No focal point is declared on the sample pages, so [parseFloat] is
    never called. *)
Definition noParse (_ : string) : float := nan.

Definition state_of {A} (r : Res A) : State :=
  match r with
  | Ok _ s => s
  | Throw _ s => s
  end.

Definition thrown {A} (r : Res A) : option exn :=
  match r with
  | Ok _ _ => None
  | Throw e _ => Some e
  end.

(** After [Parallax(section)]. *)
Definition constructed (enabled : string) : State :=
  state_of (Parallax noParse section (fresh page enabled)).

(** A page where an original node lies inside another one, so that both
    find the same wrapper:
    [section > outer > inner > wrapper > img]. *)
Definition outer : node := 4%positive.
Definition inner : node := 9%positive.

Definition nested_page : Dom :=
  {| order := [html; page_body; section; outer; inner; wrapper; img];
     parentNode :=
       list_to_map
         [(page_body, html); (section, page_body); (outer, section);
          (inner, outer); (wrapper, inner); (img, wrapper)];
     tagName :=
       list_to_map
         [(html, "html"); (page_body, "body"); (section, "div");
          (outer, "div"); (inner, "div"); (wrapper, "div"); (img, "img")]%string;
     attribute :=
       list_to_map
         [((outer, "data-parallax-original-element"), "");
          ((inner, "data-parallax-original-element"), "");
          ((wrapper, "data-parallax-image-wrapper"), "");
          ((img, "data-src"), "banner.png")]%string;
     classList := ∅ |}.

(** The sample page without the wrapper, and without the overlay slot. *)
Definition page_without (n : node) : Dom :=
  {| order := filter (fun x => x ≠ n) (order page);
     parentNode := delete n (parentNode page);
     tagName := tagName page;
     attribute := attribute page;
     classList := classList page |}.

(** After the first animation frame, which runs the first [syncParallax]. *)
Definition synced (enabled : string) : State :=
  animationFrame 16 (constructed enabled).

(** The original node is taken out of the document (an index page is
    deleted in the editor): it has no parent and no layout box any more. *)
Definition original_removed (s : State) : State :=
  set_window (fun w => with_layout (delete original (layout w)) w)
    (set_dom (fun d => with_parentNode (delete original (parentNode d)) d) s).


(** The site owner changes the parallax tweak; no watcher has run yet. *)
Definition tweak_set (enabled : string) (s : State) : State :=
  set_collab (fun c =>
    {| tweakValues :=
         <["tweak-overlay-parallax-enabled"%string := enabled]> (tweakValues c);
       tweakWatchers := tweakWatchers c;
       resizeEndCallbacks := resizeEndCallbacks c;
       darwins := darwins c |}) s.

(** A page with two original nodes, each with its overlay slot:
    [section > (original > wrapper > img, original2 > wrapper2 > img2)] and
    [host > (slot, slot2)], the first laid out at 0..500 and the second at
    1000..1500. *)
Definition original2 : node := 10%positive.
Definition wrapper2 : node := 11%positive.
Definition img2 : node := 12%positive.
Definition slot2 : node := 13%positive.

Definition two_page : Dom :=
  {| order := [html; page_body; section; original; wrapper; img;
               original2; wrapper2; img2; host; slot; slot2];
     parentNode :=
       list_to_map
         [(page_body, html); (section, page_body); (original, section);
          (wrapper, original); (img, wrapper); (original2, section);
          (wrapper2, original2); (img2, wrapper2); (host, page_body);
          (slot, host); (slot2, host)];
     tagName :=
       list_to_map
         [(html, "html"); (page_body, "body"); (section, "div");
          (original, "div"); (wrapper, "div"); (img, "img");
          (original2, "div"); (wrapper2, "div"); (img2, "img");
          (host, "div"); (slot, "div"); (slot2, "div")]%string;
     attribute :=
       list_to_map
         [((original, "data-parallax-original-element"), "");
          ((original, "data-parallax-id"), "a");
          ((wrapper, "data-parallax-image-wrapper"), "");
          ((img, "data-src"), "banner.png");
          ((original2, "data-parallax-original-element"), "");
          ((original2, "data-parallax-id"), "b");
          ((wrapper2, "data-parallax-image-wrapper"), "");
          ((img2, "data-src"), "second.png");
          ((host, "data-parallax-host"), "");
          ((slot, "data-parallax-item"), "");
          ((slot, "data-parallax-id"), "a");
          ((slot2, "data-parallax-item"), "");
          ((slot2, "data-parallax-id"), "b")]%string;
     classList := ∅ |}.

Definition two_fresh : State :=
  set_window
    (with_layout
       {[ original :=
            {| rect_top := 0; rect_right := 1200; rect_bottom := 500;
               rect_left := 0; offsetWidth := 1200; offsetHeight := 500 |};
          original2 :=
            {| rect_top := 1000; rect_right := 1200; rect_bottom := 1500;
               rect_left := 0; offsetWidth := 1200; offsetHeight := 500 |} ]})
    (fresh two_page "true").

(** The sample page with a double quote in the id of the original node.
    Writing [q] for the double quote, the id is [aqb] and the text of the
    selector for its slot is [[data-parallax-item][data-parallax-id=qaqbq]],
    which is no selector.  (The sample window reads no text at all: on the
    other sample pages the ids are plain and none is asked of it.) *)
Definition quoted_id : string := String "a" (String "034" "b").

Definition quoted_page : Dom :=
  {| order := order page; parentNode := parentNode page;
     tagName := tagName page;
     attribute :=
       <[(original, "data-parallax-id"%string) := quoted_id]> (attribute page);
     classList := classList page |}.

(** An id that ends the string of the selector early.  Writing [q] for the
    double quote, the id is [xq],[data-parallax-original-element=q] and the
    text for the slot is
    [[data-parallax-item][data-parallax-id=qxq],[data-parallax-original-element=qq]]:
    a list of two selectors, the second of which matches the elements whose
    attribute [data-parallax-original-element] is the empty string, as it is
    on the original nodes. *)
Definition crafted_id : string :=
  String "x" (String "034" ("],[data-parallax-original-element="
                            +:+ String "034" "")).

(** A browser that reads that text, and no other. *)
Definition reads_crafted (text : string) : option (Dom -> node -> bool) :=
  if String.eqb text (slot_text (Some crafted_id)) then
    Some (fun d n =>
            matches d [SelAttr "data-parallax-item";
                       SelAttrEq "data-parallax-id" "x"] n
            || matches d [SelAttrEq "data-parallax-original-element" ""] n)
  else None.

(** A page whose overlay host is the section itself, so that the original
    node is below the host:
    [html > body > section > original > wrapper > img], the original node
    carrying the crafted id. *)
Definition hosted_page : Dom :=
  {| order := [html; page_body; section; original; wrapper; img];
     parentNode :=
       list_to_map
         [(page_body, html); (section, page_body); (original, section);
          (wrapper, original); (img, wrapper)];
     tagName :=
       list_to_map
         [(html, "html"); (page_body, "body"); (section, "div");
          (original, "div"); (wrapper, "div"); (img, "img")]%string;
     attribute :=
       list_to_map
         [((section, "data-parallax-host"%string), ""%string);
          ((original, "data-parallax-original-element"%string), ""%string);
          ((original, "data-parallax-id"%string), crafted_id);
          ((wrapper, "data-parallax-image-wrapper"%string), ""%string);
          ((img, "data-src"%string), "banner.png"%string)];
     classList := ∅ |}.

Definition hosted_fresh : State :=
  set_window (fun w =>
    {| layout := layout w; documentElement := documentElement w;
       body := body w;
       documentElement_scrollTop := documentElement_scrollTop w;
       body_scrollTop := body_scrollTop w; innerHeight := innerHeight w;
       pageYOffset := pageYOffset w; listeners := listeners w;
       timers := timers w; nextTimer := nextTimer w;
       frameRequests := frameRequests w;
       parseSelector := reads_crafted |})
    (fresh hosted_page "true").

(** The controller is constructed on the page with two original nodes, the
    first original node is taken out of the document, and then the first
    animation frame runs the first [syncParallax]. *)
Definition first_removed : State :=
  animationFrame 16
    (original_removed (state_of (Parallax noParse section two_fresh))).

End Sample.

(** ** The vocabulary of the properties *)

(** [x === x], which fails for [NaN] only. *)
Definition is_number (x : float) : bool := PrimFloat.eqb x x.

(** The state after some more effects. *)
Definition logged (es : list Effect) (s : State) : State :=
  set_trace (fun t => t ++ es) s.

(** The three assignments of one transform string. *)
Definition transform_writes (n : node) (v : css) : list Effect :=
  [SetStyle n "webkitTransform" v; SetStyle n "msTransform" v;
   SetStyle n "transform" v].

(** The listeners [bindListeners] registers on the window. *)
Definition module_listeners : list (eventType * fn) :=
  [(EvScroll, FnHandleScroll);
   (EvIndexEdit EditEnabled, FnHandleIndexEditEnabled);
   (EvIndexEdit EditDisabled, FnHandleIndexEditDisabled);
   (EvIndexEdit EditDeleted, FnHandleIndexEditDeleted);
   (EvIndexEdit EditReorder, FnHandleIndexEditReorder)].

(** The part of the state the relocation of wrappers depends on. *)
Definition core (s : State) : gmap node node * gmap (node * string) string * Closure :=
  (parentNode (dom s), attribute (dom s), vars s).

(** A computation that leaves that part as it is. *)
Definition keeps_core {A} (m : M A) : Prop :=
  forall s a s', m s = Ok a s' -> core s' = core s.

(** What [host.querySelector] gives for the slot of the item [it]: the
    element found or [null], or nothing when the call throws. *)
Definition slot_of (s : State) (host : node) (it : MatrixItem) :
    option (option node) :=
  findSlot (window s) (dom s) host
    (getAttribute (dom s) (originalNode it) "data-parallax-id").

(** The original nodes of the items carry ids that stand for themselves in
    the selector of the slot. *)
Definition plain_ids (s : State) : Prop :=
  forall it, it ∈ matrix (vars s) ->
    plain (default "null"
             (getAttribute (dom s) (originalNode it) "data-parallax-id")) = true.

(** What the [filter] callback did to the item [it] stored at index [i]. *)
Inductive step_outcome (s : State) (i : nat) (it : MatrixItem) (s' : State) :
    bool -> Prop :=
| Skipped :
    contains (dom s) (element (vars s)) (originalNode it) = false ->
    vars s' = vars s ->
    (parentNode (dom s') = parentNode (dom s) \/
     exists p, parallaxItem it = Some p /\
               parentNode (dom s') = delete p (parentNode (dom s))) ->
    step_outcome s i it s' false
| MovedToSlot (p : node) :
    isParallaxEnabled s = true ->
    parentNode (dom s) !! mediaWrapper it = Some (originalNode it) ->
    (exists h, slot_of s h it = Some (Some p)) ->
    vars s'
    = with_matrix (<[i := with_parallaxItem (Some p) it]> (matrix (vars s)))
        (vars s) ->
    parentNode (dom s') = <[mediaWrapper it := p]> (parentNode (dom s)) ->
    step_outcome s i it s' true
| KeptInSlot (p : node) :
    isParallaxEnabled s = true ->
    parentNode (dom s) !! mediaWrapper it <> Some (originalNode it) ->
    parallaxItem it = Some p ->
    vars s' = vars s ->
    parentNode (dom s') = parentNode (dom s) ->
    step_outcome s i it s' true
| MovedBack :
    isParallaxEnabled s = false ->
    parentNode (dom s) !! mediaWrapper it <> Some (originalNode it) ->
    vars s' = vars s ->
    parentNode (dom s')
    = <[mediaWrapper it := originalNode it]> (parentNode (dom s)) ->
    step_outcome s i it s' true
| KeptInOriginal :
    isParallaxEnabled s = false ->
    parentNode (dom s) !! mediaWrapper it = Some (originalNode it) ->
    vars s' = vars s ->
    parentNode (dom s') = parentNode (dom s) ->
    step_outcome s i it s' true.

(** The media wrapper is a child of the item's original node. *)
Definition wrapper_in_original (par : gmap node node) (it : MatrixItem) : Prop :=
  par !! mediaWrapper it = Some (originalNode it).

(** The media wrapper is a child of the overlay node recorded in the item. *)
Definition wrapper_in_overlay (par : gmap node node) (it : MatrixItem) : Prop :=
  exists p, parallaxItem it = Some p /\ par !! mediaWrapper it = Some p.

(** The wrapper is a child of the original node or of the overlay node,
    and not of both. *)
Definition exactly_one (par : gmap node node) (it : MatrixItem) : Prop :=
  (wrapper_in_original par it /\ ~ wrapper_in_overlay par it) \/
  (~ wrapper_in_original par it /\ wrapper_in_overlay par it).

(** An element that is not an overlay slot. *)
Definition not_slot (attr : gmap (node * string) string) (n : node) : Prop :=
  attr !! (n, "data-parallax-item"%string) = None.

(** The tracked items keep their wrappers apart from one another and from
    the overlay slots, and every wrapper sits in exactly one of its two
    places. *)
Record tracked (par : gmap node node) (attr : gmap (node * string) string)
    (items : list MatrixItem) : Prop := {
  wrappers_distinct : NoDup (mediaWrapper <$> items);
  wrappers_not_overlay :
    forall it it', it ∈ items -> it' ∈ items ->
                   parallaxItem it' <> Some (mediaWrapper it);
  wrappers_not_slots :
    forall it, it ∈ items -> not_slot attr (mediaWrapper it);
  originals_not_slots :
    forall it, it ∈ items -> not_slot attr (originalNode it);
  one_parent : forall it, it ∈ items -> exactly_one par it
}.

(** The same, of the matrix and the DOM of a state. *)
Definition tracking_ok (s : State) : Prop :=
  tracked (parentNode (dom s)) (attribute (dom s)) (matrix (vars s)).

(** The fields of an item the relocation looks at. *)
Definition key (it : MatrixItem) : node * node * option node :=
  (originalNode it, mediaWrapper it, parallaxItem it).

(** A computation that throws from no state. *)
Definition never_throws {A} (m : M A) : Prop :=
  forall s e s', m s <> Throw e s'.

(** The step of the pass for the item [it] throws [e]. *)
Inductive step_fault (host : option node) (s : State) (it : MatrixItem) :
    exn -> Prop :=
| NoHostToDetachFrom :
    contains (dom s) (element (vars s)) (originalNode it) = false ->
    host = None ->
    step_fault host s it TypeError
| NoHostToSearch :
    contains (dom s) (element (vars s)) (originalNode it) = true ->
    isParallaxEnabled s = true ->
    parentNode (dom s) !! mediaWrapper it = Some (originalNode it) ->
    host = None ->
    step_fault host s it TypeError
| NoMatchingSlot (h : node) :
    contains (dom s) (element (vars s)) (originalNode it) = true ->
    isParallaxEnabled s = true ->
    parentNode (dom s) !! mediaWrapper it = Some (originalNode it) ->
    host = Some h ->
    slot_of s h it = Some None ->
    step_fault host s it TypeError
| NoSelector (h : node) :
    contains (dom s) (element (vars s)) (originalNode it) = true ->
    isParallaxEnabled s = true ->
    parentNode (dom s) !! mediaWrapper it = Some (originalNode it) ->
    host = Some h ->
    slot_of s h it = None ->
    step_fault host s it SyntaxError
| SlotInsideWrapper (h p : node) :
    contains (dom s) (element (vars s)) (originalNode it) = true ->
    isParallaxEnabled s = true ->
    parentNode (dom s) !! mediaWrapper it = Some (originalNode it) ->
    host = Some h ->
    slot_of s h it = Some (Some p) ->
    contains (dom s) (mediaWrapper it) p = true ->
    step_fault host s it HierarchyRequestError
| NoOverlayRecorded :
    contains (dom s) (element (vars s)) (originalNode it) = true ->
    isParallaxEnabled s = true ->
    parentNode (dom s) !! mediaWrapper it <> Some (originalNode it) ->
    parallaxItem it = None ->
    step_fault host s it TypeError
| OriginalInsideWrapper :
    contains (dom s) (element (vars s)) (originalNode it) = true ->
    isParallaxEnabled s = false ->
    parentNode (dom s) !! mediaWrapper it <> Some (originalNode it) ->
    contains (dom s) (mediaWrapper it) (originalNode it) = true ->
    step_fault host s it HierarchyRequestError.

(** The original node [n] has no media wrapper below it, or the wrapper has
    no media element. *)
Definition lacks_media (d : Dom) (n : node) : Prop :=
  match querySelector d n [SelAttr "data-parallax-image-wrapper"] with
  | None => True
  | Some mediaWrapper => findMediaElement d mediaWrapper = None
  end.

(** [x] is [k] parent links below [a]. *)
Inductive below (d : Dom) (a : node) : node -> nat -> Prop :=
| below_self : below d a a 0%nat
| below_child (x p : node) (k : nat) :
    parentNode d !! x = Some p -> below d a p k -> below d a x (S k).

(** No node is its own ancestor, and every node that has a parent is listed
    in the document order. *)
Record well_formed (d : Dom) : Prop := {
  acyclic :
    exists rank : node -> nat,
      forall c p, parentNode d !! c = Some p -> rank p < rank c;
  listed : forall c p, parentNode d !! c = Some p -> c ∈ order d
}.

(** ** More vocabulary: what a computation leaves alone *)

(** Every outcome of [m], returned or thrown, is related by [R] to the
    state [m] started from. *)
Definition always {A} (R : State -> State -> Prop) (m : M A) : Prop :=
  forall s, match m s with
            | Ok _ s' => R s s'
            | Throw _ s' => R s s'
            end.

(** A relation between states that holds whatever is done to the DOM, to
    the trace and to the matrix. *)
Record frame (R : State -> State -> Prop) : Prop := {
  frame_refl : forall s, R s s;
  frame_trans : forall s1 s2 s3, R s1 s2 -> R s2 s3 -> R s1 s3;
  frame_dom : forall f s, R s (set_dom f s);
  frame_trace : forall f s, R s (set_trace f s);
  frame_matrix : forall m s, R s (set_vars (with_matrix m) s)
}.

(** The window, the collaborators and the variables other than the matrix
    are the same. *)
Definition same_env (s s' : State) : Prop :=
  window s' = window s /\ collab s' = collab s /\
  with_matrix [] (vars s') = with_matrix [] (vars s).

(** The pending timeouts and the variable [scrollTimeout] are the same. *)
Definition same_timers (s s' : State) : Prop :=
  timers (window s') = timers (window s) /\
  nextTimer (window s') = nextTimer (window s) /\
  scrollTimeout (vars s') = scrollTimeout (vars s).

(** Timeout ids are positive, as in a browser, so that an id is truthy; the
    pending timeouts have distinct ids, all handed out already, and a
    pending timeout that ends the scroll loop is the one [scrollTimeout]
    holds. *)
Definition timers_ok (s : State) : Prop :=
  0 < nextTimer (window s) /\
  NoDup (timers (window s)).*1 /\
  (forall t, t ∈ timers (window s) -> 0 < t.1 < nextTimer (window s)) /\
  (forall id, (id, FnScrollEnd) ∈ timers (window s) ->
              scrollTimeout (vars s) = Some id).

(** An assignment of a transform to the media element or to the overlay
    node of one of the items. *)
Definition transform_write_on (items : list MatrixItem) (e : Effect) : Prop :=
  exists n prop v,
    e = SetStyle n prop v /\
    prop ∈ ["webkitTransform"; "msTransform"; "transform"]%string /\
    exists it, it ∈ items /\ (n = mediaElement it \/ parallaxItem it = Some n).

(** An effect that assigns no style but the empty string. *)
Definition clears_styles (e : Effect) : Prop :=
  match e with
  | SetStyle _ _ v => v = []
  | _ => True
  end.

(** The environment is the same and the trace has grown by effects that
    clear styles only. *)
Definition quietly (s s' : State) : Prop :=
  same_env s s' /\
  exists es, trace s' = trace s ++ es /\ Forall clears_styles es.

(** The nodes of an item, which are set when the matrix is built. *)
Definition statics (it : MatrixItem) : node * node * node :=
  (originalNode it, mediaWrapper it, mediaElement it).

(** The attributes are the same and so are the classes other than
    ["loaded"], and the trace has only grown. *)
Definition gently (s s' : State) : Prop :=
  attribute (dom s') = attribute (dom s) /\
  (forall n c, c <> "loaded"%string ->
     classList_contains (dom s') n c = classList_contains (dom s) n c) /\
  exists es, trace s' = trace s ++ es.

(** Where the pass of [syncParallax] that started in [s1] may have got to:
    the environment, the attributes and the nodes of the items are the same,
    only media wrappers have another parent, and no node has lost its
    parent. *)
Record pass_inv (s1 sa : State) : Prop := {
  inv_env : same_env s1 sa;
  inv_gently : gently s1 sa;
  inv_statics : statics <$> matrix (vars sa) = statics <$> matrix (vars s1);
  inv_parents :
    forall x, x ∉ mediaWrapper <$> matrix (vars s1) ->
              parentNode (dom sa) !! x = parentNode (dom s1) !! x;
  inv_size : size (parentNode (dom s1)) <= size (parentNode (dom sa))
}.

(** What the browser can do to a page that runs the controller. *)
Inductive browser_step :=
| Frame (timestamp : float)
| Event (ev : eventType)
| TimeoutExpires (id : nat)
| TweakChanged (name : string) (arg : jsval)
| ResizeEnded (arg : jsval)
| MutationObserved (r : nat) (arg : jsval).

Definition browser (b : browser_step) : State -> State :=
  match b with
  | Frame timestamp => animationFrame timestamp
  | Event ev => dispatchEvent ev
  | TimeoutExpires id => timeoutExpires id
  | TweakChanged name arg => tweakChanged name arg
  | ResizeEnded arg => resizeEnded arg
  | MutationObserved r arg => mutationObserved r arg
  end.

(** The pending timeouts that end the frame loop. *)
Definition pendingScrollEnd (s : State) : list (nat * fn) :=
  filter (fun t => t.2 = FnScrollEnd) (timers (window s)).

(** An item as [initParallax] builds it from the page [d]: the wrapper is
    found below the original node, the media element below the wrapper, and
    nothing is measured or placed yet. *)
Definition built_from (d : Dom) (it : MatrixItem) : Prop :=
  mediaWrapper it ∈ subtree d (originalNode it) /\
  hasAttribute d (mediaWrapper it) "data-parallax-image-wrapper" = true /\
  mediaElement it ∈ subtree d (mediaWrapper it) /\
  (tagName d !! mediaElement it = Some "img"%string /\
   classList_contains d (mediaElement it) "custom-fallback-image" = false \/
   tagName d !! mediaElement it = Some "div"%string /\
   classList_contains d (mediaElement it) "sqs-video-background" = true) /\
  (getAttribute d (mediaElement it) "data-image-focal-point" = None \/
   getAttribute d (mediaElement it) "data-image-focal-point" = Some EmptyString ->
   focalPoint it = 0.5%float) /\
  parallaxItem it = None /\
  top it = None /\ right it = None /\ bottom it = None /\ left it = None /\
  width it = None /\ height it = None.

(** The tweaks the controller watches. *)
Definition watched_tweaks : list string :=
  ["tweak-overlay-parallax-enabled"; "tweak-site-width-option";
   "tweak-site-width"; "tweak-index-page-padding";
   "tweak-index-page-overlay-padding"]%string.

(** The test of [updateMatrixItem] on the item [it]: one of the cached
    [top], [left], [width], [height] is not the current one. *)
Definition differs (s : State) (it : MatrixItem) : bool :=
  let rect := box_of s (originalNode it) in
  strict_neq (top it) (rect_top rect + page_scrollTop s)%float
  || strict_neq (left it) (rect_left rect)
  || strict_neq (width it) (offsetWidth rect)
  || strict_neq (height it) (offsetHeight rect).

(** The item [updateMatrixItem] stores when the test holds. *)
Definition measured (s : State) (it : MatrixItem) : MatrixItem :=
  let rect := box_of s (originalNode it) in
  {| originalNode := originalNode it; mediaWrapper := mediaWrapper it;
     mediaElement := mediaElement it; focalPoint := focalPoint it;
     parallaxItem := parallaxItem it;
     top := Some (rect_top rect + page_scrollTop s)%float;
     right := Some (rect_right rect);
     bottom := Some (rect_bottom rect + page_scrollTop s)%float;
     left := Some (rect_left rect);
     width := Some (offsetWidth rect);
     height := Some (offsetHeight rect) |}.

Definition refreshed (s : State) (it : MatrixItem) : MatrixItem :=
  if differs s it then measured s it else it.

(** The layout of the item's original node consists of numbers. *)
Definition measurable (s : State) (it : MatrixItem) : Prop :=
  let rect := box_of s (originalNode it) in
  is_number (rect_top rect + page_scrollTop s)%float = true /\
  is_number (rect_left rect) = true /\
  is_number (offsetWidth rect) = true /\
  is_number (offsetHeight rect) = true.

(** ** The scroll indicator

    [ScrollIndicator] of [scripts/controllers/ScrollIndicator.js]: the arrow
    or line on the first page of an index that tells the visitor to scroll.
    None of its functions throws, so they are state transformers. *)

Module ScrollIndicator.

(** [handleScroll], [handleResize] and [handleClick]. *)
Inductive listener :=
| HandleScroll
| HandleResize
| HandleClick.

(** ['scroll'] and ['resize'] on the window, ['click'] on the element. *)
Inductive event :=
| Scroll
| Resize
| Click.

(** The two arrow functions given to [setTimeout]. *)
Inductive timeoutFn :=
| Show       (* [element.classList.remove('hidden')] *)
| Hide.      (* [element.classList.add('hidden')] *)

(** The arrow function given to [Tweak.watch]. *)
Inductive watcher :=
| OnTweak.

(** A variable that holds a timeout id: [undefined] until it is assigned,
    then an id or [null]. *)
Inductive handle :=
| Undefined
| Null
| Id (id : nat).

Global Instance listener_eq_dec : EqDecision listener.
Proof. solve_decision. Defined.
Global Instance event_eq_dec : EqDecision event.
Proof. solve_decision. Defined.
Global Instance timeoutFn_eq_dec : EqDecision timeoutFn.
Proof. solve_decision. Defined.

(** The element's class list and layout, the window, [Tweak], the calls of
    [jump], and the three variables of the closure. *)
Record State := {
  classList : list string;
  rect_bottom : float;         (* [element.getBoundingClientRect().bottom] *)
  innerHeight : float;
  pageYOffset : float;
  listeners : list (event * listener);
  tweakWatchers : list watcher;
  timers : list (nat * timeoutFn * float);   (* id, callback, delay *)
  nextTimer : nat;
  jumps : list (float * float);              (* target, duration *)
  showTimeout : handle;
  hideTimeout : handle;
  bottomEdge : float
}.

Definition set_classList (f : list string -> list string) (s : State) : State :=
  {| classList := f (classList s); rect_bottom := rect_bottom s;
     innerHeight := innerHeight s; pageYOffset := pageYOffset s;
     listeners := listeners s; tweakWatchers := tweakWatchers s;
     timers := timers s; nextTimer := nextTimer s; jumps := jumps s;
     showTimeout := showTimeout s; hideTimeout := hideTimeout s;
     bottomEdge := bottomEdge s |}.
Definition set_listeners
    (f : list (event * listener) -> list (event * listener)) (s : State) : State :=
  {| classList := classList s; rect_bottom := rect_bottom s;
     innerHeight := innerHeight s; pageYOffset := pageYOffset s;
     listeners := f (listeners s); tweakWatchers := tweakWatchers s;
     timers := timers s; nextTimer := nextTimer s; jumps := jumps s;
     showTimeout := showTimeout s; hideTimeout := hideTimeout s;
     bottomEdge := bottomEdge s |}.
Definition set_tweakWatchers (l : list watcher) (s : State) : State :=
  {| classList := classList s; rect_bottom := rect_bottom s;
     innerHeight := innerHeight s; pageYOffset := pageYOffset s;
     listeners := listeners s; tweakWatchers := l;
     timers := timers s; nextTimer := nextTimer s; jumps := jumps s;
     showTimeout := showTimeout s; hideTimeout := hideTimeout s;
     bottomEdge := bottomEdge s |}.
Definition set_timers (l : list (nat * timeoutFn * float)) (next : nat)
    (s : State) : State :=
  {| classList := classList s; rect_bottom := rect_bottom s;
     innerHeight := innerHeight s; pageYOffset := pageYOffset s;
     listeners := listeners s; tweakWatchers := tweakWatchers s;
     timers := l; nextTimer := next; jumps := jumps s;
     showTimeout := showTimeout s; hideTimeout := hideTimeout s;
     bottomEdge := bottomEdge s |}.
Definition set_jumps (l : list (float * float)) (s : State) : State :=
  {| classList := classList s; rect_bottom := rect_bottom s;
     innerHeight := innerHeight s; pageYOffset := pageYOffset s;
     listeners := listeners s; tweakWatchers := tweakWatchers s;
     timers := timers s; nextTimer := nextTimer s; jumps := l;
     showTimeout := showTimeout s; hideTimeout := hideTimeout s;
     bottomEdge := bottomEdge s |}.
Definition set_showTimeout (h : handle) (s : State) : State :=
  {| classList := classList s; rect_bottom := rect_bottom s;
     innerHeight := innerHeight s; pageYOffset := pageYOffset s;
     listeners := listeners s; tweakWatchers := tweakWatchers s;
     timers := timers s; nextTimer := nextTimer s; jumps := jumps s;
     showTimeout := h; hideTimeout := hideTimeout s;
     bottomEdge := bottomEdge s |}.
Definition set_hideTimeout (h : handle) (s : State) : State :=
  {| classList := classList s; rect_bottom := rect_bottom s;
     innerHeight := innerHeight s; pageYOffset := pageYOffset s;
     listeners := listeners s; tweakWatchers := tweakWatchers s;
     timers := timers s; nextTimer := nextTimer s; jumps := jumps s;
     showTimeout := showTimeout s; hideTimeout := h;
     bottomEdge := bottomEdge s |}.
Definition set_bottomEdge (x : float) (s : State) : State :=
  {| classList := classList s; rect_bottom := rect_bottom s;
     innerHeight := innerHeight s; pageYOffset := pageYOffset s;
     listeners := listeners s; tweakWatchers := tweakWatchers s;
     timers := timers s; nextTimer := nextTimer s; jumps := jumps s;
     showTimeout := showTimeout s; hideTimeout := hideTimeout s;
     bottomEdge := x |}.
Definition set_layout (y h b : float) (s : State) : State :=
  {| classList := classList s; rect_bottom := b;
     innerHeight := h; pageYOffset := y;
     listeners := listeners s; tweakWatchers := tweakWatchers s;
     timers := timers s; nextTimer := nextTimer s; jumps := jumps s;
     showTimeout := showTimeout s; hideTimeout := hideTimeout s;
     bottomEdge := bottomEdge s |}.

(** [classList.add], [classList.remove] and [classList.toggle(c, force)]. *)
Definition classList_add (c : string) (l : list string) : list string :=
  if bool_decide (c ∈ l) then l else l ++ [c].
Definition classList_remove (c : string) (l : list string) : list string :=
  filter (fun x => x ≠ c) l.
Definition classList_toggle (c : string) (force : bool) (l : list string) :
    list string :=
  if force then classList_add c l else classList_remove c l.

(** [setTimeout(f, delay)]: the id is the next one of the window. *)
Definition setTimeout (f : timeoutFn) (delay : float) (s : State) : nat * State :=
  (nextTimer s,
   set_timers (timers s ++ [(nextTimer s, f, delay)]) (S (nextTimer s)) s).

(** [clearTimeout(h)]: nothing happens for [undefined], [null] or an id
    that is not pending. *)
Definition clearTimeout (h : handle) (s : State) : State :=
  match h with
  | Id id => set_timers (filter (fun t => t.1.1 ≠ id) (timers s)) (nextTimer s) s
  | Undefined | Null => s
  end.

(** Truthiness of a handle: [undefined], [null] and [0] are falsy. *)
Definition truthy_handle (h : handle) : bool :=
  match h with
  | Id id => negb (Nat.eqb id 0)
  | Undefined | Null => false
  end.

Definition addEventListener (ev : event) (f : listener) (s : State) : State :=
  set_listeners (fun l => if bool_decide ((ev, f) ∈ l) then l else l ++ [(ev, f)]) s.

Definition removeEventListener (ev : event) (f : listener) (s : State) : State :=
  set_listeners (filter (fun l => l ≠ (ev, f))) s.

(** [tweaks] *)
Definition tweaks : list string :=
  map (fun tweak => String.append "tweak-index-page-scroll-" tweak)
    ["indicator"; "indicator-icon"; "indicator-font"; "indicator-color"].

(** [handleScroll()] *)
Definition handleScroll (s : State) : State :=
  if PrimFloat.ltb (innerHeight s) (bottomEdge s) then
    if PrimFloat.ltb (pageYOffset s + innerHeight s) (bottomEdge s) then
      let s := clearTimeout (hideTimeout s) s in
      let s := set_hideTimeout Null s in
      set_classList (classList_remove "hidden") s
    else if negb (truthy_handle (hideTimeout s)) then
      let (id, s) := setTimeout Hide 500 s in
      set_hideTimeout (Id id) s
    else s
  else
    let s := clearTimeout (hideTimeout s) s in
    let s := set_hideTimeout Null s in
    set_classList
      (classList_toggle "hidden" (PrimFloat.ltb 0 (pageYOffset s))) s.

(** [handleClick()]: the call of [jump] is recorded. *)
Definition handleClick (s : State) : State :=
  set_jumps (jumps s ++ [(rect_bottom s, 500)]) s.

(** [handleResize()] *)
Definition handleResize (s : State) : State :=
  set_bottomEdge (pageYOffset s + rect_bottom s) s.

(** The callback of [Tweak.watch], called with the tweak's name. *)
Definition onTweak (name : string) (s : State) : State :=
  if bool_decide (name ∈ tweaks) then
    set_classList (classList_remove "hidden") s
  else s.

(** [bindListeners()] *)
Definition bindListeners (s : State) : State :=
  let s := addEventListener Scroll HandleScroll s in
  let s := addEventListener Resize HandleResize s in
  let s := addEventListener Click HandleClick s in
  set_tweakWatchers (tweakWatchers s ++ [OnTweak]) s.

(** [destroy()] *)
Definition destroy (s : State) : State :=
  let s := removeEventListener Scroll HandleScroll s in
  let s := removeEventListener Resize HandleResize s in
  let s := removeEventListener Click HandleClick s in
  let s := clearTimeout (showTimeout s) s in
  let s := clearTimeout (hideTimeout s) s in
  let s := set_showTimeout Null s in
  set_hideTimeout Null s.

(** [ScrollIndicator(element)]: the variables, [bindListeners()], then the
    timeout that shows the element. *)
Definition ScrollIndicator (s : State) : State :=
  let s := set_showTimeout Undefined s in
  let s := set_hideTimeout Undefined s in
  let s := set_bottomEdge (rect_bottom s) s in
  let s := bindListeners s in
  let (id, s) := setTimeout Show 1000 s in
  set_showTimeout (Id id) s.

(** *** The browser calling back *)

Definition call_listener (s : State) (f : listener) : State :=
  match f with
  | HandleScroll => handleScroll s
  | HandleResize => handleResize s
  | HandleClick => handleClick s
  end.

Definition call_timeout (s : State) (f : timeoutFn) : State :=
  match f with
  | Show => set_classList (classList_remove "hidden") s
  | Hide => set_classList (classList_add "hidden") s
  end.

Definition dispatchEvent (ev : event) (s : State) : State :=
  fold_left call_listener
    (map snd (filter (fun l => l.1 = ev) (listeners s))) s.

Definition timeoutExpires (id : nat) (s : State) : State :=
  fold_left call_timeout
    (map (fun t => t.1.2) (filter (fun t => t.1.1 = id) (timers s)))
    (set_timers (filter (fun t => t.1.1 ≠ id) (timers s)) (nextTimer s) s).

Definition tweakChanged (name : string) (s : State) : State :=
  fold_left (fun s _ => onTweak name s) (tweakWatchers s) s.

(** What the browser can do to a page that runs the indicator: the layout
    changes (the visitor scrolls, the window is resized), an event is
    dispatched, a timeout expires, a tweak changes. *)
Inductive browser_step :=
| Layout (pageYOffset innerHeight rect_bottom : float)
| Event (ev : event)
| TimeoutExpires (id : nat)
| TweakChanged (name : string).

Definition browser (b : browser_step) (s : State) : State :=
  match b with
  | Layout y h bottom => set_layout y h bottom s
  | Event ev => dispatchEvent ev s
  | TimeoutExpires id => timeoutExpires id s
  | TweakChanged name => tweakChanged name s
  end.

(** *** The vocabulary of its properties *)

(** Timeout ids are positive, as in a browser; every pending timeout has an
    id below the next one, and is the one recorded in the variable of its
    kind. *)
Definition recorded (s : State) : Prop :=
  (0 < nextTimer s)%nat /\
  NoDup ((fun t => t.1.1) <$> timers s) /\
  (forall t, t ∈ timers s -> (0 < t.1.1 < nextTimer s)%nat) /\
  (forall id d, (id, Show, d) ∈ timers s -> showTimeout s = Id id) /\
  (forall id d, (id, Hide, d) ∈ timers s -> hideTimeout s = Id id).

(** The three listeners of the controller. *)
Definition module_listeners : list (event * listener) :=
  [(Scroll, HandleScroll); (Resize, HandleResize); (Click, HandleClick)].

(** The pending timeouts with the callback [f]. *)
Definition pending (f : timeoutFn) (s : State) : list (nat * timeoutFn * float) :=
  filter (fun t => t.1.2 = f) (timers s).

(** A page one second after the visitor arrived: 3000 high in a window 800
    high, the indicator's bottom edge at 700. *)
Definition sample : State :=
  {| classList := ["scroll-indicator"; "hidden"]; rect_bottom := 700;
     innerHeight := 800; pageYOffset := 0;
     listeners := []; tweakWatchers := [];
     timers := []; nextTimer := 1%nat; jumps := [];
     showTimeout := Undefined; hideTimeout := Undefined; bottomEdge := 0 |}.

End ScrollIndicator.

(** * Properties *)

(** ** Stepping through computations *)

Ltac unfold_M :=
  unfold deref, emit in *; unfold bind, ret, get, modify, throw in *.

(** ** C7: [scroll] with parallax disabled *)

(** C7.  When parallax is not enabled, [scroll] returns normally and leaves
    the whole state as it was: no style assignment is made, whatever the
    scroll offset and the matrix are. *)
Theorem scroll_disabled_is_noop (scrollTop : float) (s : State) :
  isParallaxEnabled s = false ->
  scroll scrollTop s = Ok tt s.
Proof.
  intros Hoff. unfold scroll, bind, get. simpl. now rewrite Hoff.
Qed.

Lemma scroll_disabled_is_noop_witness :
  isParallaxEnabled (Sample.synced "false") = false /\
  scroll 450 (Sample.synced "false") = Ok tt (Sample.synced "false").
Proof.
  split; [vm_compute; reflexivity|].
  apply scroll_disabled_is_noop. vm_compute; reflexivity.
Defined.

(** ** C6: refreshing the cached geometry *)



(** ** C9: the early return of [syncParallax] *)

Lemma updateMatrixItem_false (i : nat) (s s' : State) :
  updateMatrixItem i s = Ok false s' -> s' = s.
Proof.
  unfold updateMatrixItem, setItem. unfold_M.
  destruct (matrix (vars s) !! i) as [it|]; [|discriminate].
  cbv zeta.
  match goal with |- context [if ?c then _ else _] => destruct c end;
    simpl; congruence.
Qed.

Lemma updateEach_false (l : list nat) (didUpdate : bool) (s s' : State) :
  updateEach l didUpdate s = Ok false s' -> s' = s /\ didUpdate = false.
Proof.
  revert didUpdate s. induction l as [|i l IH]; intros didUpdate s; simpl.
  - unfold ret. intros [= -> ->]. auto.
  - unfold bind. destruct (updateMatrixItem i s) as [u s1|e s1] eqn:Hu;
      [|discriminate].
    intros H. apply IH in H as [-> Hacc].
    destruct u; [discriminate|].
    split; [|exact Hacc]. now apply updateMatrixItem_false in Hu.
Qed.

Lemma updateAllMatrixItems_false (s s' : State) :
  updateAllMatrixItems s = Ok false s' -> s' = s.
Proof.
  unfold updateAllMatrixItems, bind, get. intros H.
  now apply updateEach_false in H as [-> _].
Qed.

(** C9.  When [syncParallax] is called with [force] equal to [false] and
    the refresh of all matrix items reports no change, the call returns
    normally having only recorded the window height: the DOM is the same,
    nothing was added to the trace of style writes, moves, class changes
    and image loads, and the matrix is the same. *)
Theorem syncParallax_short_circuit (s : State) :
  let s0 := set_vars (with_windowHeight (Some (innerHeight (window s)))) s in
  (exists s1, updateAllMatrixItems s0 = Ok false s1) ->
  syncParallax (JBool false) s = Ok tt s0 /\
  dom s0 = dom s /\ trace s0 = trace s /\
  matrix (vars s0) = matrix (vars s).
Proof.
  intros s0 [s1 Hup].
  assert (s1 = s0) as -> by now apply updateAllMatrixItems_false.
  split; [|now repeat split].
  unfold syncParallax, bind, get, modify. fold s0. now rewrite Hup.
Qed.

Lemma syncParallax_short_circuit_witness :
  let s := Sample.synced "true" in
  syncParallax (JBool false) s
  = Ok tt (set_vars (with_windowHeight (Some (innerHeight (window s)))) s).
Proof.
  intros s. apply (syncParallax_short_circuit s).
  eexists. vm_compute. reflexivity.
Defined.

(** ** [scroll] adds to the trace *)

Lemma logged_logged (es es' : list Effect) (s : State) :
  logged es' (logged es s) = logged (es ++ es') s.
Proof. unfold logged, set_trace. simpl. now rewrite app_assoc. Qed.

Lemma logged_nil (s : State) : logged [] s = s.
Proof. destruct s. unfold logged, set_trace. simpl. now rewrite app_nil_r. Qed.

Lemma setStyle_logged (n : node) (prop : string) (v : css) (s : State) :
  setStyle n prop v s = Ok tt (logged [SetStyle n prop v] s).
Proof. reflexivity. Qed.

Lemma setTransform_logged (n : node) (v : css) (s : State) :
  setTransform n v s = Ok tt (logged (transform_writes n v) s).
Proof.
  unfold setTransform, bind. rewrite !setStyle_logged, !logged_logged.
  reflexivity.
Qed.

Lemma forEach_app {A} (f : A -> M unit) (l1 l2 : list A) (s : State) :
  forEach f (l1 ++ l2) s = bind (forEach f l1) (fun _ => forEach f l2) s.
Proof.
  revert s. induction l1 as [|x l1 IH]; intros s; simpl; [reflexivity|].
  unfold bind in *. destruct (f x s) as [[] s1|e s1]; [|reflexivity].
  apply IH.
Qed.

(** [scroll] reads the window height and the matrix and only adds to the
    trace. *)
Lemma scrollItem_logs (a : float) (it : MatrixItem) (s s' : State) :
  scrollItem a it s = Ok tt s' -> exists es, s' = logged es s.
Proof.
  unfold scrollItem, bind, get, deref.
  destruct (_ && _).
  - rewrite setTransform_logged. destruct (parallaxItem it); [|discriminate].
    unfold ret. rewrite setTransform_logged, logged_logged. intros [= <-]. eauto.
  - destruct (parallaxItem it); [|discriminate].
    unfold ret. rewrite setTransform_logged. intros [= <-]. eauto.
Qed.

Lemma forEach_scrollItem_logs (a : float) (l : list MatrixItem) (s s' : State) :
  forEach (scrollItem a) l s = Ok tt s' -> exists es, s' = logged es s.
Proof.
  revert s. induction l as [|it l IH]; intros s; simpl.
  - intros [= <-]. exists []. now rewrite logged_nil.
  - unfold bind. destruct (scrollItem a it s) as [[] s1|] eqn:H1; [|discriminate].
    intros H2. apply scrollItem_logs in H1 as [es1 ->].
    apply IH in H2 as [es2 ->]. rewrite logged_logged. eauto.
Qed.

Lemma scroll_enabled (arg : float) (s : State) :
  isParallaxEnabled s = true ->
  scroll arg s
  = forEach (scrollItem (or_num arg (page_scrollTop s))) (matrix (vars s)) s.
Proof. intros Hon. unfold scroll, bind, get. now rewrite Hon. Qed.

(** [scroll] up to and including the item [it] of the matrix. *)
Lemma scroll_reaches (arg : float) (s s1 : State) (pre post : list MatrixItem)
    (it : MatrixItem) :
  isParallaxEnabled s = true ->
  matrix (vars s) = pre ++ it :: post ->
  forEach (scrollItem (or_num arg (page_scrollTop s))) pre s = Ok tt s1 ->
  scroll arg s
  = bind (scrollItem (or_num arg (page_scrollTop s)) it)
      (fun _ => forEach (scrollItem (or_num arg (page_scrollTop s))) post) s1
  /\ windowHeight (vars s1) = windowHeight (vars s).
Proof.
  intros Hon Hm Hpre. rewrite scroll_enabled, Hm, forEach_app by assumption.
  unfold bind at 1. rewrite Hpre. split; [reflexivity|].
  apply forEach_scrollItem_logs in Hpre as [es ->]. reflexivity.
Qed.

(** ** C3: [destroy] *)

Lemma with_listeners_same (w : Window) : with_listeners (listeners w) w = w.
Proof. now destruct w. Qed.

Lemma filter_ne_absent {A} `{EqDecision A} (x : A) (l : list A) :
  x ∉ l -> filter (fun y => y ≠ x) l = l.
Proof.
  induction l as [|y l IH]; [reflexivity|]. intros Hx.
  rewrite not_elem_of_cons in Hx. destruct Hx as [Hxy Hxl].
  rewrite filter_cons_True by congruence. now rewrite IH.
Qed.

Lemma removeEventListener_absent (ev : eventType) (f : fn) (s : State) :
  (ev, f) ∉ listeners (window s) -> removeEventListener ev f s = Ok tt s.
Proof.
  intros Habs. unfold removeEventListener, modify, set_window.
  rewrite filter_ne_absent by assumption.
  rewrite with_listeners_same. now destruct s.
Qed.

Lemma destroy_when_destroyed (s : State) :
  darwin (vars s) = None ->
  (forall l, l ∈ module_listeners -> l ∉ listeners (window s)) ->
  destroy s = Ok tt s.
Proof.
  intros Hd Hl. unfold destroy, bind, get. rewrite Hd. unfold ret.
  rewrite !removeEventListener_absent; [reflexivity|..];
    apply Hl; unfold module_listeners; set_solver.
Qed.

Lemma destroy_result (s : State) :
  exists s1,
    destroy s = Ok tt s1 /\
    darwin (vars s1) = None /\
    listeners (window s1)
    = filter (fun l => l ≠ (EvIndexEdit EditReorder, FnHandleIndexEditReorder))
        (filter (fun l => l ≠ (EvIndexEdit EditDeleted, FnHandleIndexEditDeleted))
           (filter (fun l => l ≠ (EvIndexEdit EditDisabled, FnHandleIndexEditDisabled))
              (filter (fun l => l ≠ (EvIndexEdit EditEnabled, FnHandleIndexEditEnabled))
                 (filter (fun l => l ≠ (EvScroll, FnHandleScroll))
                    (listeners (window s)))))) /\
    dom s1 = dom s /\
    (tweakValues (collab s1) = tweakValues (collab s) /\
     tweakWatchers (collab s1) = tweakWatchers (collab s) /\
     resizeEndCallbacks (collab s1) = resizeEndCallbacks (collab s) /\
     darwins (collab s1)
     = match darwin (vars s) with
       | Some r => alter (with_destroyed true) r (darwins (collab s))
       | None => darwins (collab s)
       end) /\
    trace s1 = trace s /\
    timers (window s1) = timers (window s) /\
    frameRequests (window s1) = frameRequests (window s) /\
    matrix (vars s1) = matrix (vars s).
Proof.
  unfold destroy, bind, get.
  destruct (darwin (vars s)) as [d|] eqn:Hd; simpl;
    (eexists; split; [reflexivity|]); simpl; rewrite ?Hd; repeat split.
Qed.

(** C3 as the code has it.  [destroy] never throws, also when called a
    second time, and the second call changes nothing.  The first call calls
    [destroy()] on the mutation watcher the controller holds, on that one
    only, and drops the reference to it; whether the watcher then stops
    calling back is up to the mutation-observation service.  After the call
    none of the scroll and index-edit listeners that [bindListeners]
    registered is left on the window.  The watcher given to [Tweak.watch],
    the callback given to [resizeEnd], the pending timeouts and the pending
    animation-frame requests are not withdrawn: they are the same after
    [destroy] as before. *)
Theorem destroy_twice (s : State) :
  exists s1,
    destroy s = Ok tt s1 /\
    destroy s1 = Ok tt s1 /\
    darwin (vars s1) = None /\
    darwins (collab s1)
    = match darwin (vars s) with
      | Some r => alter (with_destroyed true) r (darwins (collab s))
      | None => darwins (collab s)
      end /\
    (forall l, l ∈ module_listeners -> l ∉ listeners (window s1)) /\
    tweakWatchers (collab s1) = tweakWatchers (collab s) /\
    resizeEndCallbacks (collab s1) = resizeEndCallbacks (collab s) /\
    timers (window s1) = timers (window s) /\
    frameRequests (window s1) = frameRequests (window s).
Proof.
  destruct (destroy_result s)
    as (s1 & Hrun & Hd & Hl & _ & (_ & Hw & Hr & Hds) & _ & Ht & Hf & _).
  assert (Hgone : forall l, l ∈ module_listeners -> l ∉ listeners (window s1)).
  { intros l Hin. rewrite Hl, !list_elem_of_filter.
    intros (H5 & H4 & H3 & H2 & H1 & _). unfold module_listeners in Hin.
    repeat (apply elem_of_cons in Hin as [Hin|Hin]; [congruence|]).
    now apply elem_of_nil in Hin. }
  exists s1. split; [exact Hrun|].
  split; [now apply destroy_when_destroyed|].
  repeat split; assumption.
Qed.

(** C3 as stated fails.  On the sample page, after a first frame and a
    scroll event, [destroy] is called twice.  [destroy()] has been called on
    the mutation watcher and the controller no longer holds it, but the
    watcher of [Tweak.watch], the [resizeEnd] callback, the scroll timeout
    and the frame request of the scroll loop are all still there; the next
    animation frame and a later tweak change both run the controller, which
    writes styles. *)
Lemma destroy_leaves_callbacks :
  let before := dispatchEvent EvScroll (Sample.synced "true") in
  let s := Sample.state_of (destroy (Sample.state_of (destroy before))) in
  Sample.thrown (destroy before) = None /\
  Sample.thrown (destroy (Sample.state_of (destroy before))) = None /\
  darwin (vars s) = None /\
  destroyed <$> darwins (collab s) = [true] /\
  map snd (tweakWatchers (collab s)) = [FnTweakWatcher] /\
  resizeEndCallbacks (collab s) = [FnSyncParallax] /\
  timers (window s) = [(1%nat, FnScrollEnd)] /\
  frameRequests (window s) = [FnScrollCallback] /\
  trace (animationFrame 32 s)
  = trace s
    ++ transform_writes Sample.slot
         [Str "translate3d("; Num (-1200); Str "px, 0, 0)"] /\
  length (trace (tweakChanged "tweak-site-width" JObj s))
  = (length (trace s) + 12)%nat.
Proof. vm_compute. repeat split. Qed.

(** ** What one step of the pass of [syncParallax] changes *)

Lemma bind_inv {A B} (m : M A) (k : A -> M B) (s s' : State) (b : B) :
  bind m k s = Ok b s' -> exists a s1, m s = Ok a s1 /\ k a s1 = Ok b s'.
Proof.
  unfold bind. destruct (m s) as [a s1|e s1]; [|discriminate]. eauto.
Qed.

Lemma keeps_core_ret {A} (a : A) : keeps_core (ret a).
Proof. intros s a' s' [= _ <-]. reflexivity. Qed.

Lemma keeps_core_bind {A B} (m : M A) (k : A -> M B) :
  keeps_core m -> (forall a, keeps_core (k a)) -> keeps_core (bind m k).
Proof.
  intros Hm Hk s b s' H. apply bind_inv in H as (a & s1 & H1 & H2).
  rewrite (Hk a s1 b s' H2). now apply (Hm s a).
Qed.

Lemma keeps_core_deref {A} (o : option A) : keeps_core (deref o).
Proof. destruct o; [apply keeps_core_ret|]. intros s a s' [=]. Qed.

Lemma keeps_core_emit (e : Effect) : keeps_core (emit e).
Proof. intros s a s' [= _ <-]. reflexivity. Qed.

Lemma keeps_core_setStyle (n : node) (prop : string) (v : css) :
  keeps_core (setStyle n prop v).
Proof. apply keeps_core_emit. Qed.

Lemma keeps_core_setTransform (n : node) (v : css) :
  keeps_core (setTransform n v).
Proof.
  unfold setTransform.
  repeat (apply keeps_core_bind; [apply keeps_core_setStyle|intros _]).
  apply keeps_core_setStyle.
Qed.

Lemma keeps_core_loadImage (m : node) : keeps_core (loadImage m).
Proof.
  intros s a s'. unfold loadImage, bind, get.
  match goal with |- context [match ?o with Some _ => _ | None => ret tt end] =>
    destruct o end.
  - apply keeps_core_emit.
  - apply keeps_core_ret.
Qed.

Lemma keeps_core_classList_add (n : node) (c : string) :
  keeps_core (classList_add n c).
Proof.
  intros s a s'. unfold classList_add, bind, modify, emit.
  intros [= _ <-]. unfold core. simpl.
  now destruct (classList_contains (dom s) n c).
Qed.

Create HintDb keeps.
Global Hint Resolve keeps_core_ret keeps_core_deref keeps_core_emit
  keeps_core_setStyle keeps_core_setTransform keeps_core_loadImage
  keeps_core_classList_add : keeps.

Ltac keeps_core :=
  repeat first
    [ solve [auto with keeps]
    | apply keeps_core_bind; [|intros ?]
    | match goal with
      | |- keeps_core (match ?o with Some _ => _ | None => _ end) => destruct o
      | |- keeps_core (if ?b then _ else _) => destruct b
      end ].

Lemma appendChild_inv (parent child : node) (s s' : State) :
  appendChild parent child s = Ok tt s' ->
  contains (dom s) child parent = false /\
  core s' = (<[child := parent]> (parentNode (dom s)), attribute (dom s), vars s).
Proof.
  unfold appendChild, bind, get.
  destruct (contains (dom s) child parent); [discriminate|].
  intros [= <-]. split; reflexivity.
Qed.

Lemma removeChild_inv (parent child : node) (s s' : State) :
  removeChild parent child s = Ok tt s' ->
  core s' = (delete child (parentNode (dom s)), attribute (dom s), vars s).
Proof. intros [= <-]. reflexivity. Qed.

Lemma setItem_inv (i : nat) (it : MatrixItem) (s s' : State) :
  setItem i it s = Ok tt s' ->
  parentNode (dom s') = parentNode (dom s) /\
  attribute (dom s') = attribute (dom s) /\
  dom s' = dom s /\
  vars s' = with_matrix (<[i := it]> (matrix (vars s))) (vars s).
Proof. intros [= <-]. repeat split. Qed.

Lemma querySelector_matches (d : Dom) (root : node) (sel : selector) (p : node) :
  querySelector d root sel = Some p -> matches d sel p = true.
Proof.
  unfold querySelector, querySelectorAll. intros H.
  apply head_Some_elem_of in H. apply list_elem_of_In, filter_In in H.
  tauto.
Qed.

Lemma slot_has_attribute (d : Dom) (root : node) (id : option string) (p : node) :
  querySelector d root (slot_selector id) = Some p ->
  hasAttribute d p "data-parallax-item" = true.
Proof.
  intros H. apply querySelector_matches in H. simpl in H.
  now apply andb_prop in H as [H _].
Qed.

(** With a plain id the element found is an overlay slot. *)
Lemma plain_slot_has_attribute (s : State) (h : node) (it : MatrixItem) (p : node) :
  plain (default "null"
           (getAttribute (dom s) (originalNode it) "data-parallax-id")) = true ->
  slot_of s h it = Some (Some p) ->
  hasAttribute (dom s) p "data-parallax-item" = true.
Proof.
  unfold slot_of, findSlot. intros -> [= H].
  eapply slot_has_attribute; eassumption.
Qed.

Lemma querySlot_inv (h : node) (id : option string) (s s' : State)
    (found : option node) :
  querySlot h id s = Ok found s' ->
  s' = s /\ findSlot (window s) (dom s) h id = Some found.
Proof.
  unfold querySlot, bind, get.
  destruct (findSlot (window s) (dom s) h id) as [f|]; [|discriminate].
  now intros [= <- <-].
Qed.

Tactic Notation "inv_bind" hyp(H) "as" ident(a) ident(s1) ident(H1) :=
  apply bind_inv in H as (a & s1 & H1 & H).

Ltac frame_in H :=
  match type of H with
  | ?m ?s = Ok _ _ =>
      let Hk := fresh "Hk" in
      assert (Hk : keeps_core m) by (cbv beta; keeps_core);
      exact (Hk _ _ _ H)
  end.

Lemma core_inv (s s' : State) :
  core s' = core s ->
  parentNode (dom s') = parentNode (dom s) /\
  attribute (dom s') = attribute (dom s) /\ vars s' = vars s.
Proof. unfold core. intros [= -> -> ->]. auto. Qed.

Lemma syncItem_outcome (host : option node) (i : nat) (s s' : State) (b : bool) :
  syncItem host i s = Ok b s' ->
  exists it,
    matrix (vars s) !! i = Some it /\
    attribute (dom s') = attribute (dom s) /\
    step_outcome s i it s' b.
Proof.
  unfold syncItem. intros H.
  inv_bind H as s0 s0' Hget. injection Hget as <- <-.
  inv_bind H as it0 s0 Hit0.
  destruct (matrix (vars s) !! i) as [it|] eqn:Hit; [|discriminate].
  injection Hit0 as <- <-. exists it. split; [reflexivity|].
  cbv zeta in H.
  destruct (contains (dom s) (element (vars s)) (originalNode it)) eqn:Hc;
    cbn [negb] in H.
  - (* the original node is still there *)
    inv_bind H as u2 s2 Hmode.
    assert (Htail : b = true /\ core s' = core s2).
    { inv_bind H as u3 s3 Hload. inv_bind H as u4 s4 Hadd.
      injection H as <- <-.
      apply keeps_core_loadImage in Hload.
      apply keeps_core_classList_add in Hadd.
      split; [reflexivity|]. congruence. }
    clear H. destruct Htail as [-> Htail].
    apply core_inv in Htail as (Hp3 & Ha3 & Hv3).
    destruct (isParallaxEnabled s) eqn:Hon.
    + inv_bind Hmode as found s1 Hmove.
      assert (Hrest : core s2 = core s1) by (frame_in Hmode).
      apply core_inv in Hrest as (Hp2 & Ha2 & Hv2).
      destruct (bool_decide _) eqn:Hchild in Hmove.
      * apply bool_decide_eq_true in Hchild.
        inv_bind Hmove as h sh Hhost. destruct host as [h'|]; [|discriminate].
        injection Hhost as <- <-.
        inv_bind Hmove as fnd sq Hq. apply querySlot_inv in Hq as [-> Hq].
        inv_bind Hmove as u5 s5 Hset. destruct u5.
        apply setItem_inv in Hset as (Hp1 & Ha1 & Hd1 & Hv1).
        inv_bind Hmove as p sp Hfound.
        destruct fnd as [p'|]; [|discriminate].
        injection Hfound as <- <-.
        inv_bind Hmove as u6 s6 Happ. destruct u6.
        apply appendChild_inv in Happ as [_ Hcore].
        injection Hmove as <- <-. unfold core in Hcore.
        injection Hcore as Hp0 Ha0 Hv0.
        split; [congruence|].
        apply (MovedToSlot s i it _ p'); try assumption.
        -- now exists h'.
        -- congruence.
        -- congruence.
      * apply bool_decide_eq_false in Hchild. injection Hmove as <- <-.
        destruct (parallaxItem it) as [p|] eqn:Hpi.
        -- split; [congruence|].
           apply (KeptInSlot s i it _ p); try assumption; congruence.
        -- exfalso. clear -Hmode. inv_bind Hmode as p sp Hp. discriminate.
    + inv_bind Hmode as u1 s1 Hmove.
      assert (Hrest : core s2 = core s1) by (frame_in Hmode).
      apply core_inv in Hrest as (Hp2 & Ha2 & Hv2).
      destruct (bool_decide _) eqn:Hchild in Hmove; cbn [negb] in Hmove.
      * apply bool_decide_eq_true in Hchild. injection Hmove as <-.
        split; [congruence|].
        apply KeptInOriginal; try assumption; congruence.
      * apply bool_decide_eq_false in Hchild. destruct u1.
        apply appendChild_inv in Hmove as [_ Hcore]. unfold core in Hcore.
        injection Hcore as Hp0 Ha0 Hv0.
        split; [congruence|].
        apply MovedBack; try assumption; congruence.
  - (* the original node is gone *)
    inv_bind H as h sh Hhost. destruct host as [h'|]; [|discriminate].
    injection Hhost as <- <-.
    inv_bind H as u1 s1 Hrem. injection H as <- <-. destruct u1.
    destruct (parallaxItem it) as [p|] eqn:Hpi.
    + destruct (bool_decide _) in Hrem.
      * apply removeChild_inv in Hrem. unfold core in Hrem.
        injection Hrem as Hp0 Ha0 Hv0.
        split; [assumption|]. apply Skipped; eauto.
      * injection Hrem as <-. split; [reflexivity|]. apply Skipped; auto.
    + injection Hrem as <-. split; [reflexivity|]. apply Skipped; auto.
Qed.

(** ** C2: where the media wrapper sits *)

Lemma key_inv (it it' : MatrixItem) :
  key it = key it' ->
  originalNode it = originalNode it' /\ mediaWrapper it = mediaWrapper it' /\
  parallaxItem it = parallaxItem it'.
Proof. unfold key. intros [= -> -> ->]. auto. Qed.

Lemma exactly_one_key (par : gmap node node) (it it' : MatrixItem) :
  key it = key it' -> exactly_one par it -> exactly_one par it'.
Proof.
  intros (Ho & Hw & Hp)%key_inv.
  unfold exactly_one, wrapper_in_original, wrapper_in_overlay.
  now rewrite Ho, Hw, Hp.
Qed.

Lemma elem_of_same_keys (items items' : list MatrixItem) (it' : MatrixItem) :
  key <$> items' = key <$> items -> it' ∈ items' ->
  exists it, it ∈ items /\ key it = key it'.
Proof.
  intros Hk Hin.
  assert (Hin' : key it' ∈ key <$> items).
  { rewrite <- Hk. now apply list_elem_of_fmap_2. }
  apply list_elem_of_fmap in Hin' as (it & Heq & Hit). eauto.
Qed.

Lemma tracked_same_keys (par : gmap node node) attr (items items' : list MatrixItem) :
  key <$> items' = key <$> items ->
  tracked par attr items -> tracked par attr items'.
Proof.
  intros Hk [Hd Ho Hsw Hso Hone]. split.
  - replace (mediaWrapper <$> items') with ((fun k => k.1.2) <$> (key <$> items')).
    + rewrite Hk, <- list_fmap_compose. exact Hd.
    + now rewrite <- list_fmap_compose.
  - intros it it' Hin Hin'.
    destruct (elem_of_same_keys _ _ _ Hk Hin) as (it0 & Hin0 & (_ & Hw & _)%key_inv).
    destruct (elem_of_same_keys _ _ _ Hk Hin') as (it1 & Hin1 & (_ & _ & Hp)%key_inv).
    rewrite <- Hw, <- Hp. now apply Ho.
  - intros it Hin.
    destruct (elem_of_same_keys _ _ _ Hk Hin) as (it0 & Hin0 & (_ & Hw & _)%key_inv).
    rewrite <- Hw. now apply Hsw.
  - intros it Hin.
    destruct (elem_of_same_keys _ _ _ Hk Hin) as (it0 & Hin0 & (Ho' & _ & _)%key_inv).
    rewrite <- Ho'. now apply Hso.
  - intros it Hin.
    destruct (elem_of_same_keys _ _ _ Hk Hin) as (it0 & Hin0 & Hkey).
    eapply exactly_one_key; eauto.
Qed.

Lemma exactly_one_other (par : gmap node node) (w x : node) (it : MatrixItem) :
  mediaWrapper it <> w ->
  exactly_one par it -> exactly_one (<[w := x]> par) it.
Proof.
  intros Hne. unfold exactly_one, wrapper_in_original, wrapper_in_overlay.
  now rewrite lookup_insert_ne by congruence.
Qed.

Lemma exactly_one_delete (par : gmap node node) (p : node) (it : MatrixItem) :
  mediaWrapper it <> p ->
  exactly_one par it -> exactly_one (delete p par) it.
Proof.
  intros Hne. unfold exactly_one, wrapper_in_original, wrapper_in_overlay.
  now rewrite lookup_delete_ne by congruence.
Qed.

Lemma same_wrapper_same_item (items : list MatrixItem) (i : nat) (it it0 : MatrixItem) :
  NoDup (mediaWrapper <$> items) ->
  items !! i = Some it -> it0 ∈ items ->
  mediaWrapper it0 = mediaWrapper it -> it0 = it.
Proof.
  intros Hd Hi Hin Hw. apply list_elem_of_lookup in Hin as [j Hj].
  assert (i = j) as ->; [|congruence].
  eapply NoDup_lookup; [exact Hd| |].
  - rewrite list_lookup_fmap, Hi. reflexivity.
  - rewrite list_lookup_fmap, Hj. simpl. now rewrite Hw.
Qed.

Lemma exactly_one_not_original (par : gmap node node) (it : MatrixItem) :
  exactly_one par it -> parallaxItem it <> Some (originalNode it).
Proof.
  unfold exactly_one, wrapper_in_original, wrapper_in_overlay.
  intros [[Ho Hn]|[Hn (p & Hp & Hw)]] Heq.
  - apply Hn. eauto.
  - apply Hn. congruence.
Qed.

(** The wrapper goes back under the original node. *)
Lemma tracked_moved_back (par : gmap node node) attr (items : list MatrixItem)
    (i : nat) (it : MatrixItem) :
  items !! i = Some it ->
  tracked par attr items ->
  tracked (<[mediaWrapper it := originalNode it]> par) attr items.
Proof.
  intros Hi [Hd Ho Hsw Hso Hone]. split; try assumption.
  intros it0 Hin.
  destruct (decide (mediaWrapper it0 = mediaWrapper it)) as [Heq|Hne].
  - assert (it0 = it) as -> by (eapply same_wrapper_same_item; eauto).
    left. unfold wrapper_in_original, wrapper_in_overlay.
    rewrite lookup_insert_eq. split; [reflexivity|].
    intros (p & Hp & [= <-]).
    now apply (exactly_one_not_original par it (Hone _ Hin)).
  - apply exactly_one_other; auto.
Qed.

(** A detached overlay node is no wrapper's parent. *)
Lemma tracked_removed (par : gmap node node) attr (items : list MatrixItem)
    (i : nat) (it : MatrixItem) (p : node) :
  items !! i = Some it -> parallaxItem it = Some p ->
  tracked par attr items -> tracked (delete p par) attr items.
Proof.
  intros Hi Hp [Hd Ho Hsw Hso Hone]. split; try assumption.
  intros it0 Hin. apply exactly_one_delete; [|auto].
  intros Heq. apply (Ho it0 it); [assumption| |congruence].
  eapply list_elem_of_lookup_2; eauto.
Qed.

Lemma elem_of_insert_overlay (items : list MatrixItem) (i : nat)
    (it it0 : MatrixItem) (p : node) :
  items !! i = Some it ->
  it0 ∈ <[i := with_parallaxItem (Some p) it]> items ->
  it0 = with_parallaxItem (Some p) it \/
  (exists j, j <> i /\ items !! j = Some it0).
Proof.
  intros Hi Hin. apply list_elem_of_lookup in Hin as [j Hj].
  destruct (decide (j = i)) as [->|Hne].
  - left. rewrite list_lookup_insert_eq in Hj by (eapply lookup_lt_Some; eauto).
    congruence.
  - right. exists j. rewrite list_lookup_insert_ne in Hj by congruence. auto.
Qed.

(** The wrapper goes under an overlay slot, which is recorded. *)
Lemma tracked_moved_to_slot (par : gmap node node) attr (items : list MatrixItem)
    (i : nat) (it : MatrixItem) (p : node) :
  items !! i = Some it ->
  is_Some (attr !! (p, "data-parallax-item"%string)) ->
  tracked par attr items ->
  tracked (<[mediaWrapper it := p]> par) attr
    (<[i := with_parallaxItem (Some p) it]> items).
Proof.
  intros Hi Hslot [Hd Ho Hsw Hso Hone].
  assert (Hit : it ∈ items) by (eapply list_elem_of_lookup_2; eauto).
  assert (Hfields : forall it0,
    it0 ∈ <[i := with_parallaxItem (Some p) it]> items ->
    exists it1, it1 ∈ items /\ originalNode it0 = originalNode it1 /\
                mediaWrapper it0 = mediaWrapper it1 /\
                (parallaxItem it0 = parallaxItem it1 \/ parallaxItem it0 = Some p)).
  { intros it0 Hin.
    destruct (elem_of_insert_overlay _ _ _ _ _ Hi Hin) as [->|(j & _ & Hj)].
    - exists it. simpl. auto.
    - exists it0. split; [eapply list_elem_of_lookup_2; eauto|auto]. }
  assert (Hnot : forall n, not_slot attr n -> n <> p).
  { intros n Hn ->. unfold not_slot in Hn. rewrite Hn in Hslot.
    now destruct Hslot. }
  split.
  - rewrite list_fmap_insert. simpl.
    rewrite list_insert_id; [exact Hd|]. now rewrite list_lookup_fmap, Hi.
  - intros it0 it0' Hin Hin'.
    destruct (Hfields _ Hin) as (it1 & Hin1 & _ & Hw & _).
    destruct (Hfields _ Hin') as (it1' & Hin1' & _ & _ & [Hp|Hp]);
      rewrite Hw, Hp.
    + now apply Ho.
    + intros [= Heq]. now apply (Hnot (mediaWrapper it1)); [apply Hsw|].
  - intros it0 Hin. destruct (Hfields _ Hin) as (it1 & Hin1 & _ & Hw & _).
    rewrite Hw. now apply Hsw.
  - intros it0 Hin. destruct (Hfields _ Hin) as (it1 & Hin1 & Ho' & _).
    rewrite Ho'. now apply Hso.
  - intros it0 Hin.
    destruct (elem_of_insert_overlay _ _ _ _ _ Hi Hin) as [->|(j & Hne & Hj)].
    + right. unfold wrapper_in_original, wrapper_in_overlay. simpl.
      rewrite lookup_insert_eq. split.
      * intros [= Heq]. now apply (Hnot (originalNode it)); [apply Hso|].
      * eauto.
    + apply exactly_one_other.
      * intros Heq. apply Hne. eapply NoDup_lookup; [exact Hd| |].
        -- rewrite list_lookup_fmap, Hj. reflexivity.
        -- rewrite list_lookup_fmap, Hi. simpl. now rewrite Heq.
      * apply Hone. eapply list_elem_of_lookup_2; eauto.
Qed.

Lemma hasAttribute_true (d : Dom) (n : node) (a : string) :
  hasAttribute d n a = true -> is_Some (attribute d !! (n, a)).
Proof. unfold hasAttribute, getAttribute. apply bool_decide_eq_true. Qed.

Lemma plain_ids_same_originals (s s' : State) :
  attribute (dom s') = attribute (dom s) ->
  originalNode <$> matrix (vars s') = originalNode <$> matrix (vars s) ->
  plain_ids s -> plain_ids s'.
Proof.
  intros Ha Ho Hpl it' Hin.
  assert (Hin' : originalNode it' ∈ originalNode <$> matrix (vars s)).
  { rewrite <- Ho. now apply list_elem_of_fmap_2. }
  apply list_elem_of_fmap in Hin' as (it & Heq & Hit).
  unfold getAttribute. rewrite Ha, Heq. now apply Hpl.
Qed.

Lemma syncItem_same_originals (host : option node) (i : nat) (s s' : State) (b : bool) :
  syncItem host i s = Ok b s' ->
  originalNode <$> matrix (vars s') = originalNode <$> matrix (vars s).
Proof.
  intros (it & Hi & _ & Hout)%syncItem_outcome.
  destruct Hout as [_ Hv _ | p _ _ _ Hv _ | p _ _ _ Hv _ | _ _ Hv _ | _ _ Hv _];
    rewrite Hv; try reflexivity.
  simpl. rewrite list_fmap_insert. apply list_insert_id.
  now rewrite list_lookup_fmap, Hi.
Qed.

Lemma syncItem_tracking (host : option node) (i : nat) (s s' : State) (b : bool) :
  syncItem host i s = Ok b s' ->
  tracking_ok s /\ plain_ids s -> tracking_ok s' /\ plain_ids s'.
Proof.
  intros Hrun [Hok Hpl]. split.
  2:{ pose proof (syncItem_same_originals _ _ _ _ _ Hrun) as Ho.
      apply syncItem_outcome in Hrun as (it & _ & Ha & _).
      eapply plain_ids_same_originals; eauto. }
  apply syncItem_outcome in Hrun as (it & Hi & Ha & Hout).
  assert (Hplain := Hpl it (list_elem_of_lookup_2 _ _ _ Hi)).
  unfold tracking_ok in *. rewrite Ha.
  destruct Hout as [Hc Hv [Hp|(p & Hpi & Hp)] | p Hon Hch [h Hslot] Hv Hp
                   | p Hon Hch Hpi Hv Hp | Hon Hch Hv Hp | Hon Hch Hv Hp];
    rewrite Hv, Hp; simpl.
  - assumption.
  - eapply tracked_removed; eauto.
  - apply tracked_moved_to_slot; auto.
    eapply hasAttribute_true, plain_slot_has_attribute; eassumption.
  - assumption.
  - eapply tracked_moved_back; eauto.
  - assumption.
Qed.

Lemma filterM_syncItem_tracking (host : option node) (l r : list nat) (s s' : State) :
  filterM (syncItem host) l s = Ok r s' ->
  tracking_ok s /\ plain_ids s -> tracking_ok s' /\ plain_ids s'.
Proof.
  revert r s. induction l as [|i l IH]; intros r s; simpl.
  - now intros [= _ <-].
  - intros H Hok. inv_bind H as keep s1 Hstep. inv_bind H as rest s2 Hrest.
    injection H as _ <-.
    eapply IH; [exact Hrest|]. eapply syncItem_tracking; eauto.
Qed.

Lemma updateMatrixItem_keys (i : nat) (s s' : State) (b : bool) :
  updateMatrixItem i s = Ok b s' ->
  dom s' = dom s /\ key <$> matrix (vars s') = key <$> matrix (vars s).
Proof.
  unfold updateMatrixItem, setItem. unfold_M.
  destruct (matrix (vars s) !! i) as [it|] eqn:Hi; [|discriminate].
  cbv zeta. destruct (_ || _).
  - intros [= _ <-]. simpl. split; [reflexivity|].
    rewrite list_fmap_insert. apply list_insert_id.
    now rewrite list_lookup_fmap, Hi.
  - now intros [= _ <-].
Qed.

Lemma updateEach_keys (l : list nat) (acc b : bool) (s s' : State) :
  updateEach l acc s = Ok b s' ->
  dom s' = dom s /\ key <$> matrix (vars s') = key <$> matrix (vars s).
Proof.
  revert acc s. induction l as [|i l IH]; intros acc s; simpl.
  - now intros [= _ <-].
  - intros H. inv_bind H as u s1 Hu.
    apply updateMatrixItem_keys in Hu as [Hd Hk].
    apply IH in H as [Hd' Hk']. split; congruence.
Qed.

Lemma scroll_logs (arg : float) (s s' : State) :
  scroll arg s = Ok tt s' -> exists es, s' = logged es s.
Proof.
  unfold scroll, bind at 1, get. destruct (isParallaxEnabled s); cbn [negb].
  - apply forEach_scrollItem_logs.
  - intros [= <-]. exists []. now rewrite logged_nil.
Qed.

(** [syncParallax] keeps the tracking well formed, whichever way it
    returns. *)
Lemma syncParallax_tracking (force : jsval) (s s' : State) :
  tracking_ok s /\ plain_ids s -> syncParallax force s = Ok tt s' ->
  tracking_ok s' /\ plain_ids s'.
Proof.
  intros [Hok Hpl] H. unfold syncParallax in H.
  inv_bind H as s0 s0' Hget. injection Hget as <- <-.
  cbv zeta in H. inv_bind H as u1 s1 Hwh. injection Hwh as _ <-.
  inv_bind H as hasUpdated s2 Hup.
  unfold updateAllMatrixItems in Hup. inv_bind Hup as s1' s1'' Hget.
  injection Hget as <- <-. apply updateEach_keys in Hup as [Hd Hk].
  assert (Hok2 : tracking_ok s2 /\ plain_ids s2).
  { split.
    - unfold tracking_ok in *. rewrite Hd. simpl.
      eapply tracked_same_keys; [exact Hk|exact Hok].
    - apply (plain_ids_same_originals s); [now rewrite Hd| |exact Hpl].
      change (originalNode <$> matrix (vars s2))
        with ((fun k => k.1.1) ∘ key <$> matrix (vars s2)).
      rewrite list_fmap_compose, Hk, <- list_fmap_compose. reflexivity. }
  destruct (negb hasUpdated && strict_eq_false force).
  - now injection H as <-.
  - unfold syncPass in H. inv_bind H as s3 s3' Hget. injection Hget as <- <-.
    inv_bind H as kept s4 Hpass. inv_bind H as s5 s5' Hget.
    injection Hget as <- <-.
    apply filterM_syncItem_tracking in Hpass; [|exact Hok2].
    destruct (isParallaxEnabled s4).
    + apply scroll_logs in H as [es ->]. exact Hpass.
    + now injection H as <-.
Qed.

(** C2 as the code has it.  Suppose that, before the call, the tracked
    items have pairwise distinct media wrappers, that no media wrapper and
    no original node is an overlay slot (none carries [data-parallax-item]
    and no wrapper is recorded as an item's overlay node), that every
    tracked item has its wrapper either under its original node or under its
    recorded overlay node, and not both, and that the [data-parallax-id] of
    every original node (or ["null"], when it has none) is plain: it has no
    double quote, backslash, line break or null character, so that the
    selector the code builds from it asks for that id.  Then after any call
    of [syncParallax] that returns, all of this still holds: every item of
    the matrix has its wrapper under exactly one of the two. *)
Theorem syncParallax_keeps_exactly_one (force : jsval) (s s' : State) :
  NoDup (mediaWrapper <$> matrix (vars s)) ->
  (forall it it', it ∈ matrix (vars s) -> it' ∈ matrix (vars s) ->
                  parallaxItem it' <> Some (mediaWrapper it)) ->
  (forall it, it ∈ matrix (vars s) ->
              hasAttribute (dom s) (mediaWrapper it) "data-parallax-item" = false /\
              hasAttribute (dom s) (originalNode it) "data-parallax-item" = false) ->
  (forall it, it ∈ matrix (vars s) -> exactly_one (parentNode (dom s)) it) ->
  (forall it, it ∈ matrix (vars s) ->
     plain (default "null"
              (getAttribute (dom s) (originalNode it) "data-parallax-id")) = true) ->
  syncParallax force s = Ok tt s' ->
  (tracking_ok s' /\ plain_ids s') /\
  forall it, it ∈ matrix (vars s') -> exactly_one (parentNode (dom s')) it.
Proof.
  intros Hd Ho Hs Hone Hpl Hrun.
  assert (Hok : tracking_ok s).
  { split; try assumption; intros it Hin; destruct (Hs it Hin) as [Hw Hor];
      unfold not_slot; apply eq_None_not_Some; intros Hsome.
    - apply (bool_decide_eq_false_1 _ Hw). exact Hsome.
    - apply (bool_decide_eq_false_1 _ Hor). exact Hsome. }
  pose proof (syncParallax_tracking force s s' (conj Hok Hpl) Hrun) as Hok'.
  split; [exact Hok'|]. apply Hok'.
Qed.

Lemma syncParallax_keeps_exactly_one_witness :
  let s := Sample.constructed "true" in
  exists s',
    syncParallax JUndefined s = Ok tt s' /\
    mediaWrapper <$> matrix (vars s') = [Sample.wrapper] /\
    parallaxItem <$> matrix (vars s') = [Some Sample.slot] /\
    parentNode (dom s') !! Sample.wrapper = Some Sample.slot /\
    forall it, it ∈ matrix (vars s') -> exactly_one (parentNode (dom s')) it.
Proof.
  intros s.
  pose (it0 := {| originalNode := Sample.original;
                  mediaWrapper := Sample.wrapper; mediaElement := Sample.img;
                  focalPoint := 0.5; parallaxItem := None; top := None;
                  right := None; bottom := None; left := None; width := None;
                  height := None |}).
  assert (Hm : matrix (vars s) = [it0]) by (vm_compute; reflexivity).
  exists (Sample.state_of (syncParallax JUndefined s)).
  assert (Hrun : syncParallax JUndefined s
                 = Ok tt (Sample.state_of (syncParallax JUndefined s)))
    by (vm_compute; reflexivity).
  split; [exact Hrun|].
  split; [vm_compute; reflexivity|].
  split; [vm_compute; reflexivity|].
  split; [vm_compute; reflexivity|].
  apply (syncParallax_keeps_exactly_one JUndefined s _); [..|exact Hrun];
    rewrite ?Hm.
  - apply NoDup_singleton.
  - intros it it' _ ->%list_elem_of_singleton. discriminate.
  - intros it ->%list_elem_of_singleton. split; vm_compute; reflexivity.
  - intros it ->%list_elem_of_singleton. left. split.
    + vm_compute. reflexivity.
    + intros (p & Hp & _). discriminate.
  - intros it ->%list_elem_of_singleton. vm_compute. reflexivity.
Defined.

(** C2 as stated fails.  On a page where one original node lies inside
    another, both items find the same wrapper.  With parallax disabled the
    first [syncParallax] completes its pass (it moves the wrapper under the
    outer node, then under the inner one) and leaves the outer item with its
    wrapper neither under its original node nor under an overlay node. *)
Lemma shared_wrapper_in_neither_place :
  let s := Sample.state_of
             (Parallax Sample.noParse Sample.section
                (Sample.fresh Sample.nested_page "false")) in
  let r := syncParallax (JNum 16) s in
  let s' := Sample.state_of r in
  Sample.thrown r = None /\
  List.filter (fun e => match e with AppendChild _ _ => true | _ => false end)
    (trace s')
  = [AppendChild Sample.outer Sample.wrapper;
     AppendChild Sample.inner Sample.wrapper] /\
  exists it rest,
    matrix (vars s') = it :: rest /\
    originalNode it = Sample.outer /\
    mediaWrapper it = Sample.wrapper /\
    parallaxItem it = None /\
    parentNode (dom s') !! Sample.wrapper = Some Sample.inner /\
    ~ exactly_one (parentNode (dom s')) it.
Proof.
  intros s r s'.
  split; [vm_compute; reflexivity|].
  split; [vm_compute; reflexivity|].
  assert (Hp : parentNode (dom s') !! Sample.wrapper = Some Sample.inner)
    by (vm_compute; reflexivity).
  eexists _, _. split; [vm_compute; reflexivity|]. cbn [originalNode mediaWrapper parallaxItem].
  do 3 (split; [reflexivity|]). split; [exact Hp|].
  unfold exactly_one, wrapper_in_original, wrapper_in_overlay.
  cbn [originalNode mediaWrapper parallaxItem].
  intros [[Hin _]|[_ (p & [=] & _)]].
  change (parentNode (dom s') !! Sample.wrapper = Some Sample.outer) in Hin.
  rewrite Hp in Hin. discriminate.
Qed.

(** The ids have to be plain.  On a page whose original node lies below
    the overlay host and carries an id that ends the string of the selector
    early, the selector matches the original node itself: a first
    [syncParallax] that returns records the original node as the overlay
    node of the item, and the wrapper is then in both of its places. *)
Lemma spliced_id_in_both_places :
  let s := Sample.state_of
             (Parallax Sample.noParse Sample.section Sample.hosted_fresh) in
  let r := syncParallax (JNum 16) s in
  let s' := Sample.state_of r in
  getAttribute (dom s) Sample.original "data-parallax-id"
  = Some Sample.crafted_id /\
  plain Sample.crafted_id = false /\
  Sample.thrown r = None /\
  exists it,
    matrix (vars s') = [it] /\
    originalNode it = Sample.original /\
    mediaWrapper it = Sample.wrapper /\
    parallaxItem it = Some Sample.original /\
    parentNode (dom s') !! Sample.wrapper = Some Sample.original /\
    ~ exactly_one (parentNode (dom s')) it.
Proof.
  intros s r s'.
  split; [vm_compute; reflexivity|]. split; [vm_compute; reflexivity|].
  split; [vm_compute; reflexivity|].
  assert (Hp : parentNode (dom s') !! Sample.wrapper = Some Sample.original)
    by (vm_compute; reflexivity).
  eexists. split; [vm_compute; reflexivity|].
  cbn [originalNode mediaWrapper parallaxItem].
  do 3 (split; [reflexivity|]). split; [exact Hp|].
  unfold exactly_one, wrapper_in_original, wrapper_in_overlay.
  cbn [originalNode mediaWrapper parallaxItem].
  intros [[_ Hn]|[Hn _]]; apply Hn; eauto.
Qed.

(** ** C1: an item whose original node has left the document *)

Lemma filterM_syncItem_same_originals (host : option node) (l r : list nat)
    (s s' : State) :
  filterM (syncItem host) l s = Ok r s' ->
  originalNode <$> matrix (vars s') = originalNode <$> matrix (vars s).
Proof.
  revert r s. induction l as [|i l IH]; intros r s; simpl.
  - now intros [= _ <-].
  - intros H. inv_bind H as keep s1 Hstep. inv_bind H as rest s2 Hrest.
    injection H as _ <-. apply IH in Hrest.
    apply syncItem_same_originals in Hstep. congruence.
Qed.

(** X1.  The array [filter] returns is dropped: a call of [syncParallax] that
    returns leaves the matrix with the same original nodes, in the same
    order, as before, whether they are still in the document or not. *)
Lemma syncParallax_same_originals (force : jsval) (s s' : State) :
  syncParallax force s = Ok tt s' ->
  originalNode <$> matrix (vars s') = originalNode <$> matrix (vars s).
Proof.
  intros H. unfold syncParallax in H.
  inv_bind H as s0 s0' Hget. injection Hget as <- <-.
  cbv zeta in H. inv_bind H as u1 s1 Hwh. injection Hwh as _ <-.
  inv_bind H as hasUpdated s2 Hup.
  unfold updateAllMatrixItems in Hup. inv_bind Hup as s1' s1'' Hget.
  injection Hget as <- <-. apply updateEach_keys in Hup as [_ Hk].
  assert (Hk' : originalNode <$> matrix (vars s2) = originalNode <$> matrix (vars s)).
  { change (originalNode <$> matrix (vars s2))
      with ((fun k => k.1.1) ∘ key <$> matrix (vars s2)).
    rewrite list_fmap_compose, Hk, <- list_fmap_compose. reflexivity. }
  destruct (negb hasUpdated && strict_eq_false force).
  - now injection H as <-.
  - unfold syncPass in H. inv_bind H as s3 s3' Hget. injection Hget as <- <-.
    inv_bind H as kept s4 Hpass. inv_bind H as s5 s5' Hget.
    injection Hget as <- <-.
    apply filterM_syncItem_same_originals in Hpass.
    destruct (isParallaxEnabled s4).
    + apply scroll_logs in H as [es ->]. simpl. congruence.
    + injection H as <-. congruence.
Qed.

Lemma syncParallax_same_originals_witness :
  let s := Sample.original_removed (Sample.synced "true") in
  let s' := Sample.state_of (syncParallax (JBool true) s) in
  syncParallax (JBool true) s = Ok tt s' /\
  originalNode <$> matrix (vars s') = originalNode <$> matrix (vars s).
Proof.
  intros s s'.
  assert (Hrun : syncParallax (JBool true) s = Ok tt s')
    by (vm_compute; reflexivity).
  split; [exact Hrun|].
  exact (syncParallax_same_originals (JBool true) s s' Hrun).
Defined.

(** C1 at a failing input.  On the sample page, synchronized with parallax
    enabled, the original node is taken out of the document and
    [syncParallax(true)] runs (as the index-edit "deleted" handler does).
    The call detaches the overlay node from the host, as it should, but the
    item is still in the matrix afterwards, and both the [scroll] at the end
    of that call and a later [scroll] write a transform to its overlay
    node. *)
Lemma syncParallax_keeps_removed_item :
  let s := Sample.original_removed (Sample.synced "true") in
  let r := syncParallax (JBool true) s in
  let s' := Sample.state_of r in
  contains (dom s) (element (vars s)) Sample.original = false /\
  Sample.thrown r = None /\
  parentNode (dom s) !! Sample.slot = Some Sample.host /\
  parentNode (dom s') !! Sample.slot = None /\
  originalNode <$> matrix (vars s') = [Sample.original] /\
  skipn (length (trace s)) (trace s')
  = RemoveChild Sample.host Sample.slot
    :: transform_writes Sample.slot
         [Str "translate3d("; Num (-0); Str "px, 0, 0)"] /\
  scroll 100 s'
  = Ok tt (logged
             (transform_writes Sample.slot
                [Str "translate3d("; Num (-0); Str "px, 0, 0)"]) s').
Proof. vm_compute. repeat split. Qed.

(** ** C4: which operations throw *)

Lemma bind_inv_throw {A B} (m : M A) (k : A -> M B) (s s' : State) (e : exn) :
  bind m k s = Throw e s' ->
  m s = Throw e s' \/ exists a s1, m s = Ok a s1 /\ k a s1 = Throw e s'.
Proof.
  unfold bind. destruct (m s) as [a s1|e1 s1]; [eauto|]. intros [= -> ->]. auto.
Qed.

Lemma never_throws_ret {A} (a : A) : never_throws (ret a).
Proof. intros s e s' [=]. Qed.

Lemma never_throws_modify (f : State -> State) : never_throws (modify f).
Proof. intros s e s' [=]. Qed.

Lemma never_throws_bind {A B} (m : M A) (k : A -> M B) :
  never_throws m -> (forall a, never_throws (k a)) -> never_throws (bind m k).
Proof.
  intros Hm Hk s e s' [H|(a & s1 & _ & H)]%bind_inv_throw.
  - now apply Hm in H.
  - now apply Hk in H.
Qed.

Lemma never_throws_emit (e : Effect) : never_throws (emit e).
Proof. apply never_throws_modify. Qed.

Lemma never_throws_setStyle (n : node) (prop : string) (v : css) :
  never_throws (setStyle n prop v).
Proof. apply never_throws_modify. Qed.

Lemma never_throws_setTransform (n : node) (v : css) :
  never_throws (setTransform n v).
Proof.
  unfold setTransform.
  repeat (apply never_throws_bind; [apply never_throws_setStyle|intros _]).
  apply never_throws_setStyle.
Qed.

Lemma never_throws_loadImage (m : node) : never_throws (loadImage m).
Proof.
  intros s e s'. unfold loadImage, bind, get.
  match goal with |- context [match ?o with Some _ => _ | None => ret tt end] =>
    destruct o end.
  - apply never_throws_emit.
  - apply never_throws_ret.
Qed.

Lemma never_throws_classList_add (n : node) (c : string) :
  never_throws (classList_add n c).
Proof.
  unfold classList_add. apply never_throws_bind; [|intros _].
  - apply never_throws_modify.
  - apply never_throws_emit.
Qed.

Lemma never_throws_setItem (i : nat) (it : MatrixItem) :
  never_throws (setItem i it).
Proof. apply never_throws_modify. Qed.

Lemma never_throws_removeChild (parent child : node) :
  never_throws (removeChild parent child).
Proof.
  unfold removeChild. apply never_throws_bind; [|intros _].
  - apply never_throws_modify.
  - apply never_throws_emit.
Qed.

Create HintDb safe.
Global Hint Resolve never_throws_ret never_throws_modify never_throws_emit
  never_throws_setStyle never_throws_setTransform never_throws_loadImage
  never_throws_classList_add never_throws_setItem never_throws_removeChild
  : safe.

Ltac never_throws :=
  repeat first
    [ solve [auto with safe]
    | apply never_throws_bind; [|intros ?]
    | match goal with
      | |- never_throws (match ?o with Some _ => _ | None => _ end) => destruct o
      | |- never_throws (if ?b then _ else _) => destruct b
      end ].

(** [H] says that a computation which cannot throw has thrown. *)
Ltac absurd_throw H :=
  match type of H with
  | ?m ?s = Throw _ _ =>
      let Hk := fresh "Hk" in
      assert (Hk : never_throws m) by (cbv beta; never_throws);
      exact (False_ind _ (Hk _ _ _ H))
  end.

Tactic Notation "inv_throw" hyp(H) "as" ident(a) ident(s1) ident(H1) :=
  apply bind_inv_throw in H as [H|(a & s1 & H1 & H)].

Lemma syncItem_throws_fault (host : option node) (i : nat) (s s' : State)
    (it : MatrixItem) (e : exn) :
  matrix (vars s) !! i = Some it ->
  syncItem host i s = Throw e s' -> step_fault host s it e.
Proof.
  intros Hi H. unfold syncItem in H.
  inv_throw H as s0 s0' Hget; [discriminate|]. injection Hget as <- <-.
  rewrite Hi in H. inv_throw H as it0 s0 Hit0; [discriminate|].
  injection Hit0 as <- <-. cbv zeta in H.
  destruct (contains (dom s) (element (vars s)) (originalNode it)) eqn:Hc;
    cbn [negb] in H.
  - inv_throw H as u2 s2 Hmode; [|absurd_throw H].
    destruct (isParallaxEnabled s) eqn:Hon.
    + inv_throw H as found s1 Hmove.
      * destruct (bool_decide _) eqn:Hchild in H; [|discriminate].
        apply bool_decide_eq_true in Hchild.
        inv_throw H as h sh Hhost.
        { destruct host; [discriminate|]. injection H as <- <-.
          now apply NoHostToSearch. }
        destruct host as [h'|]; [|discriminate]. injection Hhost as <- <-.
        inv_throw H as fnd sq Hq.
        { unfold querySlot, bind, get in H.
          destruct (findSlot _ _ _ _) eqn:Hq in H; [discriminate|].
          injection H as <- <-. now apply (NoSelector _ _ _ h'). }
        apply querySlot_inv in Hq as [-> Hq].
        inv_throw H as u5 s5 Hset; [absurd_throw H|]. destruct u5.
        apply setItem_inv in Hset as (_ & _ & Hd & _).
        inv_throw H as p sp Hfound.
        { destruct fnd; [discriminate|].
          injection H as <- <-. now apply (NoMatchingSlot _ _ _ h'). }
        destruct fnd as [p'|]; [|discriminate].
        injection Hfound as <- <-.
        inv_throw H as u6 s6 Happ; [|discriminate].
        unfold appendChild, bind, get in H. rewrite Hd in H.
        destruct (contains (dom s) (mediaWrapper it) p') eqn:Hin;
          [|discriminate].
        injection H as <- <-. now apply (SlotInsideWrapper _ _ _ h' p').
      * destruct (bool_decide _) eqn:Hchild in Hmove.
        { (* the wrapper was moved; the rest cannot throw *)
          inv_throw H as p sp Hp; [|absurd_throw H].
          exfalso. clear -Hmove H.
          inv_bind Hmove as h sh Hhost. inv_bind Hmove as fnd sq Hq.
          inv_bind Hmove as u5 s5 Hset.
          inv_bind Hmove as p sp Hfound. inv_bind Hmove as u6 s6 Happ.
          injection Hmove as <- <-.
          destruct fnd; discriminate. }
        apply bool_decide_eq_false in Hchild. injection Hmove as <- <-.
        inv_throw H as p sp Hp; [|absurd_throw H].
        destruct (parallaxItem it) eqn:Hpi; [discriminate|].
        injection H as <- <-. now apply NoOverlayRecorded.
    + inv_throw H as u1 s1 Hmove; [|absurd_throw H].
      destruct (bool_decide _) eqn:Hchild in H; cbn [negb] in H;
        [discriminate|].
      apply bool_decide_eq_false in Hchild.
      unfold appendChild, bind, get in H.
      destruct (contains (dom s) (mediaWrapper it) (originalNode it)) eqn:Hin;
        [|discriminate].
      injection H as <- <-. now apply OriginalInsideWrapper.
  - inv_throw H as h sh Hhost.
    + destruct host; [discriminate|]. injection H as <- <-.
      now apply NoHostToDetachFrom.
    + absurd_throw H.
Qed.

Lemma step_fault_throws (host : option node) (i : nat) (s : State)
    (it : MatrixItem) (e : exn) :
  matrix (vars s) !! i = Some it ->
  step_fault host s it e -> exists s', syncItem host i s = Throw e s'.
Proof.
  intros Hi Hf. unfold syncItem, querySlot, bind, get, deref. rewrite Hi.
  unfold ret. cbv zeta.
  destruct Hf as [Hc -> | Hc Hon Hch -> | h Hc Hon Hch -> Hq
                 | h Hc Hon Hch -> Hq
                 | h p Hc Hon Hch -> Hq Hin | Hc Hon Hch Hpi | Hc Hon Hch Hin];
    rewrite Hc; cbn [negb]; rewrite ?Hon; try unfold slot_of in Hq.
  - unfold throw. eauto.
  - rewrite bool_decide_eq_true_2 by assumption. unfold throw. eauto.
  - rewrite bool_decide_eq_true_2 by assumption. rewrite Hq.
    unfold setItem, modify, throw. eauto.
  - rewrite bool_decide_eq_true_2 by assumption. rewrite Hq.
    unfold throw. eauto.
  - rewrite bool_decide_eq_true_2 by assumption. rewrite Hq.
    unfold setItem, modify, appendChild, bind, get. simpl. rewrite Hin.
    unfold throw. eauto.
  - rewrite bool_decide_eq_false_2 by assumption. rewrite Hpi.
    unfold throw. eauto.
  - rewrite bool_decide_eq_false_2 by assumption. cbn [negb].
    unfold appendChild, bind, get. rewrite Hin. unfold throw. eauto.
Qed.

Lemma scrollItem_throw_inv (a : float) (it : MatrixItem) (s s' : State) (e : exn) :
  scrollItem a it s = Throw e s' -> e = TypeError /\ parallaxItem it = None.
Proof.
  unfold scrollItem. intros H.
  inv_throw H as s0 s0' Hget; [discriminate|]. injection Hget as <- <-.
  cbv zeta in H. destruct (_ && _).
  - inv_throw H as u1 s1 Hmedia; [absurd_throw H|].
    inv_throw H as p sp Hp; [|absurd_throw H].
    destruct (parallaxItem it); [discriminate|]. now injection H as <- _.
  - inv_throw H as p sp Hp; [|absurd_throw H].
    destruct (parallaxItem it); [discriminate|]. now injection H as <- _.
Qed.

Lemma scrollItem_run (a : float) (it : MatrixItem) (s : State) :
  match parallaxItem it with
  | Some _ => exists s', scrollItem a it s = Ok tt s'
  | None => exists s', scrollItem a it s = Throw TypeError s'
  end.
Proof.
  destruct (parallaxItem it) as [p|] eqn:Hp;
    unfold scrollItem, bind at 1, get; cbv zeta; rewrite Hp;
    destruct (_ && _); cbn [deref].
  - eexists. unfold bind. rewrite setTransform_logged. unfold ret.
    rewrite setTransform_logged. reflexivity.
  - eexists. unfold bind, ret. rewrite setTransform_logged. reflexivity.
  - eexists. unfold bind. rewrite setTransform_logged. reflexivity.
  - eexists. reflexivity.
Qed.

Lemma forEach_scrollItem_throw_inv (a : float) (l : list MatrixItem)
    (s s' : State) (e : exn) :
  forEach (scrollItem a) l s = Throw e s' ->
  e = TypeError /\ exists it, it ∈ l /\ parallaxItem it = None.
Proof.
  revert s. induction l as [|it l IH]; intros s; simpl; [discriminate|].
  intros H. inv_throw H as u1 s1 Hit.
  - apply scrollItem_throw_inv in H as [-> Hp].
    split; [reflexivity|]. exists it. split; [apply list_elem_of_here|exact Hp].
  - apply IH in H as [-> (it' & Hin & Hp)].
    split; [reflexivity|]. exists it'. split; [now apply list_elem_of_further|exact Hp].
Qed.

Lemma forEach_scrollItem_throws (a : float) (l : list MatrixItem) (s : State) :
  (exists it, it ∈ l /\ parallaxItem it = None) ->
  exists s', forEach (scrollItem a) l s = Throw TypeError s'.
Proof.
  revert s. induction l as [|it l IH]; intros s (it' & Hin & Hp).
  - now apply elem_of_nil in Hin.
  - simpl. unfold bind. pose proof (scrollItem_run a it s) as Hrun.
    destruct (parallaxItem it) as [p|] eqn:Hpi.
    + destruct Hrun as [s1 ->]. apply IH.
      apply elem_of_cons in Hin as [->|Hin]; [congruence|eauto].
    + destruct Hrun as [s1 ->]. eauto.
Qed.

Lemma scroll_throws_iff (arg : float) (s : State) (e : exn) :
  (exists s', scroll arg s = Throw e s') <->
  e = TypeError /\ isParallaxEnabled s = true /\
  exists it, it ∈ matrix (vars s) /\ parallaxItem it = None.
Proof.
  unfold scroll, bind at 1, get. split.
  - intros [s' H]. destruct (isParallaxEnabled s); cbn [negb] in H;
      [|discriminate].
    apply forEach_scrollItem_throw_inv in H as [-> Hit]. auto.
  - intros (-> & -> & Hit). cbn [negb]. now apply forEach_scrollItem_throws.
Qed.

Lemma makeItem_run (parseFloat : string -> float) (n : node) (s : State) :
  (lacks_media (dom s) n /\ makeItem parseFloat n s = Throw TypeError s) \/
  (~ lacks_media (dom s) n /\ exists it, makeItem parseFloat n s = Ok it s).
Proof.
  unfold lacks_media, makeItem, bind, get, deref.
  destruct (querySelector (dom s) n _) as [w|]; [|left; now split].
  unfold ret. destruct (findMediaElement (dom s) w) as [m|].
  - right. split; [discriminate|]. eauto.
  - left. now split.
Qed.

Lemma mapM_makeItem_run (parseFloat : string -> float) (l : list node) (s : State) :
  ((exists n, n ∈ l /\ lacks_media (dom s) n) /\
   mapM (makeItem parseFloat) l s = Throw TypeError s) \/
  ((forall n, n ∈ l -> ~ lacks_media (dom s) n) /\
   exists its, mapM (makeItem parseFloat) l s = Ok its s).
Proof.
  induction l as [|n l IH]; simpl.
  - right. split; [intros n Hin; now apply elem_of_nil in Hin|].
    exists []. reflexivity.
  - destruct (makeItem_run parseFloat n s) as [[Hl Hrun]|[Hn [it Hrun]]].
    + left. split; [exists n; split; [apply list_elem_of_here|exact Hl]|].
      unfold bind. now rewrite Hrun.
    + destruct IH as [[(n' & Hin & Hl) Hrun']|[Hall [its Hrun']]].
      * left.
        split; [exists n'; split; [now apply list_elem_of_further|exact Hl]|].
        unfold bind. now rewrite Hrun, Hrun'.
      * right. split; [intros n' [->|Hin]%elem_of_cons; auto|].
        exists (it :: its). unfold bind. now rewrite Hrun, Hrun'.
Qed.

Lemma never_throws_bindListeners : never_throws bindListeners.
Proof.
  unfold bindListeners, addEventListener, resizeEnd, Tweak_watch.
  never_throws.
Qed.

Lemma never_throws_get : never_throws get.
Proof. intros s e s' [=]. Qed.

Lemma never_throws_Darwin_new (ts : list string) (f : fn) :
  never_throws (Darwin_new ts f).
Proof.
  unfold Darwin_new. apply never_throws_bind; [apply never_throws_get|intros s1].
  never_throws.
Qed.

Lemma never_throws_Darwin_init (r : nat) : never_throws (Darwin_init r).
Proof. apply never_throws_modify. Qed.

Lemma never_throws_Darwin_destroy (r : nat) : never_throws (Darwin_destroy r).
Proof. apply never_throws_modify. Qed.

Lemma Parallax_throws_iff (parseFloat : string -> float) (el : node)
    (s : State) (e : exn) :
  (exists s', Parallax parseFloat el s = Throw e s') <->
  e = TypeError /\ exists n, n ∈ nodes_of (dom s) el /\ lacks_media (dom s) n.
Proof.
  unfold Parallax. unfold bind at 1. unfold modify at 1.
  set (s0 := set_vars _ s).
  assert (Hrest : never_throws
    (bind (requestAnimationFrame FnSyncParallax) (fun _ =>
     bind bindListeners (fun _ =>
     bind (Darwin_new
             [".sqs-block-form"; ".sqs-block-tourdates"; ".sqs-block-code";
              ".Header"; ".sqs-announcement-bar-dropzone"]%string
             FnSyncParallax) (fun r =>
     bind (modify (set_vars (with_darwin (Some r)))) (fun _ =>
     bind get (fun s =>
       match darwin (vars s) with
       | Some r => Darwin_init r
       | None => ret tt
       end))))))).
  { unfold requestAnimationFrame.
    apply never_throws_bind; [auto with safe|intros _].
    apply never_throws_bind; [apply never_throws_bindListeners|intros _].
    apply never_throws_bind; [apply never_throws_Darwin_new|intros r].
    apply never_throws_bind; [auto with safe|intros _].
    apply never_throws_bind; [apply never_throws_get|intros s1].
    destruct (darwin (vars s1)); [apply never_throws_Darwin_init|auto with safe]. }
  unfold init, initParallax. unfold bind at 1 2. unfold get at 1.
  unfold bind at 1.
  change (dom s0) with (dom s). change (element (vars s0)) with el.
  destruct (mapM_makeItem_run parseFloat (nodes_of (dom s) el) s0)
    as [[Hl Hrun]|[Hall [its Hrun]]]; change (dom s0) with (dom s) in *;
    rewrite Hrun.
  - split; [intros [s' [= <- _]]; auto|]. intros [-> _]. eauto.
  - split.
    + intros [s' H]. exfalso. unfold modify at 1 in H.
      now apply Hrest in H.
    + intros (-> & n & Hin & Hl). now apply Hall in Hl.
Qed.

Lemma updateMatrixItem_runs (i : nat) (s : State) :
  i < length (matrix (vars s)) ->
  exists b s', updateMatrixItem i s = Ok b s'.
Proof.
  intros Hi. apply lookup_lt_is_Some_2 in Hi as [it Hit].
  unfold updateMatrixItem, setItem. unfold_M. rewrite Hit. cbv zeta.
  destruct (_ || _); eauto.
Qed.

Lemma same_keys_same_length (m m' : list MatrixItem) :
  key <$> m' = key <$> m -> length m' = length m.
Proof. intros H. apply (f_equal length) in H. now rewrite !length_fmap in H. Qed.

Lemma updateEach_runs (l : list nat) (acc : bool) (s : State) :
  Forall (fun i => i < length (matrix (vars s))) l ->
  exists b s', updateEach l acc s = Ok b s'.
Proof.
  revert acc s. induction l as [|i l IH]; intros acc s Hl; simpl.
  - unfold ret. eauto.
  - apply Forall_cons in Hl as [Hi Hl].
    destruct (updateMatrixItem_runs i s Hi) as (u & s1 & Hu).
    unfold bind. rewrite Hu. apply IH.
    apply updateMatrixItem_keys in Hu as [_ Hk].
    now rewrite (same_keys_same_length _ _ Hk).
Qed.

Lemma seq_below (n : nat) : Forall (fun i => i < n) (seq 0 n).
Proof. apply Forall_forall. intros i Hi. apply list_elem_of_In, in_seq in Hi. lia. Qed.

(** The refresh of the geometry never throws. *)
Lemma updateAllMatrixItems_runs (s : State) :
  exists b s', updateAllMatrixItems s = Ok b s'.
Proof.
  unfold updateAllMatrixItems, bind, get. apply updateEach_runs, seq_below.
Qed.

Lemma same_originals_same_length (m m' : list MatrixItem) :
  originalNode <$> m' = originalNode <$> m -> length m' = length m.
Proof. intros H. apply (f_equal length) in H. now rewrite !length_fmap in H. Qed.

Lemma filterM_seq_throws (f : nat -> M bool) (n a : nat) (s : State) (e : exn) :
  (exists s', filterM f (seq a n) s = Throw e s') <->
  exists i kept s1,
    i < n /\ filterM f (seq a i) s = Ok kept s1 /\
    exists s', f (a + i)%nat s1 = Throw e s'.
Proof.
  revert a s. induction n as [|n IH]; intros a s; simpl.
  - split; [intros [s' [=]]|]. intros (i & _ & _ & Hi & _). lia.
  - split.
    + intros [s' H]. inv_throw H as keep s1 Hstep.
      * exists 0%nat, [], s. split; [lia|]. split; [reflexivity|].
        rewrite Nat.add_0_r. eauto.
      * inv_throw H as rest s2 Hrest; [|discriminate].
        destruct (proj1 (IH (S a) s1) (ex_intro _ s' H))
          as (i & kept & s3 & Hi & Hpre & Hthrow).
        exists (S i), (if keep then a :: kept else kept), s3.
        split; [lia|]. split.
        -- simpl. unfold bind. now rewrite Hstep, Hpre.
        -- now rewrite <- Nat.add_succ_comm.
    + intros (i & kept & s1 & Hi & Hpre & s' & Hthrow).
      destruct i as [|i].
      * injection Hpre as _ <-. rewrite Nat.add_0_r in Hthrow.
        exists s'. unfold bind. now rewrite Hthrow.
      * simpl in Hpre. inv_bind Hpre as keep sa Hstep.
        inv_bind Hpre as rest sb Hrest. injection Hpre as _ <-.
        destruct (proj2 (IH (S a) sa)) as [s'' Hrun].
        { exists i, rest, sb. split; [lia|]. split; [exact Hrest|].
          exists s'. now rewrite Nat.add_succ_comm. }
        exists s''. unfold bind. now rewrite Hstep, Hrun.
Qed.

Lemma syncParallax_after_windowHeight (force : jsval) (s : State) :
  syncParallax force s
  = bind updateAllMatrixItems
      (fun hasUpdated =>
         if negb hasUpdated && strict_eq_false force then ret tt
         else syncPass
                (querySelector (dom s) (body (window s))
                   [SelAttr "data-parallax-host"])
                (page_scrollTop s))
      (set_vars (with_windowHeight (Some (innerHeight (window s)))) s).
Proof. reflexivity. Qed.

(** [syncParallax] throws exactly when it gets past its early return and
    then either the step of the pass for some item throws, the steps for
    the items before it having returned, or all the steps return and the
    [scroll] at the end throws. *)
Lemma syncParallax_throws_iff (force : jsval) (s : State) (e : exn) :
  let host :=
    querySelector (dom s) (body (window s)) [SelAttr "data-parallax-host"] in
  (exists s', syncParallax force s = Throw e s') <->
  exists hasUpdated s1,
    updateAllMatrixItems
      (set_vars (with_windowHeight (Some (innerHeight (window s)))) s)
    = Ok hasUpdated s1 /\
    negb hasUpdated && strict_eq_false force = false /\
    ((exists i kept s2 it,
        filterM (syncItem host) (seq 0 i) s1 = Ok kept s2 /\
        matrix (vars s2) !! i = Some it /\
        step_fault host s2 it e) \/
     (exists kept s2,
        filterM (syncItem host) (seq 0 (length (matrix (vars s1)))) s1
        = Ok kept s2 /\
        e = TypeError /\ isParallaxEnabled s2 = true /\
        exists it, it ∈ matrix (vars s2) /\ parallaxItem it = None)).
Proof.
  intros host. rewrite syncParallax_after_windowHeight. fold host.
  set (s0 := set_vars _ s).
  destruct (updateAllMatrixItems_runs s0) as (hasUpdated & s1 & Hup).
  unfold bind at 1. rewrite Hup.
  split.
  - intros [s' H]. exists hasUpdated, s1. split; [reflexivity|].
    destruct (negb hasUpdated && strict_eq_false force); [discriminate|].
    split; [reflexivity|].
    unfold syncPass in H.
    inv_throw H as s3 s3' Hget; [discriminate|]. injection Hget as <- <-.
    inv_throw H as kept s4 Hpass.
    + left.
      destruct (proj1 (filterM_seq_throws _ _ 0 s1 e) (ex_intro _ s' H))
        as (i & kept & s2 & Hi & Hpre & s'' & Hthrow).
      simpl in Hthrow.
      assert (Hlen : i < length (matrix (vars s2))).
      { apply filterM_syncItem_same_originals, same_originals_same_length
          in Hpre. now rewrite Hpre. }
      apply lookup_lt_is_Some_2 in Hlen as [it Hit].
      exists i, kept, s2, it. split; [exact Hpre|]. split; [exact Hit|].
      eapply syncItem_throws_fault; eauto.
    + right. inv_throw H as s5 s5' Hget; [discriminate|].
      injection Hget as <- <-.
      destruct (isParallaxEnabled s4) eqn:Hon; [|discriminate].
      assert (Hth : exists s', scroll (page_scrollTop s) s4 = Throw e s')
        by eauto.
      apply scroll_throws_iff in Hth as (-> & _ & Hit).
      exists kept, s4. auto.
  - intros (hasUpdated' & s1' & [= <- <-] & Hgo & Hcase). rewrite Hgo.
    unfold syncPass, bind at 1, get at 1.
    destruct Hcase as [(i & kept & s2 & it & Hpre & Hit & Hfault)
                      |(kept & s2 & Hpass & -> & Hon & Hit)].
    + destruct (step_fault_throws host i s2 it e Hit Hfault) as [s' Hthrow].
      destruct (proj2 (filterM_seq_throws (syncItem host)
                         (length (matrix (vars s1))) 0 s1 e)) as [s'' Hrun].
      { exists i, kept, s2. split; [|split; [exact Hpre|simpl; eauto]].
        apply lookup_lt_Some in Hit.
        apply filterM_syncItem_same_originals, same_originals_same_length
          in Hpre. now rewrite <- Hpre. }
      exists s''. unfold bind. now rewrite Hrun.
    + unfold bind at 1. rewrite Hpass. unfold bind, get. rewrite Hon.
      apply scroll_throws_iff. auto.
Qed.

(** C4 as the code has it.  Nothing in the controller catches an
    exception, and it throws exactly where a node it expects is missing or
    a selector it builds cannot be read.
    - [destroy] never throws.
    - [scroll] throws exactly when parallax is enabled and some item of
      the matrix has no overlay node recorded; it is a [TypeError].
    - The constructor throws exactly when one of the original nodes it
      scans has no media wrapper, or a wrapper without media element; it is
      a [TypeError].
    - The step of [syncParallax] for an item throws exactly in the cases of
      [step_fault]: no overlay host, a [data-parallax-id] that makes the
      selector of the slot unreadable (a [SyntaxError]), no overlay slot
      matching the selector, no overlay node recorded for a wrapper that is
      not under its original node, or a move that would put a node under
      itself.
    - [syncParallax] throws exactly when it gets past its early return (the
      refresh found a change, or [force] is not [false]) and then either
      the step for some item throws, in the state the steps for the items
      before it have left, or all the steps return and the [scroll] at its
      end throws. *)
Theorem operations_throw_exactly_when :
  (forall s, exists s', destroy s = Ok tt s') /\
  (forall arg s e,
     (exists s', scroll arg s = Throw e s') <->
     e = TypeError /\ isParallaxEnabled s = true /\
     exists it, it ∈ matrix (vars s) /\ parallaxItem it = None) /\
  (forall parseFloat el s e,
     (exists s', Parallax parseFloat el s = Throw e s') <->
     e = TypeError /\
     exists n, n ∈ nodes_of (dom s) el /\ lacks_media (dom s) n) /\
  (forall host i s it e,
     matrix (vars s) !! i = Some it ->
     (exists s', syncItem host i s = Throw e s') <-> step_fault host s it e) /\
  (forall force s e,
     let host :=
       querySelector (dom s) (body (window s)) [SelAttr "data-parallax-host"] in
     (exists s', syncParallax force s = Throw e s') <->
     exists hasUpdated s1,
       updateAllMatrixItems
         (set_vars (with_windowHeight (Some (innerHeight (window s)))) s)
       = Ok hasUpdated s1 /\
       negb hasUpdated && strict_eq_false force = false /\
       ((exists i kept s2 it,
           filterM (syncItem host) (seq 0 i) s1 = Ok kept s2 /\
           matrix (vars s2) !! i = Some it /\
           step_fault host s2 it e) \/
        (exists kept s2,
           filterM (syncItem host) (seq 0 (length (matrix (vars s1)))) s1
           = Ok kept s2 /\
           e = TypeError /\ isParallaxEnabled s2 = true /\
           exists it, it ∈ matrix (vars s2) /\ parallaxItem it = None))).
Proof.
  split; [|split; [|split; [|split]]].
  - intros s. destruct (destroy_result s) as (s1 & Hrun & _). eauto.
  - apply scroll_throws_iff.
  - apply Parallax_throws_iff.
  - intros host i s it e Hi. split.
    + intros [s' H]. eapply syncItem_throws_fault; eauto.
    + now apply step_fault_throws.
  - intros force s e. apply syncParallax_throws_iff.
Qed.

Lemma operations_throw_exactly_when_witness :
  let s := Sample.state_of
             (Parallax Sample.noParse Sample.section
                (Sample.fresh (Sample.page_without Sample.slot) "true")) in
  exists it,
    matrix (vars s) !! 0%nat = Some it /\
    step_fault (Some Sample.host) s it TypeError /\
    exists s', syncItem (Some Sample.host) 0 s = Throw TypeError s'.
Proof.
  intros s.
  pose (it := {| originalNode := Sample.original;
                 mediaWrapper := Sample.wrapper; mediaElement := Sample.img;
                 focalPoint := 0.5; parallaxItem := None; top := None;
                 right := None; bottom := None; left := None; width := None;
                 height := None |}).
  assert (Hi : matrix (vars s) !! 0%nat = Some it) by (vm_compute; reflexivity).
  assert (Hf : step_fault (Some Sample.host) s it TypeError).
  { apply (NoMatchingSlot _ _ _ Sample.host); vm_compute; reflexivity. }
  exists it. split; [exact Hi|]. split; [exact Hf|].
  exact (proj2 (proj1 (proj2 (proj2 (proj2 operations_throw_exactly_when)))
                  (Some Sample.host) 0%nat s it TypeError Hi) Hf).
Defined.

(** C4 as stated fails.  On the sample page without the media wrapper the
    constructor throws a [TypeError]; on the sample page without the
    overlay slot the first [syncParallax], run by the first animation
    frame, throws a [TypeError], which reaches the browser uncaught. *)
Lemma missing_nodes_throw :
  Sample.thrown
    (Parallax Sample.noParse Sample.section
       (Sample.fresh (Sample.page_without Sample.wrapper) "true"))
  = Some TypeError /\
  let s := Sample.state_of
             (Parallax Sample.noParse Sample.section
                (Sample.fresh (Sample.page_without Sample.slot) "true")) in
  Sample.thrown (syncParallax (JNum 16) s) = Some TypeError /\
  trace (animationFrame 16 s) = [Uncaught TypeError].
Proof. vm_compute. repeat split. Qed.

(** A [SyntaxError] is among them: with a double quote in the id of the
    original node the first [syncParallax] throws before it has written
    anything. *)
Lemma quoted_id_is_no_selector :
  let s := Sample.state_of
             (Parallax Sample.noParse Sample.section
                (Sample.fresh Sample.quoted_page "true")) in
  getAttribute (dom s) Sample.original "data-parallax-id"
  = Some Sample.quoted_id /\
  plain Sample.quoted_id = false /\
  Sample.thrown (syncParallax (JNum 16) s) = Some SyntaxError /\
  trace (animationFrame 16 s) = [Uncaught SyntaxError].
Proof. vm_compute. repeat split. Qed.

(** ** The tree walks see the whole tree

    [contains] and [subtree] walk the parent map with a bound on the
    number of steps taken from the size of the DOM.  On a well-formed DOM
    the bound is never reached: both agree with the parent relation. *)

Local Open Scope nat_scope.

Lemma ancestor_or_self_below (f : nat) (d : Dom) (a b : node) :
  ancestor_or_self f d a b = true -> exists k, k <= f /\ below d a b k.
Proof.
  revert b. induction f as [|f IH]; intros b; simpl.
  - destruct (decide (a = b)) as [->|]; [|discriminate].
    exists 0. split; [lia|constructor].
  - destruct (decide (a = b)) as [->|].
    + exists 0. split; [lia|constructor].
    + destruct (parentNode d !! b) as [p|] eqn:Hp; [|discriminate].
      intros (k & Hk & Hb)%IH. exists (S k). split; [lia|].
      now apply (below_child d a b p k).
Qed.

Lemma below_ancestor_or_self (d : Dom) (a b : node) (k : nat) :
  below d a b k -> forall f, k <= f -> ancestor_or_self f d a b = true.
Proof.
  induction 1 as [|x p k Hp Hb IH]; intros f Hf.
  - destruct f; simpl; now rewrite decide_True.
  - destruct f as [|f]; [lia|]. simpl.
    destruct (decide (a = x)); [reflexivity|].
    rewrite Hp. apply IH. lia.
Qed.

(** The nodes met on the way up are pairwise distinct keys of the map. *)
Lemma below_path (d : Dom) (rank : node -> nat) (a b : node) (k : nat) :
  (forall c p, parentNode d !! c = Some p -> rank p < rank c) ->
  below d a b k ->
  exists l, length l = k /\ NoDup l /\
            (forall x, x ∈ l -> is_Some (parentNode d !! x)) /\
            (forall x, x ∈ l -> rank x <= rank b).
Proof.
  intros Hrank. induction 1 as [|x p k Hp Hb (l & Hlen & Hnd & Hkeys & Hle)].
  - exists []. repeat split; [constructor|..];
      intros x Hx; now apply elem_of_nil in Hx.
  - exists (x :: l). pose proof (Hrank x p Hp) as Hlt.
    split; [simpl; congruence|]. split; [|split].
    + constructor; [|exact Hnd]. intros Hin. apply Hle in Hin. lia.
    + intros y [->|Hy]%elem_of_cons; [rewrite Hp; eauto|auto].
    + intros y [->|Hy]%elem_of_cons; [lia|]. apply Hle in Hy. lia.
Qed.

Lemma distinct_keys_bound (m : gmap node node) (l : list node) :
  NoDup l -> (forall x, x ∈ l -> is_Some (m !! x)) -> length l <= size m.
Proof.
  intros Hnd Hkeys.
  rewrite <- length_map_to_list, <- (length_fmap fst (map_to_list m)).
  apply submseteq_length, NoDup_submseteq; [exact Hnd|].
  intros x [v Hv]%Hkeys. apply list_elem_of_fmap. exists (x, v).
  split; [reflexivity|]. now apply elem_of_map_to_list.
Qed.

Lemma below_top (d : Dom) (n c x : node) (k : nat) :
  parentNode d !! c = Some n -> below d c x k -> below d n x (S k).
Proof.
  intros Hc. induction 1 as [|x p k Hp Hb IH].
  - apply (below_child d n c n 0 Hc). constructor.
  - now apply (below_child d n x p (S k)).
Qed.

Lemma below_top_inv (d : Dom) (n x : node) (k : nat) :
  below d n x (S k) ->
  exists c, parentNode d !! c = Some n /\ below d c x k.
Proof.
  revert x. induction k as [|k IH]; intros x Hb;
    inversion Hb as [|x' p k' Hp Hb' Hx]; subst.
  - inversion Hb'; subst. exists x. split; [exact Hp|constructor].
  - apply IH in Hb' as (c & Hc & Hcp). exists c. split; [exact Hc|].
    now apply (below_child d c x p k).
Qed.

Lemma descendants_below (f : nat) (d : Dom) (n x : node) :
  (forall c p, parentNode d !! c = Some p -> c ∈ order d) ->
  x ∈ descendants f d n <-> exists k, 0 < k <= f /\ below d n x k.
Proof.
  intros Hlisted. revert n. induction f as [|f IH]; intros n; simpl.
  - split; [intros H; now apply elem_of_nil in H|]. intros (k & Hk & _). lia.
  - rewrite list_elem_of_In, in_flat_map. split.
    + intros (c & Hc & Hx). apply list_elem_of_In in Hc.
      unfold children in Hc. apply list_elem_of_filter in Hc as [Hc _].
      destruct Hx as [->|Hx].
      * exists 1. split; [lia|]. apply (below_child d n x n 0 Hc). constructor.
      * apply list_elem_of_In, IH in Hx as (k & Hk & Hb).
        exists (S k). split; [lia|]. now apply below_top with c.
    + intros (k & Hk & Hb). destruct k as [|k]; [lia|].
      apply below_top_inv in Hb as (c & Hc & Hb). exists c. split.
      * apply list_elem_of_In. unfold children.
        apply list_elem_of_filter. split; [exact Hc|]. eapply Hlisted; eauto.
      * destruct k as [|k].
        -- left. now inversion Hb.
        -- right. apply list_elem_of_In, IH. exists (S k). split; [lia|exact Hb].
Qed.

(** On a well-formed DOM (no cycle of parents, and every node that has
    a parent listed in the document order), [a.contains(b)] holds exactly
    when [b] is reached from [a] by parent links, and the descendants that
    [querySelector] searches below [a] are exactly the nodes one or more
    parent links below [a]. *)
Theorem tree_walks_complete (d : Dom) (a b : node) :
  well_formed d ->
  (contains d a b = true <-> exists k, below d a b k) /\
  (b ∈ subtree d a <-> exists k, 0 < k /\ below d a b k).
Proof.
  intros [[rank Hrank] Hlisted]. split.
  - split.
    + intros (k & _ & Hb)%ancestor_or_self_below. eauto.
    + intros [k Hb]. apply (below_ancestor_or_self d a b k Hb).
      destruct (below_path d rank a b k Hrank Hb) as (l & <- & Hnd & Hkeys & _).
      now apply distinct_keys_bound.
  - unfold subtree. rewrite descendants_below by exact Hlisted. split.
    + intros (k & Hk & Hb). exists k. split; [lia|exact Hb].
    + intros (k & Hk & Hb). exists k. split; [|exact Hb]. split; [lia|].
      destruct (below_path d rank a b k Hrank Hb) as (l & <- & Hnd & Hkeys & _).
      apply submseteq_length, NoDup_submseteq; [exact Hnd|].
      intros x [p Hp]%Hkeys. eapply Hlisted; eauto.
Qed.

Lemma tree_walks_complete_witness :
  well_formed Sample.page /\
  (contains Sample.page Sample.section Sample.img = true <->
   exists k, below Sample.page Sample.section Sample.img k).
Proof.
  assert (Hwf : well_formed Sample.page).
  { split.
    - exists Pos.to_nat.
      change (map_Forall (fun c p => Pos.to_nat p < Pos.to_nat c)
                (parentNode Sample.page)).
      eapply (bool_decide_unpack _). vm_compute. exact I.
    - change (map_Forall (fun c (p : node) => c ∈ order Sample.page)
                (parentNode Sample.page)).
      eapply (bool_decide_unpack _). vm_compute. exact I. }
  split; [exact Hwf|].
  exact (proj1 (tree_walks_complete Sample.page Sample.section Sample.img Hwf)).
Defined.

(** * Further properties *)

(** ** What the operations leave alone *)

Section Outcomes.

Variable R : State -> State -> Prop.
Hypothesis Hrefl : forall s, R s s.
Hypothesis Htrans : forall s1 s2 s3, R s1 s2 -> R s2 s3 -> R s1 s3.

Lemma always_ret {A} (a : A) : always R (ret a).
Proof. intros s. apply Hrefl. Qed.

Lemma always_throw {A} (e : exn) : always R (@throw A e).
Proof. intros s. apply Hrefl. Qed.

Lemma always_get : always R get.
Proof. intros s. apply Hrefl. Qed.

Lemma always_deref {A} (o : option A) : always R (deref o).
Proof. destruct o; [apply always_ret|apply always_throw]. Qed.

Lemma always_bind {A B} (m : M A) (k : A -> M B) :
  always R m -> (forall a, always R (k a)) -> always R (bind m k).
Proof.
  intros Hm Hk s. unfold bind. specialize (Hm s).
  destruct (m s) as [a s1|e s1]; [|exact Hm].
  specialize (Hk a s1). destruct (k a s1); eapply Htrans; eauto.
Qed.

Lemma always_forEach {A} (f : A -> M unit) (l : list A) :
  (forall x, always R (f x)) -> always R (forEach f l).
Proof.
  intros Hf. induction l; simpl; [apply always_ret|].
  apply always_bind; auto.
Qed.

Lemma always_filterM (f : nat -> M bool) (l : list nat) :
  (forall i, always R (f i)) -> always R (filterM f l).
Proof.
  intros Hf. induction l; simpl; [apply always_ret|].
  apply always_bind; [auto|intros keep].
  apply always_bind; [auto|intros rest]. apply always_ret.
Qed.

End Outcomes.

Create HintDb always.

Section Frames.

Variable R : State -> State -> Prop.
Hypothesis HR : frame R.

Local Abbreviation Hrefl := (frame_refl R HR).
Local Abbreviation Htrans := (frame_trans R HR).
Local Abbreviation ret_ := (always_ret R Hrefl).
Local Abbreviation throw_ := (always_throw R Hrefl).
Local Abbreviation get_ := (always_get R Hrefl).
Local Abbreviation deref_ := (always_deref R Hrefl).
Local Abbreviation bind_ := (always_bind R Htrans).

Lemma always_emit (e : Effect) : always R (emit e).
Proof. intros s. apply (frame_trace R HR). Qed.

Lemma always_setStyle (n : node) (prop : string) (v : css) :
  always R (setStyle n prop v).
Proof. apply always_emit. Qed.

Lemma always_setTransform (n : node) (v : css) : always R (setTransform n v).
Proof.
  unfold setTransform.
  repeat (apply bind_; [apply always_setStyle|intros _]).
  apply always_setStyle.
Qed.

Lemma always_set_dom (f : Dom -> Dom) : always R (modify (set_dom f)).
Proof. intros s. apply (frame_dom R HR). Qed.

Lemma always_classList_add (n : node) (c : string) :
  always R (classList_add n c).
Proof.
  unfold classList_add. apply bind_; [apply always_set_dom|intros _].
  apply always_emit.
Qed.

Lemma always_appendChild (parent child : node) :
  always R (appendChild parent child).
Proof.
  unfold appendChild. apply bind_; [apply get_|intros s0].
  destruct (contains (dom s0) child parent); [apply throw_|].
  apply bind_; [apply always_set_dom|intros _]. apply always_emit.
Qed.

Lemma always_removeChild (parent child : node) :
  always R (removeChild parent child).
Proof.
  unfold removeChild. apply bind_; [apply always_set_dom|intros _].
  apply always_emit.
Qed.

Lemma always_setItem (i : nat) (it : MatrixItem) : always R (setItem i it).
Proof. intros s. apply (frame_matrix R HR (<[i := it]> (matrix (vars s)))). Qed.

Lemma always_loadImage (m : node) : always R (loadImage m).
Proof.
  unfold loadImage. apply bind_; [apply get_|intros s0].
  cbv zeta.
  match goal with |- always R (match ?o with Some _ => _ | None => _ end) =>
    destruct o end; [apply always_emit|apply ret_].
Qed.

Local Hint Resolve always_emit always_setStyle always_setTransform
  always_set_dom always_classList_add always_appendChild always_removeChild
  always_setItem always_loadImage : always.

Ltac always :=
  repeat first
    [ solve [auto with always]
    | apply ret_
    | apply throw_
    | apply get_
    | apply deref_
    | apply bind_; [|intros ?]
    | progress cbv zeta
    | match goal with
      | |- always R (match ?o with Some _ => _ | None => _ end) => destruct o
      | |- always R (if ?b then _ else _) => destruct b
      end ].

Lemma always_updateMatrixItem (i : nat) : always R (updateMatrixItem i).
Proof. unfold updateMatrixItem. always. Qed.

Lemma always_updateEach (l : list nat) (acc : bool) :
  always R (updateEach l acc).
Proof.
  revert acc. induction l; intros acc; simpl; [always|].
  apply bind_; [apply always_updateMatrixItem|intros u]. apply IHl.
Qed.

Lemma always_updateAllMatrixItems : always R updateAllMatrixItems.
Proof.
  unfold updateAllMatrixItems. apply bind_; [always|intros s0].
  apply always_updateEach.
Qed.

Lemma always_scrollItem (a : float) (it : MatrixItem) :
  always R (scrollItem a it).
Proof. unfold scrollItem. always. Qed.

Lemma always_scroll (arg : float) : always R (scroll arg).
Proof.
  unfold scroll. apply bind_; [always|intros s0]. cbv zeta.
  destruct (negb _); [always|]. apply (always_forEach R Hrefl Htrans), always_scrollItem.
Qed.

Lemma always_syncItem (host : option node) (i : nat) :
  always R (syncItem host i).
Proof. unfold syncItem. always. Qed.

Lemma always_syncPass (host : option node) (scrollTop : float) :
  always R (syncPass host scrollTop).
Proof.
  unfold syncPass. apply bind_; [always|intros s0].
  apply bind_; [apply (always_filterM R Hrefl Htrans), always_syncItem|intros kept].
  apply bind_; [always|intros s1].
  destruct (isParallaxEnabled s1); [apply always_scroll|always].
Qed.

(** [syncParallax] besides recording the window height. *)
Lemma always_syncParallax (force : jsval) :
  (forall h s, R s (set_vars (with_windowHeight h) s)) ->
  always R (syncParallax force).
Proof.
  intros Hwh. unfold syncParallax.
  apply bind_; [always|intros s0]. cbv zeta.
  apply bind_; [intros s; apply Hwh|intros _].
  apply bind_; [apply always_updateAllMatrixItems|intros hasUpdated].
  destruct (_ && _); [always|apply always_syncPass].
Qed.

End Frames.

Lemma frame_same_env : frame same_env.
Proof.
  split.
  - intros s. repeat split.
  - intros s1 s2 s3 (Hw & Hc & Hv) (Hw' & Hc' & Hv'). repeat split; congruence.
  - intros f s. repeat split.
  - intros f s. repeat split.
  - intros m s. repeat split.
Qed.

Lemma frame_same_timers : frame same_timers.
Proof.
  split.
  - intros s. repeat split.
  - intros s1 s2 s3 (Ht & Hn & Hv) (Ht' & Hn' & Hv'). repeat split; congruence.
  - intros f s. repeat split.
  - intros f s. repeat split.
  - intros m s. repeat split.
Qed.

Lemma always_after_update (R : State -> State -> Prop) (force : jsval)
    (host : option node) (scrollTop : float) :
  frame R ->
  always R
    (bind updateAllMatrixItems
       (fun hasUpdated =>
          if negb hasUpdated && strict_eq_false force then ret tt
          else syncPass host scrollTop)).
Proof.
  intros HR. apply (always_bind R (frame_trans R HR)).
  - now apply always_updateAllMatrixItems.
  - intros hasUpdated. destruct (_ && _).
    + apply (always_ret R (frame_refl R HR)).
    + now apply always_syncPass.
Qed.

(** X2.  Whether it returns or throws, [syncParallax] registers nothing
    and withdraws nothing: the listeners on the window, the pending timeouts
    and animation-frame requests, the tweak watchers, the [resizeEnd]
    callbacks and the mutation watchers are the ones there were before.  Of
    the controller's variables it changes only the matrix and
    [windowHeight], which is [window.innerHeight] afterwards. *)
Theorem syncParallax_leaves_environment (force : jsval) (s : State) :
  match syncParallax force s with
  | Ok _ s' | Throw _ s' =>
      listeners (window s') = listeners (window s) /\
      timers (window s') = timers (window s) /\
      nextTimer (window s') = nextTimer (window s) /\
      frameRequests (window s') = frameRequests (window s) /\
      tweakWatchers (collab s') = tweakWatchers (collab s) /\
      resizeEndCallbacks (collab s') = resizeEndCallbacks (collab s) /\
      darwins (collab s') = darwins (collab s) /\
      element (vars s') = element (vars s) /\
      darwin (vars s') = darwin (vars s) /\
      scrolling (vars s') = scrolling (vars s) /\
      scrollTimeout (vars s') = scrollTimeout (vars s) /\
      isEditingIndex (vars s') = isEditingIndex (vars s) /\
      windowHeight (vars s') = Some (innerHeight (window s))
  end.
Proof.
  rewrite syncParallax_after_windowHeight.
  pose proof (always_after_update same_env force
                (querySelector (dom s) (body (window s))
                   [SelAttr "data-parallax-host"])
                (page_scrollTop s) frame_same_env
                (set_vars (with_windowHeight (Some (innerHeight (window s)))) s))
    as H.
  destruct (bind _ _ _) as [u s'|e s']; destruct H as (Hw & Hc & Hv);
    rewrite Hw, Hc;
    pose proof (f_equal element Hv) as H1;
    pose proof (f_equal darwin Hv) as H2;
    pose proof (f_equal scrolling Hv) as H3;
    pose proof (f_equal scrollTimeout Hv) as H4;
    pose proof (f_equal isEditingIndex Hv) as H5;
    pose proof (f_equal windowHeight Hv) as H6;
    simpl in *; repeat split; assumption.
Qed.

(** ** [scroll] writes transforms only *)

Lemma transform_write_on_mono (items items' : list MatrixItem) (e : Effect) :
  (forall it, it ∈ items -> it ∈ items') ->
  transform_write_on items e -> transform_write_on items' e.
Proof.
  intros Hsub (n & prop & v & He & Hprop & it & Hin & Hn).
  exists n, prop, v. split; [exact He|]. split; [exact Hprop|]. eauto.
Qed.

Lemma transform_writes_on (it : MatrixItem) (n : node) (v : css) :
  n = mediaElement it \/ parallaxItem it = Some n ->
  Forall (transform_write_on [it]) (transform_writes n v).
Proof.
  intros Hn. unfold transform_writes.
  repeat apply Forall_cons_2; [..|apply Forall_nil_2];
    (eexists _, _, _; split; [reflexivity|]; split;
     [|exists it; split; [apply list_elem_of_here|exact Hn]]);
    repeat first [apply list_elem_of_here|apply list_elem_of_further].
Qed.

Lemma scrollItem_transforms (a : float) (it : MatrixItem) (s : State) :
  match scrollItem a it s with
  | Ok _ s' | Throw _ s' =>
      exists es, s' = logged es s /\ Forall (transform_write_on [it]) es
  end.
Proof.
  destruct (parallaxItem it) as [p|] eqn:Hp;
    unfold scrollItem, bind at 1, get; cbv zeta; rewrite Hp;
    destruct (_ && _); cbn [deref].
  - unfold bind. rewrite setTransform_logged. unfold ret.
    rewrite setTransform_logged, logged_logged. eexists. split; [reflexivity|].
    apply Forall_app_2; apply transform_writes_on; auto.
  - unfold bind, ret. rewrite setTransform_logged. eexists.
    split; [reflexivity|]. apply transform_writes_on; auto.
  - unfold bind. rewrite setTransform_logged. unfold throw. eexists.
    split; [reflexivity|]. apply transform_writes_on; auto.
  - unfold bind, throw. exists []. split; [now rewrite logged_nil|constructor].
Qed.

Lemma forEach_scrollItem_transforms (a : float) (items l : list MatrixItem)
    (s : State) :
  (forall it, it ∈ l -> it ∈ items) ->
  match forEach (scrollItem a) l s with
  | Ok _ s' | Throw _ s' =>
      exists es, s' = logged es s /\ Forall (transform_write_on items) es
  end.
Proof.
  revert s. induction l as [|it l IH]; intros s Hsub; simpl.
  - exists []. split; [now rewrite logged_nil|constructor].
  - unfold bind. pose proof (scrollItem_transforms a it s) as Hit.
    assert (Hmono : forall es, Forall (transform_write_on [it]) es ->
                               Forall (transform_write_on items) es).
    { intros es Hes. eapply Forall_impl; [exact Hes|].
      intros e. apply transform_write_on_mono.
      intros it' ->%list_elem_of_singleton. apply Hsub, list_elem_of_here. }
    destruct (scrollItem a it s) as [u s1|e s1]; destruct Hit as (es1 & -> & H1).
    + specialize (IH (logged es1 s)
                     (fun it' Hin => Hsub it' (list_elem_of_further _ _ _ Hin))).
      destruct (forEach _ l _) as [u' s2|e s2]; destruct IH as (es2 & -> & H2);
        exists (es1 ++ es2); (split; [now rewrite logged_logged|]);
        apply Forall_app_2; auto.
    + exists es1. split; [reflexivity|auto].
Qed.

(** ** C5 and C8: the transforms [scroll] writes *)

Section ScrollTransforms.

Local Open Scope float_scope.

Lemma forEach_scrollItem_returns (a : float) (l : list MatrixItem) (s : State) :
  Forall (fun it => parallaxItem it <> None) l ->
  exists es,
    forEach (scrollItem a) l s = Ok tt (logged es s) /\
    Forall (transform_write_on l) es.
Proof.
  intros Hall.
  pose proof (forEach_scrollItem_transforms a l l s (fun _ H => H)) as Hrun.
  destruct (forEach (scrollItem a) l s) as [[] s'|e s'] eqn:Hfe.
  - destruct Hrun as (es & -> & Hes). eauto.
  - exfalso. apply forEach_scrollItem_throw_inv in Hfe as (_ & it & Hin & Hp).
    rewrite Forall_forall in Hall. now apply (Hall it).
Qed.

(** [scroll] from the item [it] on, the items before it having been
    dealt with. *)
Lemma scroll_from_item (arg : float) (s : State) (pre post : list MatrixItem)
    (it : MatrixItem) :
  isParallaxEnabled s = true ->
  matrix (vars s) = pre ++ it :: post ->
  Forall (fun it' => parallaxItem it' <> None) pre ->
  exists es_pre,
    Forall (transform_write_on pre) es_pre /\
    scroll arg s
    = bind (scrollItem (or_num arg (page_scrollTop s)) it)
        (fun _ => forEach (scrollItem (or_num arg (page_scrollTop s))) post)
        (logged es_pre s).
Proof.
  intros Hon Hm Hpre.
  destruct (forEach_scrollItem_returns (or_num arg (page_scrollTop s)) pre s Hpre)
    as (es_pre & Hrun & Hes).
  exists es_pre. split; [exact Hes|].
  rewrite scroll_enabled, Hm, forEach_app by assumption.
  unfold bind at 1. now rewrite Hrun.
Qed.

Lemma forEach_scrollItem_rest (a : float) (l : list MatrixItem) (es : list Effect)
    (s : State) :
  match forEach (scrollItem a) l (logged es s) with
  | Ok _ s' | Throw _ s' =>
      exists es', s' = logged (es ++ es') s /\ Forall (transform_write_on l) es'
  end.
Proof.
  pose proof (forEach_scrollItem_transforms a l l (logged es s) (fun _ H => H))
    as Hrun.
  destruct (forEach _ l _) as [u s'|e s']; destruct Hrun as (es' & -> & Hes);
    exists es'; (split; [apply logged_logged|exact Hes]).
Qed.

(** C5 as the code has it.  With parallax enabled, take an item that is in
    view ([scrollTop + windowHeight > top] and [scrollTop < bottom]), all
    the items before it in the matrix having an overlay node.  Then
    [scroll], whether it returns or throws later, writes to the media
    element of the item the transform [translatey(v px)] with
    [v = (1 - (top + height * focalPoint - scrollTop) / windowHeight) * 500],
    the proportion being used as computed; before that it has written only
    transforms of the items before it, and next it writes
    [translatey(-scrollTop px)] to the overlay node of the item and goes on
    to the items after it, or stops there when the item has no overlay
    node.  The scroll offset is the argument or, when that is falsy,
    [document.documentElement.scrollTop || document.body.scrollTop].  For
    [top = 1000], [bottom = 1500], [height = 500], [focalPoint = 0.5] and a
    window height of 800, at scroll offset 450 the item is in view, the
    proportion is 0 and the transform written to the media element is
    [translatey(0px)]. *)
Theorem scroll_in_view_media_transform :
  (forall (arg : float) (s : State) (pre post : list MatrixItem)
          (it : MatrixItem),
     isParallaxEnabled s = true ->
     matrix (vars s) = pre ++ it :: post ->
     Forall (fun it' => parallaxItem it' <> None) pre ->
     let scrollTop :=
       or_num arg (or_num (documentElement_scrollTop (window s))
                          (body_scrollTop (window s))) in
     let H := ToNumber (windowHeight (vars s)) in
     let top := ToNumber (top it) in
     let bottom := ToNumber (bottom it) in
     let height := ToNumber (height it) in
     (top <? scrollTop + H) = true ->
     (scrollTop <? bottom) = true ->
     let proportion := 1 - ((top + height * focalPoint it - scrollTop) / H) in
     match scroll arg s with
     | Ok _ s' | Throw _ s' =>
         exists es_pre es_post,
           s' = logged
                  (es_pre
                   ++ transform_writes (mediaElement it)
                        [Str "translatey("; Num (proportion * 500); Str "px)"]
                   ++ es_post) s /\
           Forall (transform_write_on pre) es_pre /\
           match parallaxItem it with
           | Some p =>
               exists es',
                 es_post
                 = transform_writes p
                     [Str "translatey("; Num (-1 * scrollTop); Str "px)"]
                   ++ es' /\
                 Forall (transform_write_on post) es'
           | None => es_post = []
           end
     end)
  /\
  (forall (s : State) (pre post : list MatrixItem) (it : MatrixItem),
     isParallaxEnabled s = true ->
     matrix (vars s) = pre ++ it :: post ->
     Forall (fun it' => parallaxItem it' <> None) pre ->
     windowHeight (vars s) = Some 800 ->
     top it = Some 1000 -> bottom it = Some 1500 -> height it = Some 500 ->
     focalPoint it = 0.5 ->
     (1000 <? 450 + 800) = true /\ (450 <? 1500) = true /\
     1 - ((1000 + 500 * 0.5 - 450) / 800) = 0 /\
     match scroll 450 s with
     | Ok _ s' | Throw _ s' =>
         exists es_pre es_post,
           s' = logged
                  (es_pre
                   ++ transform_writes (mediaElement it)
                        [Str "translatey("; Num 0; Str "px)"]
                   ++ es_post) s /\
           Forall (transform_write_on pre) es_pre
     end).
Proof.
  assert (Hgen : forall (arg : float) (s : State) (pre post : list MatrixItem)
          (it : MatrixItem),
     isParallaxEnabled s = true ->
     matrix (vars s) = pre ++ it :: post ->
     Forall (fun it' => parallaxItem it' <> None) pre ->
     let scrollTop :=
       or_num arg (or_num (documentElement_scrollTop (window s))
                          (body_scrollTop (window s))) in
     let H := ToNumber (windowHeight (vars s)) in
     let top := ToNumber (top it) in
     let bottom := ToNumber (bottom it) in
     let height := ToNumber (height it) in
     (top <? scrollTop + H) = true ->
     (scrollTop <? bottom) = true ->
     let proportion := 1 - ((top + height * focalPoint it - scrollTop) / H) in
     match scroll arg s with
     | Ok _ s' | Throw _ s' =>
         exists es_pre es_post,
           s' = logged
                  (es_pre
                   ++ transform_writes (mediaElement it)
                        [Str "translatey("; Num (proportion * 500); Str "px)"]
                   ++ es_post) s /\
           Forall (transform_write_on pre) es_pre /\
           match parallaxItem it with
           | Some p =>
               exists es',
                 es_post
                 = transform_writes p
                     [Str "translatey("; Num (-1 * scrollTop); Str "px)"]
                   ++ es' /\
                 Forall (transform_write_on post) es'
           | None => es_post = []
           end
     end).
  { intros arg s pre post it Hon Hm Hpre scrollTop H top bottom height
      Htop Hbot proportion.
    destruct (scroll_from_item arg s pre post it Hon Hm Hpre)
      as (es_pre & Hes & ->).
    unfold page_scrollTop. fold scrollTop.
    unfold bind at 1. unfold scrollItem at 1. unfold bind at 1. unfold get at 1.
    change (windowHeight (vars (logged es_pre s))) with (windowHeight (vars s)).
    fold H top bottom height. rewrite Htop, Hbot. cbn [andb].
    unfold bind at 1. rewrite setTransform_logged, logged_logged.
    fold proportion. change parallaxOffset with 500.
    destruct (parallaxItem it) as [p|]; cbn [deref].
    - unfold bind at 1, ret at 1.
      rewrite setTransform_logged, logged_logged. cbv beta iota.
      pose proof (forEach_scrollItem_rest scrollTop post
                    ((es_pre
                   ++ transform_writes (mediaElement it)
                        [Str "translatey("; Num (proportion * 500); Str "px)"])
                   ++ transform_writes p
                     [Str "translatey("; Num (-1 * scrollTop); Str "px)"]) s)
        as Hpost.
      destruct (forEach (scrollItem scrollTop) post _) as [u s'|e s'];
        destruct Hpost as (es' & -> & Hes');
        exists es_pre, (transform_writes p
                     [Str "translatey("; Num (-1 * scrollTop); Str "px)"] ++ es');
        (split; [now rewrite <- !app_assoc|]); (split; [exact Hes|]); eauto.
    - unfold bind, throw. exists es_pre, [].
      split; [now rewrite app_nil_r|]. split; [exact Hes|reflexivity]. }
  split; [exact Hgen|].
  intros s pre post it Hon Hm Hpre Hwh Ht Hb Hh Hf.
  split; [reflexivity|]. split; [reflexivity|]. split; [reflexivity|].
  pose proof (Hgen 450 s pre post it Hon Hm Hpre) as Hrun.
  cbv zeta in Hrun. rewrite Hwh, Ht, Hb, Hh, Hf in Hrun.
  change (or_num 450 _) with 450 in Hrun.
  specialize (Hrun eq_refl eq_refl).
  destruct (scroll 450 s) as [u s'|e s'];
    destruct Hrun as (es_pre & es_post & Hs & Hes & _);
    exists es_pre, es_post; (split; [exact Hs|exact Hes]).
Qed.

Lemma scroll_in_view_media_transform_witness :
  let s := Sample.synced "true" in
  isParallaxEnabled s = true /\
  scroll 450 s
  = Ok tt
      (logged
         (transform_writes Sample.img [Str "translatey("; Num 0; Str "px)"]
          ++ transform_writes Sample.slot
               [Str "translatey("; Num (-450); Str "px)"])
         s) /\
  match scroll 450 s with
  | Ok _ s' | Throw _ s' =>
      exists es_pre es_post,
        s' = logged
               (es_pre
                ++ transform_writes Sample.img
                     [Str "translatey("; Num 0; Str "px)"]
                ++ es_post) s /\
        Forall (transform_write_on []) es_pre
  end.
Proof.
  intros s.
  pose (it := {| originalNode := Sample.original;
                 mediaWrapper := Sample.wrapper; mediaElement := Sample.img;
                 focalPoint := 0.5; parallaxItem := Some Sample.slot;
                 top := Some 1000; right := Some 1200; bottom := Some 1500;
                 left := Some 0; width := Some 1200; height := Some 500 |}).
  assert (Hon : isParallaxEnabled s = true) by (vm_compute; reflexivity).
  assert (Hm : matrix (vars s) = [] ++ it :: []) by (vm_compute; reflexivity).
  split; [exact Hon|]. split; [vm_compute; reflexivity|].
  exact (proj2 (proj2 (proj2
           (proj2 scroll_in_view_media_transform s [] [] it Hon Hm
              (Forall_nil_2 _) eq_refl eq_refl eq_refl eq_refl eq_refl)))).
Defined.

(** C5 as stated fails.  On the page with two original nodes the first one
    is taken out of the document before the first frame.  The first
    [syncParallax] leaves its item in the matrix, without overlay node, and
    gives the second item its overlay node and its geometry: top 1000,
    bottom 1500, height 500, with focal point 0.5 and a window 800 high.
    With parallax enabled, [scroll(450)] throws at the first item: the
    second item, which is in view, gets no transform at all. *)
Lemma scroll_stops_before_item_in_view :
  let s := Sample.first_removed in
  isParallaxEnabled s = true /\
  windowHeight (vars s) = Some 800 /\
  (exists first second,
     matrix (vars s) = [first; second] /\
     parallaxItem first = None /\
     mediaElement second = Sample.img2 /\
     parallaxItem second = Some Sample.slot2 /\
     top second = Some 1000 /\ bottom second = Some 1500 /\
     height second = Some 500 /\ focalPoint second = 0.5) /\
  (1000 <? 450 + 800) = true /\ (450 <? 1500) = true /\
  scroll 450 s = Throw TypeError s.
Proof.
  intros s. split; [vm_compute; reflexivity|]. split; [vm_compute; reflexivity|].
  split.
  { eexists _, _. split; [vm_compute; reflexivity|]. simpl. repeat split. }
  split; [reflexivity|]. split; [reflexivity|]. vm_compute. reflexivity.
Qed.

(** C8 as the code has it.  With parallax enabled, take an item with an
    overlay node that is not in view, all the items before it in the matrix
    having an overlay node.  Then [scroll], whether it returns or throws
    later, writes for the item the transform [translate3d(x px, 0, 0)] on
    its overlay node, with [x] computed as [-1 * width - left], that is,
    minus the sum of the cached width and left: a horizontal translation
    with no vertical component.  Before it come only transforms of the
    items before it, and after it only transforms of the items after it:
    nothing else is written for the item, neither to its overlay node nor
    to its media element. *)
Theorem scroll_out_of_view_overlay_transform (arg : float) (s : State)
    (pre post : list MatrixItem) (it : MatrixItem) (p : node) :
  isParallaxEnabled s = true ->
  matrix (vars s) = pre ++ it :: post ->
  Forall (fun it' => parallaxItem it' <> None) pre ->
  parallaxItem it = Some p ->
  let scrollTop :=
    or_num arg (or_num (documentElement_scrollTop (window s))
                       (body_scrollTop (window s))) in
  let H := ToNumber (windowHeight (vars s)) in
  let top := ToNumber (top it) in
  let bottom := ToNumber (bottom it) in
  let left := ToNumber (left it) in
  let width := ToNumber (width it) in
  (top <? scrollTop + H) && (scrollTop <? bottom) = false ->
  match scroll arg s with
  | Ok _ s' | Throw _ s' =>
      exists es_pre es_post,
        s' = logged
               (es_pre
                ++ transform_writes p
                     [Str "translate3d("; Num (-1 * width - left);
                      Str "px, 0, 0)"]
                ++ es_post) s /\
        Forall (transform_write_on pre) es_pre /\
        Forall (transform_write_on post) es_post
  end.
Proof.
  intros Hon Hm Hpre Hp scrollTop H top bottom left width Hout.
  destruct (scroll_from_item arg s pre post it Hon Hm Hpre)
    as (es_pre & Hes & ->).
  unfold page_scrollTop. fold scrollTop.
  unfold bind at 1. unfold scrollItem at 1. unfold bind at 1. unfold get at 1.
  change (windowHeight (vars (logged es_pre s))) with (windowHeight (vars s)).
  fold H top bottom left width. rewrite Hout, Hp. cbn [deref].
  unfold bind at 1, ret at 1.
  rewrite setTransform_logged, logged_logged. cbv beta iota.
  pose proof (forEach_scrollItem_rest scrollTop post
                (es_pre
                 ++ transform_writes p
                      [Str "translate3d("; Num (-1 * width - left);
                       Str "px, 0, 0)"]) s) as Hpost.
  destruct (forEach (scrollItem scrollTop) post _) as [u s'|e s'];
    destruct Hpost as (es' & -> & Hes');
    exists es_pre, es'; (split; [now rewrite <- app_assoc|]); auto.
Qed.

Lemma scroll_out_of_view_overlay_transform_witness :
  let s := Sample.synced "true" in
  scroll 1600 s
  = Ok tt
      (logged
         (transform_writes Sample.slot
            [Str "translate3d("; Num (-1200); Str "px, 0, 0)"])
         s) /\
  match scroll 1600 s with
  | Ok _ s' | Throw _ s' =>
      exists es_pre es_post,
        s' = logged
               (es_pre
                ++ transform_writes Sample.slot
                     [Str "translate3d("; Num (-1200); Str "px, 0, 0)"]
                ++ es_post) s /\
        Forall (transform_write_on []) es_pre /\
        Forall (transform_write_on []) es_post
  end.
Proof.
  intros s.
  pose (it := {| originalNode := Sample.original;
                 mediaWrapper := Sample.wrapper; mediaElement := Sample.img;
                 focalPoint := 0.5; parallaxItem := Some Sample.slot;
                 top := Some 1000; right := Some 1200; bottom := Some 1500;
                 left := Some 0; width := Some 1200; height := Some 500 |}).
  assert (Hon : isParallaxEnabled s = true) by (vm_compute; reflexivity).
  assert (Hm : matrix (vars s) = [] ++ it :: []) by (vm_compute; reflexivity).
  split; [vm_compute; reflexivity|].
  exact (scroll_out_of_view_overlay_transform 1600 s [] [] it Sample.slot
           Hon Hm (Forall_nil_2 _) eq_refl eq_refl).
Defined.

(** C8 as stated fails.  In the same state as for C5, with parallax
    enabled, the second item has its overlay node and at scroll offset 1600
    it is out of view.  [scroll(1600)] throws at the first item, which has
    no overlay node, and writes nothing to the overlay node of the
    second. *)
Lemma scroll_stops_before_item_out_of_view :
  let s := Sample.first_removed in
  isParallaxEnabled s = true /\
  windowHeight (vars s) = Some 800 /\
  (exists first second,
     matrix (vars s) = [first; second] /\
     parallaxItem first = None /\
     parallaxItem second = Some Sample.slot2 /\
     top second = Some 1000 /\ bottom second = Some 1500 /\
     left second = Some 0 /\ width second = Some 1200) /\
  (1000 <? 1600 + 800) && (1600 <? 1500) = false /\
  scroll 1600 s = Throw TypeError s.
Proof.
  intros s. split; [vm_compute; reflexivity|]. split; [vm_compute; reflexivity|].
  split.
  { eexists _, _. split; [vm_compute; reflexivity|]. simpl. repeat split. }
  split; [reflexivity|]. vm_compute. reflexivity.
Qed.

End ScrollTransforms.

(** X3.  Whether it returns or throws, [scroll] changes nothing but the
    trace, and all it adds to the trace are assignments of
    [webkitTransform], [msTransform] or [transform] on the media element or
    the overlay node of an item of the matrix: it never moves a node, never
    touches a class, a position or a size, and never changes an item. *)
Theorem scroll_writes_transforms_only (arg : float) (s : State) :
  match scroll arg s with
  | Ok _ s' | Throw _ s' =>
      exists es,
        s' = logged es s /\
        Forall (transform_write_on (matrix (vars s))) es
  end.
Proof.
  unfold scroll, bind at 1, get. cbv zeta.
  destruct (isParallaxEnabled s); cbn [negb].
  - now apply forEach_scrollItem_transforms.
  - exists []. split; [now rewrite logged_nil|constructor].
Qed.

(** ** With parallax off, [syncParallax] only clears styles *)

Lemma quietly_refl (s : State) : quietly s s.
Proof.
  split; [apply frame_same_env|]. exists []. split; [now rewrite app_nil_r|constructor].
Qed.

Lemma quietly_trans (s1 s2 s3 : State) :
  quietly s1 s2 -> quietly s2 s3 -> quietly s1 s3.
Proof.
  intros [He (es & Ht & Hes)] [He' (es' & Ht' & Hes')]. split.
  - eapply (frame_trans _ frame_same_env); eauto.
  - exists (es ++ es'). split; [rewrite Ht', Ht; now rewrite app_assoc|].
    now apply Forall_app_2.
Qed.

Lemma quietly_emit (e : Effect) : clears_styles e -> always quietly (emit e).
Proof.
  intros He s. split; [apply (frame_trace _ frame_same_env)|].
  exists [e]. split; [reflexivity|]. now repeat constructor.
Qed.

Lemma quietly_set_dom (f : Dom -> Dom) : always quietly (modify (set_dom f)).
Proof.
  intros s. split; [apply (frame_dom _ frame_same_env)|].
  exists []. split; [simpl; now rewrite app_nil_r|constructor].
Qed.

Lemma quietly_setItem (i : nat) (it : MatrixItem) : always quietly (setItem i it).
Proof.
  intros s. split; [apply (frame_matrix _ frame_same_env (<[i := it]> (matrix (vars s))))|].
  exists []. split; [simpl; now rewrite app_nil_r|constructor].
Qed.

Lemma quietly_bind {A B} (m : M A) (k : A -> M B) :
  always quietly m -> (forall a, always quietly (k a)) -> always quietly (bind m k).
Proof. apply always_bind, quietly_trans. Qed.

Lemma quietly_ret {A} (a : A) : always quietly (ret a).
Proof. apply always_ret, quietly_refl. Qed.

Lemma quietly_throw {A} (e : exn) : always quietly (@throw A e).
Proof. apply always_throw, quietly_refl. Qed.

Lemma quietly_get : always quietly get.
Proof. apply always_get, quietly_refl. Qed.

Lemma quietly_deref {A} (o : option A) : always quietly (deref o).
Proof. apply always_deref, quietly_refl. Qed.

Lemma quietly_clear (n : node) (prop : string) : always quietly (setStyle n prop []).
Proof. now apply quietly_emit. Qed.

Lemma quietly_clear_transform (n : node) : always quietly (setTransform n []).
Proof.
  unfold setTransform.
  repeat (apply quietly_bind; [apply quietly_clear|intros _]).
  apply quietly_clear.
Qed.

Lemma quietly_classList_add (n : node) (c : string) :
  always quietly (classList_add n c).
Proof.
  unfold classList_add. apply quietly_bind; [apply quietly_set_dom|intros _].
  now apply quietly_emit.
Qed.

Lemma quietly_appendChild (parent child : node) :
  always quietly (appendChild parent child).
Proof.
  unfold appendChild. apply quietly_bind; [apply quietly_get|intros s0].
  destruct (contains (dom s0) child parent); [apply quietly_throw|].
  apply quietly_bind; [apply quietly_set_dom|intros _]. now apply quietly_emit.
Qed.

Lemma quietly_removeChild (parent child : node) :
  always quietly (removeChild parent child).
Proof.
  unfold removeChild. apply quietly_bind; [apply quietly_set_dom|intros _].
  now apply quietly_emit.
Qed.

Lemma quietly_loadImage (m : node) : always quietly (loadImage m).
Proof.
  unfold loadImage. apply quietly_bind; [apply quietly_get|intros s0].
  cbv zeta.
  match goal with |- always quietly (match ?o with Some _ => _ | None => _ end) =>
    destruct o end; [now apply quietly_emit|apply quietly_ret].
Qed.

Create HintDb quiet.
Global Hint Resolve quietly_ret quietly_throw quietly_get quietly_deref
  quietly_set_dom quietly_setItem quietly_clear quietly_clear_transform
  quietly_classList_add quietly_appendChild quietly_removeChild
  quietly_loadImage : quiet.

Ltac quiet :=
  repeat first
    [ solve [auto with quiet]
    | apply quietly_bind; [|intros ?]
    | progress cbv zeta
    | match goal with
      | |- always quietly (match ?o with Some _ => _ | None => _ end) => destruct o
      | |- always quietly (if ?b then _ else _) => destruct b
      end ].

Lemma quietly_updateEach (l : list nat) (acc : bool) :
  always quietly (updateEach l acc).
Proof.
  revert acc. induction l as [|i l IH]; intros acc; simpl; [quiet|].
  apply quietly_bind; [unfold updateMatrixItem; quiet|intros u]. apply IH.
Qed.

Lemma quietly_updateAllMatrixItems : always quietly updateAllMatrixItems.
Proof.
  unfold updateAllMatrixItems. apply quietly_bind; [quiet|intros s0].
  apply quietly_updateEach.
Qed.

Lemma same_env_isParallaxEnabled (s s' : State) :
  same_env s s' -> isParallaxEnabled s' = isParallaxEnabled s.
Proof.
  intros (_ & Hc & Hv). unfold isParallaxEnabled. rewrite Hc.
  apply (f_equal isEditingIndex) in Hv. simpl in Hv. now rewrite Hv.
Qed.

Lemma syncItem_disabled (host : option node) (i : nat) (s : State) :
  isParallaxEnabled s = false ->
  match syncItem host i s with
  | Ok _ s' | Throw _ s' => quietly s s'
  end.
Proof.
  intros Hoff. unfold syncItem. unfold bind at 1. unfold get at 1.
  unfold bind at 1.
  destruct (matrix (vars s) !! i) as [it|]; cbn [deref];
    [|apply quietly_refl].
  unfold ret at 1. cbv zeta. rewrite Hoff.
  match goal with |- match ?m s with _ => _ end =>
    assert (Hq : always quietly m) by quiet; exact (Hq s)
  end.
Qed.

Lemma filterM_syncItem_disabled (host : option node) (l : list nat) (s : State) :
  isParallaxEnabled s = false ->
  match filterM (syncItem host) l s with
  | Ok _ s' | Throw _ s' => quietly s s'
  end.
Proof.
  revert s. induction l as [|i l IH]; intros s Hoff; simpl.
  - apply quietly_refl.
  - unfold bind at 1. pose proof (syncItem_disabled host i s Hoff) as Hstep.
    destruct (syncItem host i s) as [keep s1|e s1]; [|exact Hstep].
    assert (Hoff1 : isParallaxEnabled s1 = false)
      by (rewrite (same_env_isParallaxEnabled s s1); [exact Hoff|apply Hstep]).
    specialize (IH s1 Hoff1). unfold bind.
    destruct (filterM (syncItem host) l s1) as [rest s2|e s2];
      eapply quietly_trans; eauto.
Qed.

Lemma syncPass_disabled (host : option node) (scrollTop : float) (s : State) :
  isParallaxEnabled s = false ->
  match syncPass host scrollTop s with
  | Ok _ s' | Throw _ s' => quietly s s'
  end.
Proof.
  intros Hoff. unfold syncPass. unfold bind at 1. unfold get at 1.
  unfold bind at 1.
  pose proof (filterM_syncItem_disabled host
                (seq 0 (length (matrix (vars s)))) s Hoff) as Hpass.
  destruct (filterM _ _ s) as [kept s1|e s1]; [|exact Hpass].
  unfold bind, get.
  rewrite (same_env_isParallaxEnabled s s1), Hoff by apply Hpass.
  exact Hpass.
Qed.

Lemma syncParallax_disabled (force : jsval) (s : State) :
  isParallaxEnabled s = false ->
  match syncParallax force s with
  | Ok _ s' | Throw _ s' =>
      quietly
        (set_vars (with_windowHeight (Some (innerHeight (window s)))) s) s'
  end.
Proof.
  intros Hoff. rewrite syncParallax_after_windowHeight.
  set (s0 := set_vars _ s).
  assert (Hoff0 : isParallaxEnabled s0 = false) by exact Hoff.
  unfold bind. pose proof (quietly_updateAllMatrixItems s0) as Hup.
  destruct (updateAllMatrixItems s0) as [hasUpdated s1|e s1];
    [|exact Hup].
  assert (Hoff1 : isParallaxEnabled s1 = false)
    by (rewrite (same_env_isParallaxEnabled s0 s1); [exact Hoff0|apply Hup]).
  destruct (_ && _); [exact Hup|].
  pose proof (syncPass_disabled
                (querySelector (dom s) (body (window s))
                   [SelAttr "data-parallax-host"])
                (page_scrollTop s) s1 Hoff1) as Hpass.
  destruct (syncPass _ _ s1) as [u s2|e s2];
    exact (quietly_trans s0 s1 s2 Hup Hpass).
Qed.

(** X4.  With parallax not enabled, whether [syncParallax] returns or
    throws, every style assignment it makes assigns the empty string: it
    writes no position, size, offset or transform, it only clears them. *)
Theorem syncParallax_disabled_clears_only (force : jsval) (s : State) :
  isParallaxEnabled s = false ->
  match syncParallax force s with
  | Ok _ s' | Throw _ s' =>
      exists es, trace s' = trace s ++ es /\ Forall clears_styles es
  end.
Proof.
  intros Hoff. pose proof (syncParallax_disabled force s Hoff) as H.
  destruct (syncParallax force s); exact (proj2 H).
Qed.

Lemma syncParallax_disabled_clears_only_witness :
  let s := Sample.synced "false" in
  exists s', syncParallax (JBool true) s = Ok tt s' /\
  exists es, trace s' = trace s ++ es /\ Forall clears_styles es.
Proof.
  intros s.
  assert (Hoff : isParallaxEnabled s = false) by (vm_compute; reflexivity).
  pose proof (syncParallax_disabled_clears_only (JBool true) s Hoff) as H.
  assert (Hrun : syncParallax (JBool true) s
                 = Ok tt (Sample.state_of (syncParallax (JBool true) s)))
    by (vm_compute; reflexivity).
  rewrite Hrun in H. eauto.
Defined.

(** X5.  Entering index edit mode turns parallax off whatever the tweak
    says: [handleIndexEditEnabled] sets [isEditingIndex] and, whether it
    returns or throws, every style assignment it makes assigns the empty
    string. *)
Theorem handleIndexEditEnabled_clears_only (s : State) :
  match handleIndexEditEnabled s with
  | Ok _ s' | Throw _ s' =>
      isEditingIndex (vars s') = true /\
      isParallaxEnabled s' = false /\
      exists es, trace s' = trace s ++ es /\ Forall clears_styles es
  end.
Proof.
  unfold handleIndexEditEnabled, bind at 1, modify at 1.
  set (s1 := set_vars (with_isEditingIndex true) s).
  assert (Hoff : isParallaxEnabled s1 = false) by reflexivity.
  pose proof (syncParallax_disabled (JBool true) s1 Hoff) as Hq.
  destruct (syncParallax (JBool true) s1) as [u s'|e s'];
    destruct Hq as [He Hq];
    pose proof (same_env_isParallaxEnabled _ _ He) as Hoff';
    destruct He as (_ & _ & Hv);
    apply (f_equal isEditingIndex) in Hv; simpl in Hv;
    (split; [exact Hv|split; [exact Hoff'|exact Hq]]).
Qed.

(** ** The timeout that ends the frame loop *)

Lemma NoDup_fst_filter {A B} (P : A * B -> Prop) `{forall x, Decision (P x)}
    (l : list (A * B)) :
  NoDup l.*1 -> NoDup (filter P l).*1.
Proof.
  induction l as [|x l IH]; intros Hnd; [constructor|].
  rewrite fmap_cons in Hnd. apply NoDup_cons in Hnd as [Hx Hnd].
  rewrite filter_cons. destruct (decide (P x)); [|auto].
  rewrite fmap_cons. apply NoDup_cons. split; [|auto].
  intros Hin. apply Hx. apply list_elem_of_fmap in Hin as (y & -> & Hy).
  apply list_elem_of_filter in Hy as [_ Hy]. apply list_elem_of_fmap. eauto.
Qed.

Lemma timers_ok_same (s s' : State) :
  same_timers s s' -> timers_ok s -> timers_ok s'.
Proof.
  intros (Ht & Hn & Hv) (Hpos & Hnd & Hlt & Hend). unfold timers_ok.
  rewrite Ht, Hn, Hv. auto.
Qed.

Lemma timers_ok_always {A} (m : M A) (s : State) :
  always same_timers m -> timers_ok s ->
  match m s with
  | Ok _ s' | Throw _ s' => timers_ok s'
  end.
Proof.
  intros Hm Hs. specialize (Hm s).
  destruct (m s); eapply timers_ok_same; eauto.
Qed.

Lemma timers_ok_cleared (id : nat) (s : State) :
  timers_ok s ->
  timers_ok (set_window (fun w =>
    with_timers (filter (fun t => t.1 ≠ id) (timers w)) (nextTimer w) w) s).
Proof.
  intros (Hpos & Hnd & Hlt & Hend). split; [exact Hpos|].
  split; [|split]; simpl.
  - now apply NoDup_fst_filter.
  - intros t Ht. apply list_elem_of_filter in Ht as [_ Ht]. auto.
  - intros i Hi. apply list_elem_of_filter in Hi as [_ Hi]. auto.
Qed.

Lemma timers_ok_armed (l : list (nat * fn)) (s : State) :
  0 < nextTimer (window s) ->
  NoDup l.*1 ->
  (forall t, t ∈ l -> 0 < t.1 < nextTimer (window s)) ->
  (forall id, (id, FnScrollEnd) ∉ l) ->
  timers_ok
    (set_vars (with_scrollTimeout (Some (nextTimer (window s))))
       (set_window
          (with_timers (l ++ [(nextTimer (window s), FnScrollEnd)])
             (S (nextTimer (window s)))) s)).
Proof.
  intros Hpos Hnd Hlt Hend. split; [simpl; lia|]. split; [|split]; simpl.
  - rewrite fmap_app. apply NoDup_app. split; [exact Hnd|]. split.
    + intros i Hi Hi'. apply list_elem_of_fmap in Hi as (t & -> & Ht).
      apply Hlt in Ht. simpl in Hi'. apply list_elem_of_singleton in Hi'. lia.
    + simpl. apply NoDup_singleton.
  - intros t Ht. apply elem_of_app in Ht as [Ht|Ht].
    + apply Hlt in Ht. lia.
    + apply list_elem_of_singleton in Ht. subst t. simpl. lia.
  - intros i Hi. apply elem_of_app in Hi as [Hi|Hi].
    + now apply Hend in Hi.
    + apply list_elem_of_singleton in Hi. congruence.
Qed.

Lemma same_timers_requestAnimationFrame (f : fn) :
  always same_timers (requestAnimationFrame f).
Proof. intros s. now repeat split. Qed.

Lemma same_timers_set_vars_scrolling (b : bool) :
  always same_timers (modify (set_vars (with_scrolling b))).
Proof. intros s. now repeat split. Qed.

Lemma same_timers_set_vars_isEditingIndex (b : bool) :
  always same_timers (modify (set_vars (with_isEditingIndex b))).
Proof. intros s. now repeat split. Qed.

Lemma same_timers_syncParallax (force : jsval) :
  always same_timers (syncParallax force).
Proof.
  apply (always_syncParallax _ frame_same_timers). intros h s. now repeat split.
Qed.

Lemma same_timers_bind {A B} (m : M A) (k : A -> M B) :
  always same_timers m -> (forall a, always same_timers (k a)) ->
  always same_timers (bind m k).
Proof. apply always_bind, (frame_trans _ frame_same_timers). Qed.

Lemma same_timers_scrollCallback : always same_timers scrollCallback.
Proof.
  unfold scrollCallback.
  apply same_timers_bind;
    [apply always_get, (frame_refl _ frame_same_timers)|intros s0].
  apply same_timers_bind;
    [apply (always_scroll _ frame_same_timers)|intros _].
  apply same_timers_bind;
    [apply always_get, (frame_refl _ frame_same_timers)|intros s1].
  destruct (scrolling (vars s1));
    [apply same_timers_requestAnimationFrame
    |apply always_ret, (frame_refl _ frame_same_timers)].
Qed.

Lemma same_timers_scrollEnd : always same_timers scrollEnd.
Proof.
  unfold scrollEnd.
  apply same_timers_bind;
    [apply always_get, (frame_refl _ frame_same_timers)|intros s0].
  apply same_timers_bind; [apply same_timers_set_vars_scrolling|intros _].
  apply (always_setStyle _ frame_same_timers).
Qed.

Lemma handleScroll_timers_ok (s : State) :
  timers_ok s ->
  match handleScroll s with
  | Ok _ s' | Throw _ s' => timers_ok s'
  end.
Proof.
  intros Hs. unfold handleScroll. unfold bind at 1, get at 1.
  unfold bind at 1.
  match goal with |- match match ?m s with _ => _ end with _ => _ end =>
    assert (Hm : always same_timers m)
  end.
  { destruct (negb _);
      [|apply always_ret, (frame_refl _ frame_same_timers)].
    apply same_timers_bind; [apply same_timers_set_vars_scrolling|intros _].
    apply same_timers_bind;
      [apply (always_setStyle _ frame_same_timers)|intros _].
    apply same_timers_scrollCallback. }
  match goal with |- match match ?m s with _ => _ end with _ => _ end =>
    pose proof (timers_ok_always m s Hm Hs) as Hs1; destruct (m s) as [u s1|e s1]
  end; [|exact Hs1].
  unfold bind, get, setTimeout, clearTimeout, modify, ret.
  destruct Hs1 as (Hpos & Hnd & Hlt & Hend).
  destruct (scrollTimeout (vars s1)) as [id0|] eqn:Hid; cbn [truthy_id].
  - destruct (Nat.eqb_spec id0 0) as [->|Hpos0]; cbn [negb].
    + apply (timers_ok_armed (timers (window s1)) s1); auto.
      intros i Hi. pose proof (Hlt _ Hi) as Hp. apply Hend in Hi.
      injection Hi as <-. simpl in Hp. lia.
    + apply (timers_ok_armed (filter (fun t => t.1 ≠ id0) (timers (window s1))) s1).
      * exact Hpos.
      * now apply NoDup_fst_filter.
      * intros t Ht. apply list_elem_of_filter in Ht as [_ Ht]. auto.
      * intros i Hi. apply list_elem_of_filter in Hi as [Hne Hi].
        apply Hend in Hi. simpl in Hne. congruence.
  - apply (timers_ok_armed (timers (window s1)) s1); auto.
    intros i Hi. apply Hend in Hi. congruence.
Qed.

Lemma call_timers_ok (f : fn) (arg : jsval) (s : State) :
  timers_ok s ->
  match call f arg s with
  | Ok _ s' | Throw _ s' => timers_ok s'
  end.
Proof.
  intros Hs. destruct f; unfold call;
    try (now apply handleScroll_timers_ok);
    (apply timers_ok_always; [|exact Hs]).
  - apply same_timers_syncParallax.
  - apply same_timers_scrollCallback.
  - apply same_timers_bind;
      [apply same_timers_set_vars_isEditingIndex|intros _].
    apply same_timers_syncParallax.
  - apply same_timers_bind;
      [apply same_timers_set_vars_isEditingIndex|intros _].
    apply same_timers_syncParallax.
  - apply same_timers_syncParallax.
  - apply same_timers_syncParallax.
  - apply same_timers_syncParallax.
  - apply same_timers_scrollEnd.
Qed.

Lemma run_timers_ok (arg : jsval) (s : State) (f : fn) :
  timers_ok s -> timers_ok (run arg s f).
Proof.
  intros Hs. unfold run. pose proof (call_timers_ok f arg s Hs) as H.
  destruct (call f arg s); [exact H|].
  eapply timers_ok_same; [|exact H]. now repeat split.
Qed.

Lemma fold_run_timers_ok (arg : jsval) (l : list fn) (s : State) :
  timers_ok s -> timers_ok (fold_left (run arg) l s).
Proof.
  revert s. induction l as [|f l IH]; intros s Hs; simpl; [exact Hs|].
  apply IH. now apply run_timers_ok.
Qed.

Lemma browser_timers_ok (b : browser_step) (s : State) :
  timers_ok s -> timers_ok (browser b s).
Proof.
  intros Hs. destruct b; simpl.
  - apply fold_run_timers_ok. eapply timers_ok_same; [|exact Hs].
    now repeat split.
  - now apply fold_run_timers_ok.
  - apply fold_run_timers_ok. now apply timers_ok_cleared.
  - now apply fold_run_timers_ok.
  - now apply fold_run_timers_ok.
  - unfold mutationObserved.
    destruct (darwins (collab s) !! r) as [d|]; [|exact Hs].
    destruct (observing d); [|exact Hs]. now apply run_timers_ok.
Qed.

Lemma timers_ok_at_most_one (s : State) :
  timers_ok s -> length (pendingScrollEnd s) <= 1.
Proof.
  intros (_ & Hnd & _ & Hend). unfold pendingScrollEnd.
  pose proof (NoDup_fst_filter (fun t => t.2 = FnScrollEnd) _ Hnd) as Hnd'.
  assert (Hall : forall t, t ∈ filter (fun t => t.2 = FnScrollEnd)
                               (timers (window s)) ->
                 scrollTimeout (vars s) = Some t.1).
  { intros [i f] Ht. apply list_elem_of_filter in Ht as [Hf Ht].
    simpl in Hf. subst f. now apply Hend. }
  destruct (filter _ _) as [|a [|b l]]; simpl; try lia.
  exfalso. rewrite !fmap_cons in Hnd'. apply NoDup_cons in Hnd' as [Hab _].
  apply Hab. 
  assert (Ha : scrollTimeout (vars s) = Some a.1)
    by (apply Hall, list_elem_of_here).
  assert (Hb : scrollTimeout (vars s) = Some b.1)
    by (apply Hall, list_elem_of_further, list_elem_of_here).
  replace a.1 with b.1 by congruence. apply list_elem_of_here.
Qed.

(** X6.  Timeout ids being positive, the scroll handler clears the timeout
    it set before it sets the next one, so whatever the browser does next (a
    frame, an event, an expiring timeout, a tweak change, the end of a
    resize, a mutation), at most one timeout that ends the frame loop is
    pending, and it is the one recorded in [scrollTimeout]. *)
Theorem one_pending_scrollEnd (b : browser_step) (s : State) :
  timers_ok s ->
  timers_ok (browser b s) /\
  length (pendingScrollEnd (browser b s)) <= 1 /\
  (forall t, t ∈ pendingScrollEnd (browser b s) ->
     scrollTimeout (vars (browser b s)) = Some t.1).
Proof.
  intros Hs. pose proof (browser_timers_ok b s Hs) as Hs'.
  split; [exact Hs'|]. split; [now apply timers_ok_at_most_one|].
  intros [i f] Ht. apply list_elem_of_filter in Ht as [Hf Ht].
  simpl in Hf. subst f. now apply Hs'.
Qed.

Lemma one_pending_scrollEnd_witness :
  let s := Sample.synced "true" in
  timers_ok s /\
  timers_ok (browser (Event EvScroll) s) /\
  length (pendingScrollEnd (browser (Event EvScroll) s)) = 1.
Proof.
  intros s.
  assert (Hs : timers_ok s).
  { split; [vm_compute; lia|]. split; [|split].
    - vm_compute. constructor.
    - intros t Ht. vm_compute in Ht. inversion Ht.
    - intros i Hi. vm_compute in Hi. inversion Hi. }
  split; [exact Hs|].
  split; [exact (proj1 (one_pending_scrollEnd (Event EvScroll) s Hs))|].
  vm_compute. reflexivity.
Defined.

(** ** The frame loop *)

Lemma same_env_scrolling (s s' : State) :
  same_env s s' -> scrolling (vars s') = scrolling (vars s).
Proof. intros (_ & _ & Hv). now apply (f_equal scrolling) in Hv. Qed.

Lemma same_env_scrollTimeout (s s' : State) :
  same_env s s' -> scrollTimeout (vars s') = scrollTimeout (vars s).
Proof. intros (_ & _ & Hv). now apply (f_equal scrollTimeout) in Hv. Qed.

Lemma scrollCallback_outcome (s : State) :
  match scrollCallback s with
  | Ok _ s' =>
      scrolling (vars s') = scrolling (vars s) /\
      scrollTimeout (vars s') = scrollTimeout (vars s) /\
      window s' =
        with_frameRequests
          (frameRequests (window s) ++
           (if scrolling (vars s) then [FnScrollCallback] else []))
          (window s)
  | Throw _ s' => same_env s s'
  end.
Proof.
  unfold scrollCallback. unfold bind at 1, get at 1. unfold bind at 1.
  pose proof (always_scroll _ frame_same_env (pageYOffset (window s)) s) as He.
  destruct (scroll _ s) as [u s1|e s1]; [|exact He].
  unfold bind, get.
  rewrite (same_env_scrolling s s1 He).
  pose proof (same_env_scrollTimeout s s1 He) as Hto.
  destruct He as (Hw & _ & Hv).
  destruct (scrolling (vars s)) eqn:Hsc; simpl;
    (split; [apply (f_equal scrolling) in Hv; simpl in Hv; congruence
            |split; [exact Hto|]]);
    rewrite Hw; [reflexivity|].
  rewrite app_nil_r. now destruct (window s).
Qed.

(** X7.  One pass of the frame loop: [scrollCallback] asks for the next
    frame exactly when [scrolling] is set and [scroll] returned; when
    [scroll] throws no frame is requested, so the loop stops. *)
Theorem scrollCallback_requests_next_frame (s : State) :
  match scrollCallback s with
  | Ok _ s' =>
      frameRequests (window s') =
        frameRequests (window s) ++
        (if scrolling (vars s) then [FnScrollCallback] else [])
  | Throw _ s' => frameRequests (window s') = frameRequests (window s)
  end.
Proof.
  pose proof (scrollCallback_outcome s) as H.
  destruct (scrollCallback s) as [u s'|e s'].
  - destruct H as (_ & _ & ->). reflexivity.
  - destruct H as (-> & _). reflexivity.
Qed.

(** X8.  The scroll listener.  When it returns, [scrolling] is set, the
    timeout recorded in [scrollTimeout] is cleared if that id is truthy
    (nothing is cleared for [undefined] or [0]), a fresh timeout is pending
    and recorded, and a frame has been requested only if no loop was
    running; during a running loop it writes nothing to the page.  It throws
    only when it starts a loop whose first [scroll] throws: then [scrolling]
    stays set, and no timeout is set that would reset it: the pending
    timeouts, the frame requests and the listeners are as before. *)
Theorem handleScroll_outcome (s : State) :
  match handleScroll s with
  | Ok _ s' =>
      scrolling (vars s') = true /\
      scrollTimeout (vars s') = Some (nextTimer (window s)) /\
      timers (window s') =
        match scrollTimeout (vars s) with
        | Some (S id) => filter (fun t => t.1 ≠ S id) (timers (window s))
        | Some O | None => timers (window s)
        end ++ [(nextTimer (window s), FnScrollEnd)] /\
      frameRequests (window s') =
        frameRequests (window s) ++
        (if scrolling (vars s) then [] else [FnScrollCallback]) /\
      (scrolling (vars s) = true -> trace s' = trace s /\ dom s' = dom s)
  | Throw _ s' =>
      scrolling (vars s) = false /\
      scrolling (vars s') = true /\
      scrollTimeout (vars s') = scrollTimeout (vars s) /\
      timers (window s') = timers (window s) /\
      nextTimer (window s') = nextTimer (window s) /\
      frameRequests (window s') = frameRequests (window s) /\
      listeners (window s') = listeners (window s)
  end.
Proof.
  unfold handleScroll. unfold bind at 1, get at 1.
  destruct (scrolling (vars s)) eqn:Hsc; cbn [negb].
  - unfold bind, get, ret, setTimeout, clearTimeout, modify.
    destruct (scrolling (vars s)) eqn:Hsc'; [|discriminate].
    destruct (scrollTimeout (vars s)) as [[|id0]|]; simpl;
      rewrite ?app_nil_r; auto 10.
  - unfold bind at 1. unfold bind at 1, modify at 1.
    unfold bind at 1, setStyle at 1, emit at 1, modify at 1.
    match goal with |- match match scrollCallback ?s0 with _ => _ end with _ => _ end =>
      pose proof (scrollCallback_outcome s0) as H;
      destruct (scrollCallback s0) as [u s1|e s1]
    end.
    + simpl in H. destruct H as (Hsc1 & Hto & Hw).
      unfold bind, get, ret, setTimeout, clearTimeout, modify.
      rewrite Hto.
      destruct (scrollTimeout (vars s)) as [[|id0]|]; simpl; rewrite ?Hw; simpl;
        (repeat split; try discriminate; auto).
    + destruct H as (Hw & _ & Hv). simpl in Hw, Hv.
      split; [reflexivity|].
      split; [now apply (f_equal scrolling) in Hv|].
      split; [now apply (f_equal scrollTimeout) in Hv|].
      rewrite Hw. repeat split.
Qed.

(** ** Construction *)

Lemma querySelector_in_subtree (d : Dom) (root : node) (sel : selector)
    (p : node) :
  querySelector d root sel = Some p -> p ∈ subtree d root.
Proof.
  unfold querySelector, querySelectorAll. intros H.
  apply head_Some_elem_of in H. apply list_elem_of_In, filter_In in H.
  apply list_elem_of_In. tauto.
Qed.

Lemma findMediaElement_result (d : Dom) (w m : node) :
  findMediaElement d w = Some m ->
  m ∈ subtree d w /\
  (tagName d !! m = Some "img"%string /\
   classList_contains d m "custom-fallback-image" = false \/
   tagName d !! m = Some "div"%string /\
   classList_contains d m "sqs-video-background" = true).
Proof.
  unfold findMediaElement.
  destruct (querySelector d w [SelTag "img"; SelNotClass "custom-fallback-image"])
    as [img|] eqn:Himg.
  - intros [= <-]. split; [now apply querySelector_in_subtree in Himg|].
    left. apply querySelector_matches in Himg. simpl in Himg.
    apply andb_prop in Himg as [Ht Hc]. apply andb_prop in Hc as [Hc _].
    split; [now apply bool_decide_eq_true in Ht|].
    now apply negb_true_iff in Hc.
  - intros Hdiv. split; [now apply querySelector_in_subtree in Hdiv|].
    right. apply querySelector_matches in Hdiv. simpl in Hdiv.
    apply andb_prop in Hdiv as [Ht Hc]. apply andb_prop in Hc as [Hc _].
    split; [now apply bool_decide_eq_true in Ht|exact Hc].
Qed.

Lemma makeItem_result (parseFloat : string -> float) (n : node)
    (s s' : State) (it : MatrixItem) :
  makeItem parseFloat n s = Ok it s' ->
  s' = s /\ originalNode it = n /\ built_from (dom s) it.
Proof.
  unfold makeItem, bind, get.
  destruct (querySelector (dom s) n [SelAttr "data-parallax-image-wrapper"])
    as [w|] eqn:Hw; [|discriminate].
  cbn [deref ret].
  destruct (findMediaElement (dom s) w) as [m|] eqn:Hm; [|discriminate].
  cbn [deref ret]. intros [= <- <-]. split; [reflexivity|].
  split; [reflexivity|]. unfold built_from; cbn.
  split; [now apply querySelector_in_subtree in Hw|].
  split.
  { apply querySelector_matches in Hw. simpl in Hw.
    now apply andb_prop in Hw as [Hw _]. }
  apply findMediaElement_result in Hm as [Hin Hkind].
  split; [exact Hin|]. split; [exact Hkind|].
  split; [|repeat split].
  intros [->| ->]; reflexivity.
Qed.

Lemma mapM_makeItem_result (parseFloat : string -> float) (l : list node)
    (s s' : State) (its : list MatrixItem) :
  mapM (makeItem parseFloat) l s = Ok its s' ->
  s' = s /\ originalNode <$> its = l /\ Forall (built_from (dom s)) its.
Proof.
  revert its. induction l as [|n l IH]; intros its; simpl.
  - intros [= <- <-]. repeat split. constructor.
  - intros H. inv_bind H as it s1 H1. inv_bind H as rest s2 H2.
    injection H as <- <-.
    apply makeItem_result in H1 as (-> & Hn & Hit).
    apply IH in H2 as (-> & Hl & Hall).
    split; [reflexivity|]. split; [now rewrite fmap_cons, Hn, Hl|].
    now constructor.
Qed.

Lemma addEventListener_fresh (ev : eventType) (f : fn) (s : State) :
  (ev, f) ∉ listeners (window s) ->
  addEventListener ev f s
  = Ok tt (set_window (with_listeners (listeners (window s) ++ [(ev, f)])) s).
Proof.
  intros Habs. unfold addEventListener, modify, set_window.
  now rewrite bool_decide_eq_false_2.
Qed.

Lemma bindListeners_fresh (s : State) :
  (forall l, l ∈ module_listeners -> l ∉ listeners (window s)) ->
  exists s1,
    bindListeners s = Ok tt s1 /\
    listeners (window s1) = listeners (window s) ++ module_listeners /\
    tweakWatchers (collab s1)
    = tweakWatchers (collab s) ++ [(watched_tweaks, FnTweakWatcher)] /\
    resizeEndCallbacks (collab s1)
    = resizeEndCallbacks (collab s) ++ [FnSyncParallax] /\
    tweakValues (collab s1) = tweakValues (collab s) /\
    frameRequests (window s1) = frameRequests (window s) /\
    timers (window s1) = timers (window s) /\
    dom s1 = dom s /\ vars s1 = vars s /\ trace s1 = trace s.
Proof.
  intros Habs.
  assert (Hnew : forall l pre, l ∈ module_listeners -> l ∉ pre ->
                 l ∉ listeners (window s) ++ pre).
  { intros l pre Hl Hpre [Hin|Hin]%elem_of_app; [now apply (Habs l)|auto]. }
  unfold bindListeners, bind.
  rewrite addEventListener_fresh
    by (apply Habs; unfold module_listeners;
        repeat first [apply list_elem_of_here|apply list_elem_of_further]).
  unfold resizeEnd at 1, modify at 1.
  repeat
    (rewrite addEventListener_fresh;
     [|simpl; rewrite <- ?app_assoc; apply Hnew;
       [unfold module_listeners;
        repeat first [apply list_elem_of_here|apply list_elem_of_further]
       |simpl; rewrite ?not_elem_of_cons; repeat split;
        first [discriminate|apply not_elem_of_nil]]]).
  eexists. split; [reflexivity|]. simpl.
  rewrite <- !app_assoc. repeat split.
Qed.

Lemma bindListeners_keeps (s : State) :
  exists s1,
    bindListeners s = Ok tt s1 /\
    dom s1 = dom s /\ vars s1 = vars s /\ trace s1 = trace s /\
    frameRequests (window s1) = frameRequests (window s) /\
    timers (window s1) = timers (window s) /\
    nextTimer (window s1) = nextTimer (window s) /\
    darwins (collab s1) = darwins (collab s).
Proof.
  unfold bindListeners, bind, addEventListener, resizeEnd, Tweak_watch, modify.
  eexists. split; [reflexivity|]. simpl.
  repeat (match goal with
          | |- context [bool_decide ?P] => destruct (bool_decide P)
          end; simpl).
  all: repeat split.
Qed.

Lemma Parallax_run (parseFloat : string -> float) (el : node) (s s' : State) :
  Parallax parseFloat el s = Ok tt s' ->
  exists its sb,
    originalNode <$> its = nodes_of (dom s) el /\
    Forall (built_from (dom s)) its /\
    bindListeners
      (set_window
         (fun w => with_frameRequests (frameRequests w ++ [FnSyncParallax]) w)
         (set_vars (fun _ =>
            {| element := el; darwin := None; scrolling := false;
               scrollTimeout := None; windowHeight := None; matrix := its;
               isEditingIndex := false |}) s))
    = Ok tt sb /\
    s' = set_collab
           (fun c =>
              with_darwins
                (darwins (collab sb)
                 ++ [{| targets := [".sqs-block-form"; ".sqs-block-tourdates";
                                    ".sqs-block-code"; ".Header";
                                    ".sqs-announcement-bar-dropzone"]%string;
                        callback := FnSyncParallax; observing := true;
                        destroyed := false |}]) c)
           (set_vars (with_darwin (Some (length (darwins (collab sb))))) sb).
Proof.
  unfold Parallax. unfold bind at 1, modify at 1.
  set (s0 := set_vars _ s). unfold init, initParallax.
  intros H. inv_bind H as u1 s1 H1.
  unfold bind at 1, get at 1 in H1. inv_bind H1 as its s2 H2.
  apply mapM_makeItem_result in H2 as (-> & Horig & Hbuilt).
  injection H1 as <- <-.
  inv_bind H as u2 s2 H2. injection H2 as <- <-.
  inv_bind H as u3 s3 H3.
  exists its, s3. split; [exact Horig|]. split; [exact Hbuilt|].
  split; [destruct u3; exact H3|].
  unfold Darwin_new, Darwin_init, bind, modify, get, ret in H. simpl in H.
  injection H as <-. unfold set_collab, set_vars, with_darwins. simpl.
  replace (length (darwins (collab s3))) with (length (darwins (collab s3)) + 0)
    at 1 by lia.
  rewrite alter_app_r. reflexivity.
Qed.

(** X9.  What the constructor builds.  When [Parallax(element)] returns,
    the matrix has one item per original node, in document order; each
    item's wrapper was found below its original node and its media element
    below the wrapper (an [img] that is not the fallback image, else the
    video background); the focal point is 0.5 when the attribute is missing
    or empty; nothing is measured or placed yet; one more watcher exists,
    which the controller holds, which was given [syncParallax] as its
    callback and on which [init()] was called; one frame is requested for
    the first [syncParallax], and neither the document nor its styles have
    been touched. *)
Theorem Parallax_builds_matrix (parseFloat : string -> float) (el : node)
    (s s' : State) :
  Parallax parseFloat el s = Ok tt s' ->
  originalNode <$> matrix (vars s') = nodes_of (dom s) el /\
  Forall (built_from (dom s)) (matrix (vars s')) /\
  (exists d, darwin (vars s') = Some (length (darwins (collab s))) /\
             darwins (collab s') = darwins (collab s) ++ [d] /\
             observing d = true /\ destroyed d = false /\
             callback d = FnSyncParallax) /\
  frameRequests (window s') = frameRequests (window s) ++ [FnSyncParallax] /\
  dom s' = dom s /\ trace s' = trace s.
Proof.
  intros H. apply Parallax_run in H as (its & sb & Horig & Hbuilt & Hrun & ->).
  match type of Hrun with bindListeners ?sa = _ =>
    destruct (bindListeners_keeps sa)
      as (sb' & Hrun' & Hd & Hv & Ht & Hf & _ & _ & Hds)
  end.
  rewrite Hrun in Hrun'. injection Hrun' as <-.
  simpl. rewrite Hv, Hd, Ht, Hf, Hds. simpl.
  split; [exact Horig|]. split; [exact Hbuilt|].
  split; [eexists; repeat split|]. repeat split.
Qed.

Lemma Parallax_builds_matrix_witness :
  let s := Sample.fresh Sample.page "true" in
  exists s',
    Parallax Sample.noParse Sample.section s = Ok tt s' /\
    originalNode <$> matrix (vars s') = [Sample.original] /\
    Forall (built_from (dom s)) (matrix (vars s')).
Proof.
  intros s. exists (Sample.constructed "true").
  assert (H : Parallax Sample.noParse Sample.section s
              = Ok tt (Sample.constructed "true"))
    by (vm_compute; reflexivity).
  split; [exact H|].
  destruct (Parallax_builds_matrix _ _ _ _ H) as (Ho & Hb & _).
  split; [|exact Hb]. rewrite Ho. vm_compute. reflexivity.
Defined.

(** X10.  Construct, then destroy.  The constructor registers the five
    listeners of the controller, in the order of [module_listeners]; a
    [destroy] right after it removes them again and leaves the listeners of
    the window as they were before the constructor, and lets go of the
    watcher.  The frame requested for the first [syncParallax], the tweak watcher and
    the resize callback are still there after [destroy]. *)
Theorem Parallax_destroy_round_trip (parseFloat : string -> float) (el : node)
    (s s' : State) :
  (forall l, l ∈ module_listeners -> l ∉ listeners (window s)) ->
  Parallax parseFloat el s = Ok tt s' ->
  listeners (window s') = listeners (window s) ++ module_listeners /\
  exists s'',
    destroy s' = Ok tt s'' /\
    listeners (window s'') = listeners (window s) /\
    darwin (vars s'') = None /\
    frameRequests (window s'') = frameRequests (window s) ++ [FnSyncParallax] /\
    tweakWatchers (collab s'')
    = tweakWatchers (collab s) ++ [(watched_tweaks, FnTweakWatcher)] /\
    resizeEndCallbacks (collab s'')
    = resizeEndCallbacks (collab s) ++ [FnSyncParallax].
Proof.
  intros Habs H.
  apply Parallax_run in H as (its & sb & _ & _ & Hrun & ->).
  match type of Hrun with bindListeners ?sa = _ =>
    destruct (bindListeners_fresh sa Habs)
      as (sb' & Hrun' & Hl & Htw & Hre & _ & Hfr & _)
  end.
  rewrite Hrun in Hrun'. injection Hrun' as <-. simpl in Hl, Htw, Hre, Hfr.
  split; [exact Hl|].
  match goal with |- exists s'', destroy ?s1 = _ /\ _ =>
    destruct (destroy_result s1)
      as (s2 & Hdes & Hd & Hl2 & _ & (_ & Htw2 & Hre2 & _) & _ & _ & Hf2 & _)
  end.
  exists s2. split; [exact Hdes|].
  simpl in Hl2, Htw2, Hre2, Hf2. rewrite Hl in Hl2.
  split.
  { rewrite Hl2. transitivity (listeners (window s) ++ []);
      [|apply app_nil_r].
    repeat
      (rewrite filter_app;
       rewrite (filter_ne_absent _ (listeners (window s)))
         by (apply Habs; unfold module_listeners;
             repeat first [apply list_elem_of_here|apply list_elem_of_further])).
    f_equal. }
  split; [exact Hd|]. rewrite Hf2, Htw2, Hre2, Hfr, Htw, Hre. repeat split.
Qed.

Lemma Parallax_destroy_round_trip_witness :
  let s := Sample.fresh Sample.page "true" in
  exists s' s'',
    Parallax Sample.noParse Sample.section s = Ok tt s' /\
    listeners (window s') = module_listeners /\
    destroy s' = Ok tt s'' /\
    listeners (window s'') = [].
Proof.
  intros s.
  assert (Habs : forall l, l ∈ module_listeners -> l ∉ listeners (window s))
    by (intros l _ Hin; vm_compute in Hin; inversion Hin).
  assert (H : Parallax Sample.noParse Sample.section s
              = Ok tt (Sample.constructed "true"))
    by (vm_compute; reflexivity).
  destruct (Parallax_destroy_round_trip _ _ _ _ Habs H)
    as (Hl & s'' & Hdes & Hl' & _).
  exists (Sample.constructed "true"), s''. auto.
Defined.

(** ** The batch refresh *)

Lemma set_matrix_same (s : State) :
  set_vars (with_matrix (matrix (vars s))) s = s.
Proof. now destruct s as [d w c [] t]. Qed.

Lemma updateMatrixItem_at (s : State) (pre post : list MatrixItem)
    (it : MatrixItem) :
  matrix (vars s) = pre ++ it :: post ->
  updateMatrixItem (length pre) s
  = Ok (differs s it)
       (set_vars (with_matrix (pre ++ refreshed s it :: post)) s).
Proof.
  intros Hm. unfold updateMatrixItem, bind, get.
  rewrite Hm, list_lookup_middle by reflexivity. cbn [deref ret]. cbv zeta.
  unfold refreshed. fold (differs s it). destruct (differs s it).
  - unfold setItem, modify, ret, set_vars. rewrite Hm.
    rewrite insert_app_r_alt, Nat.sub_diag by lia. reflexivity.
  - unfold ret. now rewrite <- Hm, set_matrix_same.
Qed.

Lemma updateEach_seq (post pre : list MatrixItem) (acc : bool) (s : State) :
  matrix (vars s) = pre ++ post ->
  updateEach (seq (length pre) (length post)) acc s
  = Ok (acc || existsb (differs s) post)
       (set_vars (with_matrix (pre ++ (refreshed s <$> post))) s).
Proof.
  revert pre acc s. induction post as [|it post IH]; intros pre acc s Hm.
  - simpl. unfold ret. rewrite orb_false_r, <- Hm, set_matrix_same. reflexivity.
  - cbn [length seq updateEach]. unfold bind.
    rewrite (updateMatrixItem_at s pre post it Hm).
    replace (S (length pre)) with (length (pre ++ [refreshed s it]))
      by (rewrite length_app; simpl; lia).
    rewrite IH by (simpl; now rewrite <- app_assoc).
    f_equal.
    + simpl. now destruct (differs s it), acc.
    + rewrite <- app_assoc. reflexivity.
Qed.

Lemma updateAllMatrixItems_run (s : State) :
  updateAllMatrixItems s
  = Ok (existsb (differs s) (matrix (vars s)))
       (set_vars (with_matrix (refreshed s <$> matrix (vars s))) s).
Proof.
  unfold updateAllMatrixItems, bind, get.
  exact (updateEach_seq (matrix (vars s)) [] false s eq_refl).
Qed.

Lemma differs_measured (s : State) (it : MatrixItem) :
  measurable s it -> differs s (measured s it) = false.
Proof.
  intros (Ht & Hl & Hw & Hh). unfold differs, measured; simpl.
  unfold is_number in *. now rewrite Ht, Hl, Hw, Hh.
Qed.

Lemma differs_refreshed (s : State) (it : MatrixItem) :
  measurable s it -> differs s (refreshed s it) = false.
Proof.
  intros Hn. unfold refreshed. destruct (differs s it) eqn:Hd; [|exact Hd].
  now apply differs_measured.
Qed.

(** X11.  [updateAllMatrixItems] never throws.  It returns [true] exactly
    when the test of [updateMatrixItem] holds for at least one item, and it
    replaces exactly those items by their measured versions; window,
    document and trace stay as they are. *)
Theorem updateAllMatrixItems_refreshes_each (s : State) :
  updateAllMatrixItems s
  = Ok (existsb (differs s) (matrix (vars s)))
       (set_vars (with_matrix (refreshed s <$> matrix (vars s))) s).
Proof. apply updateAllMatrixItems_run. Qed.

(** X12.  The batch refresh settles: when the layout of every original node
    consists of numbers (no [NaN]), a second [updateAllMatrixItems] right
    after the first returns [false] and changes nothing, so a
    [syncParallax] without [force] stops there. *)
Theorem updateAllMatrixItems_settles (s : State) :
  Forall (measurable s) (matrix (vars s)) ->
  exists b s',
    updateAllMatrixItems s = Ok b s' /\
    updateAllMatrixItems s' = Ok false s'.
Proof.
  intros Hn. eexists _, _. split; [apply updateAllMatrixItems_run|].
  set (s' := set_vars _ s). rewrite updateAllMatrixItems_run.
  assert (Hsame : forall it, differs s' it = differs s it) by reflexivity.
  assert (Hall : Forall (fun it => differs s' it = false) (matrix (vars s'))).
  { subst s'. simpl. apply Forall_fmap. eapply Forall_impl; [exact Hn|].
    intros it Hit. simpl. rewrite Hsame. now apply differs_refreshed. }
  f_equal.
  - apply not_true_is_false. intros Hex. apply existsb_exists in Hex
      as (it & Hin & Hd). rewrite Forall_forall in Hall.
    apply list_elem_of_In in Hin. apply Hall in Hin. congruence.
  - transitivity (set_vars (with_matrix (matrix (vars s'))) s');
      [|apply set_matrix_same].
    f_equal. f_equal.
    induction Hall as [|it l Hit Hl IH]; [reflexivity|].
    rewrite fmap_cons, IH. unfold refreshed. now rewrite Hit.
Qed.

Lemma updateAllMatrixItems_settles_witness :
  let s := Sample.constructed "true" in
  exists s',
    updateAllMatrixItems s = Ok true s' /\
    updateAllMatrixItems s' = Ok false s'.
Proof.
  intros s.
  assert (Hn : Forall (measurable s) (matrix (vars s))).
  { vm_compute matrix. repeat constructor. }
  destruct (updateAllMatrixItems_settles s Hn) as (b & s' & H1 & H2).
  exists s'. split; [|exact H2].
  assert (Hb : b = true).
  { assert (Hrun : exists s1, updateAllMatrixItems s = Ok true s1)
      by (eexists; vm_compute; reflexivity).
    destruct Hrun as [s1 Hrun]. congruence. }
  now rewrite <- Hb.
Defined.

(** * The scroll indicator *)

Lemma NoDup_fmap_filter {A B} (f : A -> B) (P : A -> Prop)
    `{forall x, Decision (P x)} (l : list A) :
  NoDup (f <$> l) -> NoDup (f <$> filter P l).
Proof.
  induction l as [|x l IH]; intros Hnd; [constructor|].
  rewrite fmap_cons in Hnd. apply NoDup_cons in Hnd as [Hx Hnd].
  rewrite filter_cons. destruct (decide (P x)); [|auto].
  rewrite fmap_cons. apply NoDup_cons. split; [|auto].
  intros Hin. apply Hx. apply list_elem_of_fmap in Hin as (y & -> & Hy).
  apply list_elem_of_filter in Hy as [_ Hy]. apply list_elem_of_fmap. eauto.
Qed.

Lemma indicator_recorded_subset (s : ScrollIndicator.State)
    (P : nat * ScrollIndicator.timeoutFn * float -> Prop)
    `{forall t, Decision (P t)} :
  ScrollIndicator.recorded s ->
  ScrollIndicator.recorded
    (ScrollIndicator.set_timers
       (filter P (ScrollIndicator.timers s)) (ScrollIndicator.nextTimer s) s).
Proof.
  intros (Hpos & Hnd & Hlt & Hshow & Hhide).
  split; [exact Hpos|]. split; [now apply NoDup_fmap_filter|]. simpl.
  split; [intros t [_ Ht]%list_elem_of_filter; auto|].
  split; intros id d [_ Ht]%list_elem_of_filter; eauto.
Qed.

Lemma indicator_recorded_classList (f : list string -> list string)
    (s : ScrollIndicator.State) :
  ScrollIndicator.recorded s ->
  ScrollIndicator.recorded (ScrollIndicator.set_classList f s).
Proof. intros H. exact H. Qed.

Lemma indicator_clear_hide (s : ScrollIndicator.State) :
  ScrollIndicator.recorded s ->
  let s' := ScrollIndicator.set_hideTimeout ScrollIndicator.Null
              (ScrollIndicator.clearTimeout (ScrollIndicator.hideTimeout s) s) in
  ScrollIndicator.recorded s' /\
  ScrollIndicator.pending ScrollIndicator.Hide s' = [].
Proof.
  intros Hs s'.
  assert (Hnone : forall id d,
            (id, ScrollIndicator.Hide, d) ∉ ScrollIndicator.timers s').
  { destruct Hs as (_ & _ & _ & _ & Hhide). subst s'.
    unfold ScrollIndicator.clearTimeout.
    destruct (ScrollIndicator.hideTimeout s) as [| |id0] eqn:Hh; simpl.
    - intros id d Hin. apply Hhide in Hin. congruence.
    - intros id d Hin. apply Hhide in Hin. congruence.
    - intros id d [Hne Hin]%list_elem_of_filter. simpl in Hne.
      apply Hhide in Hin. congruence. }
  split.
  - assert (Hc : ScrollIndicator.recorded
                   (ScrollIndicator.clearTimeout (ScrollIndicator.hideTimeout s) s)).
    { unfold ScrollIndicator.clearTimeout.
      destruct (ScrollIndicator.hideTimeout s);
        [exact Hs|exact Hs|now apply indicator_recorded_subset]. }
    destruct Hc as (Hpos & Hnd & Hlt & Hshow & _).
    split; [exact Hpos|]. split; [exact Hnd|]. split; [exact Hlt|].
    split; [exact Hshow|]. intros id d Hin. now apply Hnone in Hin.
  - apply elem_of_nil_inv. intros [[id f] d] [Hf Hin]%list_elem_of_filter.
    simpl in Hf. subst f. now apply Hnone in Hin.
Qed.

Lemma indicator_arm_hide (s : ScrollIndicator.State) :
  ScrollIndicator.recorded s ->
  ScrollIndicator.truthy_handle (ScrollIndicator.hideTimeout s) = false ->
  ScrollIndicator.recorded
    (ScrollIndicator.set_hideTimeout
       (ScrollIndicator.Id (ScrollIndicator.nextTimer s))
       (ScrollIndicator.setTimeout ScrollIndicator.Hide 500%float s).2).
Proof.
  intros (Hpos & Hnd & Hlt & Hshow & Hhide) Hfalsy.
  assert (Hnone : forall id d,
            (id, ScrollIndicator.Hide, d) ∉ ScrollIndicator.timers s).
  { intros id d Hin. pose proof (Hlt _ Hin) as Hid. simpl in Hid.
    apply Hhide in Hin. rewrite Hin in Hfalsy. simpl in Hfalsy.
    apply negb_false_iff, Nat.eqb_eq in Hfalsy. lia. }
  split; [simpl; lia|]. simpl. split; [|split; [|split]].
  - rewrite fmap_app. apply NoDup_app. split; [exact Hnd|]. split.
    + intros i Hi Hi'. apply list_elem_of_fmap in Hi as (t & -> & Ht).
      apply Hlt in Ht. simpl in Hi'. apply list_elem_of_singleton in Hi'. lia.
    + simpl. apply NoDup_singleton.
  - intros t [Ht|Ht]%elem_of_app.
    + apply Hlt in Ht. lia.
    + apply list_elem_of_singleton in Ht. subst t. simpl. lia.
  - intros id d [Hin|Hin]%elem_of_app; [eauto|].
    apply list_elem_of_singleton in Hin. discriminate.
  - intros id d [Hin|Hin]%elem_of_app; [now apply Hnone in Hin|].
    apply list_elem_of_singleton in Hin. congruence.
Qed.

Lemma indicator_handleScroll_recorded (s : ScrollIndicator.State) :
  ScrollIndicator.recorded s ->
  ScrollIndicator.recorded (ScrollIndicator.handleScroll s).
Proof.
  intros Hs. unfold ScrollIndicator.handleScroll.
  destruct (PrimFloat.ltb _ _).
  - destruct (PrimFloat.ltb _ _).
    + apply indicator_recorded_classList. now apply indicator_clear_hide.
    + destruct (ScrollIndicator.truthy_handle _) eqn:Ht; cbn [negb];
        [exact Hs|]. now apply indicator_arm_hide.
  - apply indicator_recorded_classList. now apply indicator_clear_hide.
Qed.

Lemma indicator_call_listener_recorded (s : ScrollIndicator.State)
    (f : ScrollIndicator.listener) :
  ScrollIndicator.recorded s ->
  ScrollIndicator.recorded (ScrollIndicator.call_listener s f).
Proof.
  intros Hs. destruct f; simpl;
    [now apply indicator_handleScroll_recorded|exact Hs|exact Hs].
Qed.

Lemma indicator_call_timeout_recorded (s : ScrollIndicator.State)
    (f : ScrollIndicator.timeoutFn) :
  ScrollIndicator.recorded s ->
  ScrollIndicator.recorded (ScrollIndicator.call_timeout s f).
Proof. intros Hs. destruct f; exact Hs. Qed.

Lemma indicator_onTweak_recorded (name : string) (s : ScrollIndicator.State) :
  ScrollIndicator.recorded s ->
  ScrollIndicator.recorded (ScrollIndicator.onTweak name s).
Proof.
  intros Hs. unfold ScrollIndicator.onTweak.
  destruct (bool_decide _); exact Hs.
Qed.

Lemma fold_left_invariant {A B} (P : A -> Prop) (f : A -> B -> A)
    (l : list B) (a : A) :
  (forall a b, P a -> P (f a b)) -> P a -> P (fold_left f l a).
Proof.
  intros Hf. revert a. induction l as [|b l IH]; intros a Ha; simpl; auto.
Qed.

Lemma indicator_browser_recorded (b : ScrollIndicator.browser_step)
    (s : ScrollIndicator.State) :
  ScrollIndicator.recorded s ->
  ScrollIndicator.recorded (ScrollIndicator.browser b s).
Proof.
  intros Hs. destruct b as [y h bottom|ev|id|name];
    unfold ScrollIndicator.browser, ScrollIndicator.dispatchEvent,
      ScrollIndicator.timeoutExpires, ScrollIndicator.tweakChanged.
  - exact Hs.
  - apply fold_left_invariant; [|exact Hs].
    intros a f. apply indicator_call_listener_recorded.
  - apply fold_left_invariant;
      [|now apply (indicator_recorded_subset s (fun t => t.1.1 ≠ id))].
    intros a f. apply indicator_call_timeout_recorded.
  - apply fold_left_invariant; [|exact Hs].
    intros a _. apply indicator_onTweak_recorded.
Qed.

Lemma indicator_pending_at_most_one (f : ScrollIndicator.timeoutFn)
    (s : ScrollIndicator.State) :
  ScrollIndicator.recorded s -> length (ScrollIndicator.pending f s) <= 1.
Proof.
  intros (_ & Hnd & _ & Hshow & Hhide). unfold ScrollIndicator.pending.
  pose proof (NoDup_fmap_filter (fun t => t.1.1) (fun t => t.1.2 = f) _ Hnd)
    as Hnd'.
  assert (Hall : forall t, t ∈ filter (fun t => t.1.2 = f)
                               (ScrollIndicator.timers s) ->
                 match f with
                 | ScrollIndicator.Show => ScrollIndicator.showTimeout s
                 | ScrollIndicator.Hide => ScrollIndicator.hideTimeout s
                 end = ScrollIndicator.Id t.1.1).
  { intros [[i g] d] [Hg Ht]%list_elem_of_filter. simpl in Hg. subst g.
    destruct f; simpl; eauto. }
  destruct (filter _ _) as [|a [|b l]]; simpl; try lia.
  exfalso. rewrite !fmap_cons in Hnd'. apply NoDup_cons in Hnd' as [Hab _].
  apply Hab.
  pose proof (Hall a (list_elem_of_here _ _)) as Ha.
  pose proof (Hall b (list_elem_of_further _ _ _ (list_elem_of_here _ _))) as Hb.
  replace a.1.1 with b.1.1 by congruence. apply list_elem_of_here.
Qed.

(** X13.  The timeouts of the scroll indicator are under control: if every
    pending timeout is the one recorded in [showTimeout] or [hideTimeout],
    this is still so after anything the browser does (a layout change, an
    event, an expiring timeout, a tweak change), and at most one timeout of
    each kind is pending: [handleScroll] sets no second hide timeout while
    one is recorded. *)
Theorem indicator_timeouts_recorded (b : ScrollIndicator.browser_step)
    (s : ScrollIndicator.State) :
  ScrollIndicator.recorded s ->
  ScrollIndicator.recorded (ScrollIndicator.browser b s) /\
  length (ScrollIndicator.pending ScrollIndicator.Show
            (ScrollIndicator.browser b s)) <= 1 /\
  length (ScrollIndicator.pending ScrollIndicator.Hide
            (ScrollIndicator.browser b s)) <= 1.
Proof.
  intros Hs. pose proof (indicator_browser_recorded b s Hs) as Hs'.
  split; [exact Hs'|]. split; now apply indicator_pending_at_most_one.
Qed.

Lemma indicator_constructed_recorded (s : ScrollIndicator.State) :
  ScrollIndicator.timers s = [] ->
  (0 < ScrollIndicator.nextTimer s)%nat ->
  ScrollIndicator.recorded (ScrollIndicator.ScrollIndicator s).
Proof.
  intros Hnil Hpos. unfold ScrollIndicator.ScrollIndicator. simpl.
  rewrite Hnil. split; [simpl; lia|]. simpl.
  split; [apply NoDup_singleton|].
  split; [intros t Ht%list_elem_of_singleton; subst t; simpl; lia|].
  split; intros id d Hin%list_elem_of_singleton; congruence.
Qed.

Lemma indicator_timeouts_recorded_witness :
  let s := ScrollIndicator.ScrollIndicator ScrollIndicator.sample in
  let b := ScrollIndicator.Event ScrollIndicator.Scroll in
  ScrollIndicator.recorded s /\
  ScrollIndicator.recorded (ScrollIndicator.browser b s) /\
  length (ScrollIndicator.pending ScrollIndicator.Show
            (ScrollIndicator.browser b s)) = 1.
Proof.
  intros s b.
  assert (Hs : ScrollIndicator.recorded s)
    by (apply indicator_constructed_recorded; [reflexivity|simpl; lia]).
  split; [exact Hs|].
  split; [exact (proj1 (indicator_timeouts_recorded b s Hs))|].
  vm_compute. reflexivity.
Defined.

Lemma indicator_addEventListener_fresh (ev : ScrollIndicator.event)
    (f : ScrollIndicator.listener) (s : ScrollIndicator.State) :
  (ev, f) ∉ ScrollIndicator.listeners s ->
  ScrollIndicator.listeners (ScrollIndicator.addEventListener ev f s)
  = ScrollIndicator.listeners s ++ [(ev, f)].
Proof. intros Habs. simpl. now rewrite bool_decide_eq_false_2. Qed.

(** X14.  What the constructor of the scroll indicator sets up.  On a page
    with no pending timeout and none of its listeners registered,
    [ScrollIndicator(element)] registers its three listeners and one tweak
    watcher, takes the element's bottom edge as the browser reports it (the
    page offset is added on a resize only), leaves the class list alone and
    has exactly one timeout pending, the one that shows the element after a
    second, recorded in [showTimeout]. *)
Theorem ScrollIndicator_sets_up (s : ScrollIndicator.State) :
  ScrollIndicator.timers s = [] ->
  (0 < ScrollIndicator.nextTimer s)%nat ->
  (forall l, l ∈ ScrollIndicator.module_listeners ->
             l ∉ ScrollIndicator.listeners s) ->
  let s' := ScrollIndicator.ScrollIndicator s in
  ScrollIndicator.recorded s' /\
  ScrollIndicator.timers s'
  = [(ScrollIndicator.nextTimer s, ScrollIndicator.Show, 1000%float)] /\
  ScrollIndicator.showTimeout s' = ScrollIndicator.Id (ScrollIndicator.nextTimer s) /\
  ScrollIndicator.hideTimeout s' = ScrollIndicator.Undefined /\
  ScrollIndicator.bottomEdge s' = ScrollIndicator.rect_bottom s /\
  ScrollIndicator.listeners s'
  = ScrollIndicator.listeners s ++ ScrollIndicator.module_listeners /\
  ScrollIndicator.tweakWatchers s'
  = ScrollIndicator.tweakWatchers s ++ [ScrollIndicator.OnTweak] /\
  ScrollIndicator.classList s' = ScrollIndicator.classList s.
Proof.
  intros Hnil Hpos Habs s'.
  split; [now apply indicator_constructed_recorded|].
  subst s'. unfold ScrollIndicator.ScrollIndicator. simpl. rewrite Hnil.
  repeat (split; [reflexivity|]). split; [|split; reflexivity].
  assert (Hin : forall l, l ∈ ScrollIndicator.module_listeners ->
                 l ∈ ScrollIndicator.listeners s -> False)
    by (intros l Hl; now apply Habs).
  rewrite (bool_decide_eq_false_2
             ((ScrollIndicator.Scroll, ScrollIndicator.HandleScroll)
              ∈ ScrollIndicator.listeners s))
    by (apply Habs; unfold ScrollIndicator.module_listeners;
        repeat first [apply list_elem_of_here|apply list_elem_of_further]).
  rewrite (bool_decide_eq_false_2
             ((ScrollIndicator.Resize, ScrollIndicator.HandleResize) ∈ _)).
  2:{ intros [H|H]%elem_of_app.
      - revert H. apply Hin. unfold ScrollIndicator.module_listeners.
        repeat first [apply list_elem_of_here|apply list_elem_of_further].
      - apply list_elem_of_singleton in H. discriminate. }
  rewrite (bool_decide_eq_false_2
             ((ScrollIndicator.Click, ScrollIndicator.HandleClick) ∈ _)).
  2:{ intros [[H|H]%elem_of_app|H]%elem_of_app.
      - revert H. apply Hin. unfold ScrollIndicator.module_listeners.
        repeat first [apply list_elem_of_here|apply list_elem_of_further].
      - apply list_elem_of_singleton in H. discriminate.
      - apply list_elem_of_singleton in H. discriminate. }
  now rewrite <- !app_assoc.
Qed.

Lemma ScrollIndicator_sets_up_witness :
  let s' := ScrollIndicator.ScrollIndicator ScrollIndicator.sample in
  ScrollIndicator.recorded s' /\
  ScrollIndicator.timers s' = [(1%nat, ScrollIndicator.Show, 1000%float)] /\
  ScrollIndicator.listeners s' = ScrollIndicator.module_listeners.
Proof.
  assert (Hnil : ScrollIndicator.timers ScrollIndicator.sample = [])
    by reflexivity.
  assert (Hpos : (0 < ScrollIndicator.nextTimer ScrollIndicator.sample)%nat)
    by (simpl; lia).
  assert (Habs : forall l, l ∈ ScrollIndicator.module_listeners ->
                           l ∉ ScrollIndicator.listeners ScrollIndicator.sample)
    by (intros l _ Hin; simpl in Hin; inversion Hin).
  destruct (ScrollIndicator_sets_up ScrollIndicator.sample Hnil Hpos Habs)
    as (Hrec & Ht & _ & _ & _ & Hl & _).
  split; [exact Hrec|]. split; [exact Ht|exact Hl].
Defined.

Lemma indicator_clearTimeout_fields (h : ScrollIndicator.handle)
    (s : ScrollIndicator.State) :
  let s' := ScrollIndicator.clearTimeout h s in
  ScrollIndicator.showTimeout s' = ScrollIndicator.showTimeout s /\
  ScrollIndicator.hideTimeout s' = ScrollIndicator.hideTimeout s /\
  ScrollIndicator.nextTimer s' = ScrollIndicator.nextTimer s /\
  ScrollIndicator.tweakWatchers s' = ScrollIndicator.tweakWatchers s /\
  ScrollIndicator.classList s' = ScrollIndicator.classList s /\
  ScrollIndicator.jumps s' = ScrollIndicator.jumps s /\
  ScrollIndicator.bottomEdge s' = ScrollIndicator.bottomEdge s /\
  ScrollIndicator.listeners s' = ScrollIndicator.listeners s /\
  forall t, t ∈ ScrollIndicator.timers s' ->
    t ∈ ScrollIndicator.timers s /\ h <> ScrollIndicator.Id t.1.1.
Proof.
  destruct h as [| |i]; simpl; do 8 (split; [reflexivity|]); intros t Ht.
  - split; [exact Ht|discriminate].
  - split; [exact Ht|discriminate].
  - apply list_elem_of_filter in Ht as [Hne Ht]. split; [exact Ht|congruence].
Qed.

Lemma indicator_destroy_fields (s : ScrollIndicator.State) :
  let s' := ScrollIndicator.destroy s in
  ScrollIndicator.showTimeout s' = ScrollIndicator.Null /\
  ScrollIndicator.hideTimeout s' = ScrollIndicator.Null /\
  ScrollIndicator.nextTimer s' = ScrollIndicator.nextTimer s /\
  ScrollIndicator.tweakWatchers s' = ScrollIndicator.tweakWatchers s /\
  ScrollIndicator.classList s' = ScrollIndicator.classList s /\
  ScrollIndicator.jumps s' = ScrollIndicator.jumps s /\
  ScrollIndicator.bottomEdge s' = ScrollIndicator.bottomEdge s /\
  ScrollIndicator.listeners s'
  = filter (fun l => l ≠ (ScrollIndicator.Click, ScrollIndicator.HandleClick))
      (filter (fun l => l ≠ (ScrollIndicator.Resize, ScrollIndicator.HandleResize))
         (filter (fun l => l ≠ (ScrollIndicator.Scroll, ScrollIndicator.HandleScroll))
            (ScrollIndicator.listeners s))) /\
  forall t, t ∈ ScrollIndicator.timers s' ->
    t ∈ ScrollIndicator.timers s /\
    ScrollIndicator.showTimeout s <> ScrollIndicator.Id t.1.1 /\
    ScrollIndicator.hideTimeout s <> ScrollIndicator.Id t.1.1.
Proof.
  intros s'. subst s'. unfold ScrollIndicator.destroy. cbv zeta.
  set (s1 := ScrollIndicator.removeEventListener _ _ _).
  destruct (indicator_clearTimeout_fields (ScrollIndicator.showTimeout s1) s1)
    as (A1 & A2 & A3 & A4 & A5 & A6 & A7 & A8 & A9).
  set (s2 := ScrollIndicator.clearTimeout (ScrollIndicator.showTimeout s1) s1)
    in *.
  destruct (indicator_clearTimeout_fields (ScrollIndicator.hideTimeout s2) s2)
    as (B1 & B2 & B3 & B4 & B5 & B6 & B7 & B8 & B9).
  set (s3 := ScrollIndicator.clearTimeout (ScrollIndicator.hideTimeout s2) s2)
    in *.
  cbn [ScrollIndicator.set_hideTimeout ScrollIndicator.set_showTimeout
       ScrollIndicator.showTimeout ScrollIndicator.hideTimeout
       ScrollIndicator.nextTimer ScrollIndicator.tweakWatchers
       ScrollIndicator.classList ScrollIndicator.jumps
       ScrollIndicator.bottomEdge ScrollIndicator.listeners
       ScrollIndicator.timers].
  rewrite B3, B4, B5, B6, B7, B8, A3, A4, A5, A6, A7, A8.
  do 8 (split; [reflexivity|]).
  intros t Ht. apply B9 in Ht as [Ht Hh]. apply A9 in Ht as [Ht Hs].
  rewrite A2 in Hh. auto.
Qed.

Lemma indicator_destroy_result (s : ScrollIndicator.State) :
  ScrollIndicator.recorded s ->
  let s' := ScrollIndicator.destroy s in
  ScrollIndicator.timers s' = [] /\
  (forall l, l ∈ ScrollIndicator.module_listeners ->
             l ∉ ScrollIndicator.listeners s') /\
  ScrollIndicator.showTimeout s' = ScrollIndicator.Null /\
  ScrollIndicator.hideTimeout s' = ScrollIndicator.Null /\
  ScrollIndicator.tweakWatchers s' = ScrollIndicator.tweakWatchers s /\
  ScrollIndicator.classList s' = ScrollIndicator.classList s.
Proof.
  intros (_ & _ & _ & Hshow & Hhide) s'.
  destruct (indicator_destroy_fields s)
    as (Hs & Hh & _ & Htw & Hcl & _ & _ & Hl & Ht).
  fold s' in Hs, Hh, Htw, Hcl, Hl, Ht.
  split.
  { apply elem_of_nil_inv. intros [[id f] d] Hin.
    apply Ht in Hin as (Hin & Hns & Hnh). simpl in Hns, Hnh.
    destruct f; [apply Hshow in Hin|apply Hhide in Hin]; congruence. }
  split.
  { intros l Hin. rewrite Hl, !list_elem_of_filter.
    intros (H3 & H2 & H1 & _). unfold ScrollIndicator.module_listeners in Hin.
    repeat (apply elem_of_cons in Hin as [Hin|Hin]; [congruence|]).
    now apply elem_of_nil in Hin. }
  auto.
Qed.

(** X15.  [destroy] of the scroll indicator.  When every pending timeout is
    recorded, [destroy] leaves no timeout pending and none of the three
    listeners registered, and sets both variables to [null]; the tweak
    watcher stays, the class list is not touched. *)
Theorem indicator_destroy_clears (s : ScrollIndicator.State) :
  ScrollIndicator.recorded s ->
  let s' := ScrollIndicator.destroy s in
  ScrollIndicator.timers s' = [] /\
  (forall l, l ∈ ScrollIndicator.module_listeners ->
             l ∉ ScrollIndicator.listeners s') /\
  ScrollIndicator.showTimeout s' = ScrollIndicator.Null /\
  ScrollIndicator.hideTimeout s' = ScrollIndicator.Null /\
  ScrollIndicator.tweakWatchers s' = ScrollIndicator.tweakWatchers s /\
  ScrollIndicator.classList s' = ScrollIndicator.classList s.
Proof. apply indicator_destroy_result. Qed.

Lemma indicator_destroy_clears_witness :
  let s := ScrollIndicator.ScrollIndicator ScrollIndicator.sample in
  ScrollIndicator.timers s = [(1%nat, ScrollIndicator.Show, 1000%float)] /\
  ScrollIndicator.timers (ScrollIndicator.destroy s) = [] /\
  ScrollIndicator.tweakWatchers (ScrollIndicator.destroy s)
  = [ScrollIndicator.OnTweak].
Proof.
  intros s.
  assert (Hs : ScrollIndicator.recorded s)
    by (apply indicator_constructed_recorded; [reflexivity|simpl; lia]).
  destruct (indicator_destroy_clears s Hs) as (Ht & _ & _ & _ & Htw & _).
  split; [reflexivity|]. split; [exact Ht|]. rewrite Htw. reflexivity.
Defined.

Lemma indicator_onTweak_fields (name : string) (a : ScrollIndicator.State) :
  let a1 := ScrollIndicator.onTweak name a in
  ScrollIndicator.timers a1 = ScrollIndicator.timers a /\
  ScrollIndicator.nextTimer a1 = ScrollIndicator.nextTimer a /\
  ScrollIndicator.listeners a1 = ScrollIndicator.listeners a /\
  ScrollIndicator.jumps a1 = ScrollIndicator.jumps a /\
  ScrollIndicator.showTimeout a1 = ScrollIndicator.showTimeout a /\
  ScrollIndicator.hideTimeout a1 = ScrollIndicator.hideTimeout a /\
  ScrollIndicator.bottomEdge a1 = ScrollIndicator.bottomEdge a /\
  (ScrollIndicator.classList a1 = ScrollIndicator.classList a \/
   name ∈ ScrollIndicator.tweaks /\ "hidden" ∉ ScrollIndicator.classList a1).
Proof.
  unfold ScrollIndicator.onTweak.
  destruct (bool_decide (name ∈ ScrollIndicator.tweaks)) eqn:Hn; simpl.
  - apply bool_decide_eq_true in Hn. do 7 (split; [reflexivity|]). right.
    split; [exact Hn|]. unfold ScrollIndicator.classList_remove.
    rewrite list_elem_of_filter. tauto.
  - do 7 (split; [reflexivity|]). now left.
Qed.

(** X16.  After [destroy] only the tweak watcher is left.  If the listeners
    of the page are those of the indicator and every pending timeout is
    recorded, then after [destroy] nothing the browser does sets a timeout,
    calls [jump] or changes a variable of the controller; the class list
    changes only when one of the four watched tweaks changes, and then
    [hidden] is removed: the watcher of [Tweak.watch] is never taken back. *)
Theorem indicator_destroyed_is_inert (b : ScrollIndicator.browser_step)
    (s : ScrollIndicator.State) :
  ScrollIndicator.recorded s ->
  (forall l, l ∈ ScrollIndicator.listeners s ->
             l ∈ ScrollIndicator.module_listeners) ->
  let s0 := ScrollIndicator.destroy s in
  let s' := ScrollIndicator.browser b s0 in
  ScrollIndicator.timers s' = [] /\
  ScrollIndicator.nextTimer s' = ScrollIndicator.nextTimer s0 /\
  ScrollIndicator.listeners s' = [] /\
  ScrollIndicator.jumps s' = ScrollIndicator.jumps s0 /\
  ScrollIndicator.showTimeout s' = ScrollIndicator.Null /\
  ScrollIndicator.hideTimeout s' = ScrollIndicator.Null /\
  ScrollIndicator.bottomEdge s' = ScrollIndicator.bottomEdge s0 /\
  (ScrollIndicator.classList s' = ScrollIndicator.classList s0 \/
   exists name, b = ScrollIndicator.TweakChanged name /\
     name ∈ ScrollIndicator.tweaks /\ "hidden" ∉ ScrollIndicator.classList s').
Proof.
  intros Hs Hown s0 s'.
  destruct (indicator_destroy_result s Hs) as (Ht & Hgone & Hsh & Hhi & _).
  fold s0 in Ht, Hgone, Hsh, Hhi.
  assert (Hl : ScrollIndicator.listeners s0 = []).
  { apply elem_of_nil_inv. intros l Hin. apply (Hgone l); [|exact Hin].
    apply Hown. destruct (indicator_destroy_fields s)
      as (_ & _ & _ & _ & _ & _ & _ & Hl & _).
    fold s0 in Hl. rewrite Hl, !list_elem_of_filter in Hin. tauto. }
  subst s'. destruct b as [y h bottom|ev|id|name];
    unfold ScrollIndicator.browser, ScrollIndicator.dispatchEvent,
      ScrollIndicator.timeoutExpires, ScrollIndicator.tweakChanged.
  - simpl. auto 10.
  - rewrite Hl. simpl. auto 10.
  - rewrite Ht. simpl. auto 10.
  - assert (Hfold : forall (ws : list ScrollIndicator.watcher) a,
              ScrollIndicator.timers a = [] ->
              ScrollIndicator.listeners a = [] ->
              ScrollIndicator.showTimeout a = ScrollIndicator.Null ->
              ScrollIndicator.hideTimeout a = ScrollIndicator.Null ->
              let a' := fold_left (fun s _ => ScrollIndicator.onTweak name s) ws a in
              ScrollIndicator.timers a' = [] /\
              ScrollIndicator.nextTimer a' = ScrollIndicator.nextTimer a /\
              ScrollIndicator.listeners a' = [] /\
              ScrollIndicator.jumps a' = ScrollIndicator.jumps a /\
              ScrollIndicator.showTimeout a' = ScrollIndicator.Null /\
              ScrollIndicator.hideTimeout a' = ScrollIndicator.Null /\
              ScrollIndicator.bottomEdge a' = ScrollIndicator.bottomEdge a /\
              (ScrollIndicator.classList a' = ScrollIndicator.classList a \/
               name ∈ ScrollIndicator.tweaks /\
               "hidden" ∉ ScrollIndicator.classList a')).
    { induction ws as [|w ws IH]; intros a Hta Hla Hsa Hha; simpl.
      - auto 10.
      - destruct (indicator_onTweak_fields name a)
          as (F1 & F2 & F3 & F4 & F5 & F6 & F7 & F8).
        destruct (IH (ScrollIndicator.onTweak name a))
          as (H1 & H2 & H3 & H4 & H5 & H6 & H7 & H8); try congruence.
        split; [exact H1|]. split; [congruence|]. split; [exact H3|].
        split; [congruence|]. split; [exact H5|]. split; [exact H6|].
        split; [congruence|].
        destruct H8 as [H8|H8]; [|now right].
        destruct F8 as [F8|[Hn F8]]; [left; congruence|right].
        split; [exact Hn|]. now rewrite H8. }
    destruct (Hfold (ScrollIndicator.tweakWatchers s0) s0 Ht Hl Hsh Hhi)
      as (H1 & H2 & H3 & H4 & H5 & H6 & H7 & H8).
    repeat (split; [assumption|]).
    destruct H8 as [H8|[Hn H8]]; [now left|right; eauto].
Qed.

Lemma indicator_destroyed_is_inert_witness :
  let s := ScrollIndicator.ScrollIndicator ScrollIndicator.sample in
  let s0 := ScrollIndicator.destroy s in
  ScrollIndicator.timers
    (ScrollIndicator.browser (ScrollIndicator.Event ScrollIndicator.Scroll) s0)
  = [] /\
  ScrollIndicator.classList
    (ScrollIndicator.browser
       (ScrollIndicator.TweakChanged "tweak-index-page-scroll-indicator") s0)
  = ["scroll-indicator"].
Proof.
  intros s s0.
  assert (Hs : ScrollIndicator.recorded s)
    by (apply indicator_constructed_recorded; [reflexivity|simpl; lia]).
  assert (Hown : forall l, l ∈ ScrollIndicator.listeners s ->
                           l ∈ ScrollIndicator.module_listeners)
    by (intros l Hl; exact Hl).
  split.
  - exact (proj1 (indicator_destroyed_is_inert
                    (ScrollIndicator.Event ScrollIndicator.Scroll) s Hs Hown)).
  - vm_compute. reflexivity.
Defined.

Lemma classList_add_elem (c : string) (l : list string) :
  c ∈ ScrollIndicator.classList_add c l.
Proof.
  unfold ScrollIndicator.classList_add. destruct (bool_decide (c ∈ l)) eqn:H.
  - now apply bool_decide_eq_true in H.
  - apply elem_of_app. right. apply list_elem_of_here.
Qed.

Lemma classList_remove_elem (c : string) (l : list string) :
  c ∉ ScrollIndicator.classList_remove c l.
Proof.
  unfold ScrollIndicator.classList_remove. rewrite list_elem_of_filter. tauto.
Qed.

(** X17.  The scroll handler of the indicator on a page where the bottom
    edge is not below the window's height (this includes a bottom edge that
    is [NaN]): after [handleScroll] the element is hidden exactly when the
    page is scrolled ([pageYOffset > 0]), no hide timeout is pending and
    [hideTimeout] is [null]. *)
Theorem indicator_handleScroll_short_page (s : ScrollIndicator.State) :
  ScrollIndicator.recorded s ->
  PrimFloat.ltb (ScrollIndicator.innerHeight s) (ScrollIndicator.bottomEdge s)
  = false ->
  let s' := ScrollIndicator.handleScroll s in
  ("hidden" ∈ ScrollIndicator.classList s' <->
   PrimFloat.ltb 0 (ScrollIndicator.pageYOffset s) = true) /\
  ScrollIndicator.pending ScrollIndicator.Hide s' = [] /\
  ScrollIndicator.hideTimeout s' = ScrollIndicator.Null /\
  ScrollIndicator.recorded s'.
Proof.
  intros Hs Hshort s'. subst s'. unfold ScrollIndicator.handleScroll.
  rewrite Hshort. cbv zeta.
  destruct (indicator_clear_hide s Hs) as [Hrec Hnone].
  split; [|split; [exact Hnone|split; [|exact Hrec]]].
  - assert (Hy : ScrollIndicator.pageYOffset
                   (ScrollIndicator.set_hideTimeout ScrollIndicator.Null
                      (ScrollIndicator.clearTimeout
                         (ScrollIndicator.hideTimeout s) s))
                 = ScrollIndicator.pageYOffset s)
      by (now destruct (ScrollIndicator.hideTimeout s)).
    rewrite Hy. destruct (PrimFloat.ltb 0 (ScrollIndicator.pageYOffset s));
      cbn [ScrollIndicator.classList_toggle ScrollIndicator.set_classList
           ScrollIndicator.classList].
    + split; [reflexivity|intros _; apply classList_add_elem].
    + split; [intros H; now apply classList_remove_elem in H|discriminate].
  - reflexivity.
Qed.

Lemma indicator_handleScroll_short_page_witness :
  let s := ScrollIndicator.set_layout 120 800 580
             (ScrollIndicator.ScrollIndicator ScrollIndicator.sample) in
  let s' := ScrollIndicator.handleScroll s in
  "hidden" ∈ ScrollIndicator.classList s' /\
  ScrollIndicator.hideTimeout s' = ScrollIndicator.Null.
Proof.
  intros s s'.
  assert (Hs : ScrollIndicator.recorded s)
    by (apply (indicator_constructed_recorded ScrollIndicator.sample);
        [reflexivity|simpl; lia]).
  assert (Hshort : PrimFloat.ltb (ScrollIndicator.innerHeight s)
                     (ScrollIndicator.bottomEdge s) = false)
    by (vm_compute; reflexivity).
  destruct (indicator_handleScroll_short_page s Hs Hshort)
    as (Hhid & _ & Hnull & _).
  split; [apply Hhid; vm_compute; reflexivity|exact Hnull].
Defined.

(** X18.  The scroll handler of the indicator on a page where the bottom
    edge is below the window's height.  [handleScroll] never hides the
    element itself.  While the window's bottom is above the bottom edge it
    shows the element and cancels the hide timeout; otherwise it leaves the
    class list alone and sees to it that a hide timeout is recorded, setting
    one (after 500) only if none is. *)
Theorem indicator_handleScroll_tall_page (s : ScrollIndicator.State) :
  ScrollIndicator.recorded s ->
  PrimFloat.ltb (ScrollIndicator.innerHeight s) (ScrollIndicator.bottomEdge s)
  = true ->
  let s' := ScrollIndicator.handleScroll s in
  ScrollIndicator.recorded s' /\
  (if PrimFloat.ltb
        (ScrollIndicator.pageYOffset s + ScrollIndicator.innerHeight s)%float
        (ScrollIndicator.bottomEdge s)
   then
    ("hidden" ∉ ScrollIndicator.classList s') /\
    ScrollIndicator.pending ScrollIndicator.Hide s' = [] /\
    ScrollIndicator.hideTimeout s' = ScrollIndicator.Null
   else
    ScrollIndicator.classList s' = ScrollIndicator.classList s /\
    ScrollIndicator.truthy_handle (ScrollIndicator.hideTimeout s') = true /\
    (ScrollIndicator.truthy_handle (ScrollIndicator.hideTimeout s) = true ->
     s' = s) /\
    (ScrollIndicator.truthy_handle (ScrollIndicator.hideTimeout s) = false ->
     ScrollIndicator.pending ScrollIndicator.Hide s'
     = [(ScrollIndicator.nextTimer s, ScrollIndicator.Hide, 500%float)])).
Proof.
  intros Hs Htall s'.
  split; [now apply indicator_handleScroll_recorded|].
  subst s'. unfold ScrollIndicator.handleScroll. rewrite Htall.
  destruct (PrimFloat.ltb (_ + _) _).
  - cbv zeta. destruct (indicator_clear_hide s Hs) as [_ Hnone].
    split; [apply classList_remove_elem|]. split; [exact Hnone|reflexivity].
  - destruct (ScrollIndicator.truthy_handle (ScrollIndicator.hideTimeout s))
      eqn:Ht; cbn [negb].
    + repeat split; try assumption; discriminate.
    + destruct Hs as (Hpos & _ & Hlt & _ & Hhide).
      split; [reflexivity|]. split.
      { simpl. apply negb_true_iff, Nat.eqb_neq. lia. }
      split; [discriminate|]. intros _.
      unfold ScrollIndicator.pending. simpl. rewrite filter_app.
      assert (Hold : filter (fun t => t.1.2 = ScrollIndicator.Hide)
                       (ScrollIndicator.timers s) = []).
      { apply elem_of_nil_inv. intros [[id f] d] [Hf Hin]%list_elem_of_filter.
        simpl in Hf. subst f. pose proof (Hlt _ Hin) as Hid. simpl in Hid.
        apply Hhide in Hin. rewrite Hin in Ht. simpl in Ht.
        apply negb_false_iff, Nat.eqb_eq in Ht. lia. }
      rewrite Hold. reflexivity.
Qed.

Lemma indicator_handleScroll_tall_page_witness :
  let s := ScrollIndicator.handleResize
             (ScrollIndicator.set_layout 0 800 2000
                (ScrollIndicator.ScrollIndicator ScrollIndicator.sample)) in
  let below := ScrollIndicator.set_layout 1500 800 500 s in
  ScrollIndicator.pending ScrollIndicator.Hide
    (ScrollIndicator.handleScroll below)
  = [(2%nat, ScrollIndicator.Hide, 500%float)] /\
  ScrollIndicator.classList (ScrollIndicator.handleScroll below)
  = ScrollIndicator.classList below.
Proof.
  intros s below.
  assert (Hs : ScrollIndicator.recorded below)
    by (apply (indicator_constructed_recorded ScrollIndicator.sample);
        [reflexivity|simpl; lia]).
  assert (Htall : PrimFloat.ltb (ScrollIndicator.innerHeight below)
                    (ScrollIndicator.bottomEdge below) = true)
    by (vm_compute; reflexivity).
  pose proof (indicator_handleScroll_tall_page below Hs Htall) as [_ H].
  assert (Hcut : PrimFloat.ltb
                   (ScrollIndicator.pageYOffset below
                    + ScrollIndicator.innerHeight below)%float
                   (ScrollIndicator.bottomEdge below) = false)
    by (vm_compute; reflexivity).
  rewrite Hcut in H. destruct H as (Hcl & _ & _ & Harm).
  split; [apply Harm; vm_compute; reflexivity|exact Hcl].
Defined.

(** * Synchronizing, then scrolling *)

Lemma scroll_returns_iff (arg : float) (s : State) :
  (exists s', scroll arg s = Ok tt s') <->
  (isParallaxEnabled s = true ->
   forall it, it ∈ matrix (vars s) -> parallaxItem it <> None).
Proof.
  split.
  - intros [s' Hrun] Hon it Hin Hnone.
    destruct (proj2 (scroll_throws_iff arg s TypeError)) as [s'' Hthrow];
      [eauto 6|congruence].
  - intros Hall. destruct (scroll arg s) as [[] s'|e s'] eqn:Hrun; [eauto|].
    destruct (proj1 (scroll_throws_iff arg s e)) as (_ & Hon & it & Hin & Hnone);
      [eauto|]. now destruct (Hall Hon it Hin).
Qed.

(** X19.  A pass of [syncParallax] that returns with parallax enabled
    leaves every item of the matrix with an overlay node, because the pass
    ends with a [scroll] of its own; so from the state it leaves, [scroll]
    returns for every argument. *)
Theorem scroll_returns_after_syncParallax (force : jsval) (s s' : State) :
  isParallaxEnabled s = true ->
  strict_eq_false force = false ->
  syncParallax force s = Ok tt s' ->
  isParallaxEnabled s' = true /\
  (forall it, it ∈ matrix (vars s') -> parallaxItem it <> None) /\
  forall arg, exists s'', scroll arg s' = Ok tt s''.
Proof.
  intros Hon Hforce H. rewrite syncParallax_after_windowHeight in H.
  set (s0 := set_vars _ s) in H.
  assert (Hon0 : isParallaxEnabled s0 = true) by exact Hon.
  inv_bind H as hasUpdated s1 Hup.
  rewrite Hforce, andb_false_r in H.
  pose proof (always_updateAllMatrixItems _ frame_same_env s0) as He1.
  rewrite Hup in He1.
  unfold syncPass in H. inv_bind H as sa sb Hget. injection Hget as <- <-.
  inv_bind H as kept s2 Hpass.
  match type of Hpass with filterM ?f ?l _ = _ =>
    pose proof (always_filterM _ (frame_refl _ frame_same_env)
                  (frame_trans _ frame_same_env) f l
                  (fun i => always_syncItem _ frame_same_env _ i) s1) as He2
  end.
  rewrite Hpass in He2.
  unfold bind at 1, get at 1 in H.
  assert (Hon2 : isParallaxEnabled s2 = true).
  { rewrite (same_env_isParallaxEnabled s1 s2 He2).
    now rewrite (same_env_isParallaxEnabled s0 s1 He1). }
  rewrite Hon2 in H.
  assert (Hall : forall it, it ∈ matrix (vars s2) -> parallaxItem it <> None).
  { apply (proj1 (scroll_returns_iff (page_scrollTop s) s2)); eauto. }
  apply scroll_logs in H as [es ->].
  split; [exact Hon2|]. split; [exact Hall|].
  intros arg. apply scroll_returns_iff. intros _. exact Hall.
Qed.

Lemma scroll_returns_after_syncParallax_witness :
  let s := Sample.constructed "true" in
  exists s',
    syncParallax (JNum 16) s = Ok tt s' /\
    (forall it, it ∈ matrix (vars s') -> parallaxItem it <> None) /\
    exists s'', scroll 450 s' = Ok tt s''.
Proof.
  intros s.
  assert (Hon : isParallaxEnabled s = true) by (vm_compute; reflexivity).
  assert (Hrun : syncParallax (JNum 16) s
                 = Ok tt (Sample.state_of (syncParallax (JNum 16) s)))
    by (vm_compute; reflexivity).
  destruct (scroll_returns_after_syncParallax (JNum 16) s _ Hon eq_refl Hrun)
    as (_ & Hall & Hscroll).
  eexists. split; [exact Hrun|]. split; [exact Hall|apply Hscroll].
Defined.

(** * The end of the frame loop *)

Lemma filter_fst_unique {B} (l : list (nat * B)) (id : nat) (f : B) :
  NoDup l.*1 -> (id, f) ∈ l -> filter (fun t => t.1 = id) l = [(id, f)].
Proof.
  induction l as [|[i g] l IH]; intros Hnd Hin;
    [now apply elem_of_nil in Hin|].
  rewrite fmap_cons in Hnd. apply NoDup_cons in Hnd as [Hi Hnd]. simpl in Hi.
  rewrite filter_cons. simpl. apply elem_of_cons in Hin as [Heq|Hin].
  - injection Heq as <- <-. rewrite decide_True by reflexivity. f_equal.
    apply elem_of_nil_inv. intros [j h] [Hj Hjh]%list_elem_of_filter.
    simpl in Hj. subst j. apply Hi. apply list_elem_of_fmap.
    exists (id, h). auto.
  - rewrite decide_False; [now apply IH|].
    intros ->. apply Hi. apply list_elem_of_fmap. exists (id, f). auto.
Qed.

(** X20.  How the frame loop ends.  When the timeout set by [handleScroll]
    expires, [scrolling] is reset and pointer events are switched back on,
    and no such timeout is pending any more; the frame callback that is
    still requested then runs [scroll] once more and requests no further
    frame, whether that [scroll] returns or throws. *)
Theorem scrollEnd_stops_the_loop (id : nat) (s : State) :
  timers_ok s ->
  (id, FnScrollEnd) ∈ timers (window s) ->
  let s1 := timeoutExpires id s in
  scrolling (vars s1) = false /\
  pendingScrollEnd s1 = [] /\
  trace s1
  = trace s ++ [SetStyle (documentElement (window s)) "pointerEvents" [Str "auto"]] /\
  frameRequests (window s1) = frameRequests (window s) /\
  (frameRequests (window s) = [FnScrollCallback] ->
   forall timestamp,
     frameRequests (window (animationFrame timestamp s1)) = [] /\
     scrolling (vars (animationFrame timestamp s1)) = false).
Proof.
  intros (_ & Hnd & Hlt & Hend) Hin s1.
  set (sE := set_trace
               (fun t => t ++ [SetStyle (documentElement (window s))
                                 "pointerEvents" [Str "auto"]])
               (set_vars (with_scrolling false)
                  (set_window (fun w =>
                     with_timers (filter (fun t => t.1 ≠ id) (timers w))
                       (nextTimer w) w) s))).
  assert (Hs1 : s1 = sE).
  { subst s1. unfold timeoutExpires.
    rewrite (filter_fst_unique _ id FnScrollEnd Hnd Hin). reflexivity. }
  rewrite Hs1. clear Hs1 s1.
  split; [reflexivity|].
  split.
  { apply elem_of_nil_inv. intros [i f] [Hf Hi]%list_elem_of_filter.
    simpl in Hf, Hi. subst f. apply list_elem_of_filter in Hi as [Hne Hi].
    simpl in Hne. apply Hend in Hi. apply Hend in Hin. congruence. }
  split; [reflexivity|]. split; [reflexivity|].
  intros Hreq timestamp. unfold animationFrame.
  change (frameRequests (window sE)) with (frameRequests (window s)).
  rewrite Hreq. cbn [fold_left]. unfold run, call.
  pose proof (scrollCallback_outcome (set_window (with_frameRequests []) sE))
    as Hout.
  destruct (scrollCallback (set_window (with_frameRequests []) sE))
    as [u s2|e s2].
  - destruct Hout as (Hsc & _ & Hw). rewrite Hw, Hsc. split; reflexivity.
  - pose proof (same_env_scrolling _ _ Hout) as Hsc.
    destruct Hout as (Hw & _). cbn [set_trace window vars].
    rewrite Hw, Hsc. split; reflexivity.
Qed.

Lemma scrollEnd_stops_the_loop_witness :
  let s := dispatchEvent EvScroll (Sample.synced "true") in
  timers (window s) = [(1%nat, FnScrollEnd)] /\
  frameRequests (window s) = [FnScrollCallback] /\
  scrolling (vars s) = true /\
  scrolling (vars (timeoutExpires 1 s)) = false /\
  frameRequests (window (animationFrame 32 (timeoutExpires 1 s))) = [].
Proof.
  intros s.
  assert (Ht : timers (window s) = [(1%nat, FnScrollEnd)])
    by (vm_compute; reflexivity).
  assert (Hf : frameRequests (window s) = [FnScrollCallback])
    by (vm_compute; reflexivity).
  assert (Hs : timers_ok s).
  { split; [vm_compute; lia|]. split; [|split]; rewrite Ht.
    - simpl. apply NoDup_singleton.
    - intros t Hin%list_elem_of_singleton. subst t. vm_compute. lia.
    - intros i Hin%list_elem_of_singleton. injection Hin as ->.
      vm_compute. reflexivity. }
  assert (Hin : (1%nat, FnScrollEnd) ∈ timers (window s))
    by (rewrite Ht; apply list_elem_of_here).
  destruct (scrollEnd_stops_the_loop 1 s Hs Hin) as (Hsc & _ & _ & _ & Hloop).
  split; [exact Ht|]. split; [exact Hf|].
  split; [vm_compute; reflexivity|]. split; [exact Hsc|].
  exact (proj1 (Hloop Hf 32%float)).
Defined.

(** * The pass of [syncParallax] *)

(** ** What every step is gentle with *)

Lemma gently_refl (s : State) : gently s s.
Proof.
  split; [reflexivity|]. split; [reflexivity|]. exists []. now rewrite app_nil_r.
Qed.

Lemma gently_trans (s1 s2 s3 : State) :
  gently s1 s2 -> gently s2 s3 -> gently s1 s3.
Proof.
  intros (Ha & Hc & es & Ht) (Ha' & Hc' & es' & Ht').
  split; [congruence|]. split.
  - intros n c Hne. now rewrite Hc', Hc.
  - exists (es ++ es'). rewrite Ht', Ht. now rewrite app_assoc.
Qed.

Lemma gently_bind {A B} (m : M A) (k : A -> M B) :
  always gently m -> (forall a, always gently (k a)) -> always gently (bind m k).
Proof. apply always_bind, gently_trans. Qed.

Lemma gently_ret {A} (a : A) : always gently (ret a).
Proof. apply always_ret, gently_refl. Qed.

Lemma gently_throw {A} (e : exn) : always gently (@throw A e).
Proof. apply always_throw, gently_refl. Qed.

Lemma gently_get : always gently get.
Proof. apply always_get, gently_refl. Qed.

Lemma gently_deref {A} (o : option A) : always gently (deref o).
Proof. apply always_deref, gently_refl. Qed.

Lemma gently_emit (e : Effect) : always gently (emit e).
Proof. intros s. split; [reflexivity|]. split; [reflexivity|]. now exists [e]. Qed.

Lemma gently_setStyle (n : node) (prop : string) (v : css) :
  always gently (setStyle n prop v).
Proof. apply gently_emit. Qed.

Lemma gently_setTransform (n : node) (v : css) : always gently (setTransform n v).
Proof.
  unfold setTransform.
  repeat (apply gently_bind; [apply gently_setStyle|intros _]).
  apply gently_setStyle.
Qed.

Lemma gently_set_tree (f : Dom -> Dom) :
  (forall d, attribute (f d) = attribute d) ->
  (forall d, classList (f d) = classList d) ->
  always gently (modify (set_dom f)).
Proof.
  intros Ha Hc s. split; [apply Ha|]. split.
  - intros n c _. unfold classList_contains, classes. simpl. now rewrite Hc.
  - exists []. simpl. now rewrite app_nil_r.
Qed.

Lemma gently_appendChild (parent child : node) :
  always gently (appendChild parent child).
Proof.
  unfold appendChild. apply gently_bind; [apply gently_get|intros s0].
  destruct (contains (dom s0) child parent); [apply gently_throw|].
  apply gently_bind; [|intros _; apply gently_emit].
  now apply gently_set_tree.
Qed.

Lemma gently_removeChild (parent child : node) :
  always gently (removeChild parent child).
Proof.
  unfold removeChild. apply gently_bind; [|intros _; apply gently_emit].
  now apply gently_set_tree.
Qed.

Lemma gently_setItem (i : nat) (it : MatrixItem) : always gently (setItem i it).
Proof.
  intros s. split; [reflexivity|]. split; [reflexivity|].
  exists []. simpl. now rewrite app_nil_r.
Qed.

Lemma gently_classList_add (n : node) : always gently (classList_add n "loaded").
Proof.
  unfold classList_add. apply gently_bind; [|intros _; apply gently_emit].
  intros s. unfold modify, set_dom. cbn [dom trace].
  destruct (classList_contains (dom s) n "loaded") eqn:Hl.
  - split; [reflexivity|]. split; [reflexivity|].
    exists []. now rewrite app_nil_r.
  - split; [reflexivity|]. split; [|exists []; now rewrite app_nil_r].
    intros n' c Hne. unfold classList_contains, classes.
    cbn [dom classList with_classList].
    destruct (decide (n' = n)) as [->|Hn].
    + rewrite lookup_insert_eq. cbn [default from_option id].
      apply bool_decide_ext.
      rewrite elem_of_app, list_elem_of_singleton. intuition congruence.
    + now rewrite lookup_insert_ne by congruence.
Qed.

Lemma gently_loadImage (m : node) : always gently (loadImage m).
Proof.
  unfold loadImage. apply gently_bind; [apply gently_get|intros s0].
  cbv zeta.
  match goal with |- always gently (match ?o with Some _ => _ | None => _ end) =>
    destruct o end; [apply gently_emit|apply gently_ret].
Qed.

Lemma gently_querySlot (h : node) (id : option string) :
  always gently (querySlot h id).
Proof.
  unfold querySlot. apply gently_bind; [apply gently_get|intros s0].
  destruct (findSlot _ _ _ _); [apply gently_ret|apply gently_throw].
Qed.

Create HintDb gentle.
Global Hint Resolve gently_ret gently_throw gently_get gently_deref gently_emit
  gently_setStyle gently_setTransform gently_appendChild gently_removeChild
  gently_setItem gently_classList_add gently_loadImage gently_querySlot
  : gentle.

Ltac gentle :=
  repeat first
    [ solve [auto with gentle]
    | apply gently_bind; [|intros ?]
    | progress cbv zeta
    | match goal with
      | |- always gently (match ?o with Some _ => _ | None => _ end) => destruct o
      | |- always gently (if ?b then _ else _) => destruct b
      end ].

Lemma gently_syncItem (host : option node) (i : nat) :
  always gently (syncItem host i).
Proof. unfold syncItem. gentle. Qed.

(** ** A node stays attached while only other nodes move *)

Lemma size_insert_le (m : gmap node node) (k v : node) :
  size m <= size (<[k := v]> m).
Proof. rewrite map_size_insert. destruct (m !! k); simpl; lia. Qed.

Lemma below_stable (d d' : Dom) (W : list node) (a n : node) (k : nat) :
  below d a n k ->
  (forall w j, w ∈ W -> j <= k -> ~ below d w n j) ->
  (forall x, x ∉ W -> parentNode d' !! x = parentNode d !! x) ->
  below d' a n k.
Proof.
  intros Hb Hfree Hagree. revert Hfree.
  induction Hb as [|x p k Hp Hb IH]; intros Hfree.
  - constructor.
  - assert (Hx : x ∉ W).
    { intros Hin. apply (Hfree x 0 Hin); [lia|constructor]. }
    apply (below_child d' a x p k).
    + now rewrite Hagree.
    + apply IH. intros w j Hw Hj Hbelow. apply (Hfree w (S j) Hw); [lia|].
      now apply (below_child d w x p j).
Qed.

Lemma contains_stable (d d' : Dom) (W : list node) (a n : node) :
  contains d a n = true ->
  (forall w, w ∈ W -> contains d w n = false) ->
  (forall x, x ∉ W -> parentNode d' !! x = parentNode d !! x) ->
  size (parentNode d) <= size (parentNode d') ->
  contains d' a n = true.
Proof.
  unfold contains.
  intros (k & Hk & Hb)%ancestor_or_self_below Hfree Hagree Hsize.
  apply (below_ancestor_or_self d' a n k); [|lia].
  apply (below_stable d d' W); [exact Hb| |exact Hagree].
  intros w j Hw Hj Hbelow. specialize (Hfree w Hw).
  rewrite (below_ancestor_or_self d w n j Hbelow) in Hfree by lia.
  discriminate.
Qed.

(** ** What a step of the pass leaves behind *)

Lemma loadImage_logs (m : node) (s s' : State) (u : unit) :
  loadImage m s = Ok u s' ->
  exists es,
    trace s' = trace s ++ es /\
    (hasAttribute (dom s) m "data-src" = true ->
     classList_contains (dom s) m "sqs-video-background" = false ->
     ImageLoad m ∈ es).
Proof.
  intros H.
  destruct (hasAttribute (dom s) m "data-src") eqn:Ha;
    destruct (classList_contains (dom s) m "sqs-video-background") eqn:Hv;
    try (pose proof (gently_loadImage m s) as Hg; rewrite H in Hg;
         destruct Hg as (_ & _ & es & Ht); exists es;
         split; [exact Ht|intros; discriminate]).
  unfold loadImage, bind, get in H. cbv zeta in H. rewrite Ha, Hv in H.
  injection H as _ <-. exists [ImageLoad m]. split; [reflexivity|].
  intros _ _. apply list_elem_of_here.
Qed.

Lemma syncItem_marks (host : option node) (i : nat) (s s' : State)
    (it : MatrixItem) (b : bool) :
  matrix (vars s) !! i = Some it ->
  contains (dom s) (element (vars s)) (originalNode it) = true ->
  syncItem host i s = Ok b s' ->
  exists es,
    trace s' = trace s ++ es /\
    ClassAdd (mediaWrapper it) "loaded" ∈ es /\
    (hasAttribute (dom s) (mediaElement it) "data-src" = true ->
     classList_contains (dom s) (mediaElement it) "sqs-video-background" = false ->
     ImageLoad (mediaElement it) ∈ es).
Proof.
  intros Hi Hc H. unfold syncItem in H.
  inv_bind H as s0 s0' Hget. injection Hget as <- <-.
  rewrite Hi in H. inv_bind H as it0 s0 Hit0. injection Hit0 as <- <-.
  cbv zeta in H. rewrite Hc in H. cbn [negb] in H.
  inv_bind H as u2 s2 Hmode. inv_bind H as u3 s3 Hload.
  inv_bind H as u4 s4 Hadd. injection H as _ <-.
  assert (Hg : gently s s2).
  { match type of Hmode with ?m s = _ =>
      assert (Hm : always gently m) by (cbv beta; gentle);
      specialize (Hm s); now rewrite Hmode in Hm
    end. }
  destruct Hg as (Ha & Hcl & es1 & Ht1).
  apply loadImage_logs in Hload as (es2 & Ht2 & Himg).
  assert (Ht3 : trace s4 = trace s3 ++ [ClassAdd (mediaWrapper it) "loaded"]).
  { unfold classList_add, bind, modify, emit in Hadd.
    injection Hadd as _ <-. reflexivity. }
  exists (es1 ++ es2 ++ [ClassAdd (mediaWrapper it) "loaded"]).
  split; [rewrite Ht3, Ht2, Ht1; now rewrite <- !app_assoc|].
  split.
  { rewrite !elem_of_app. right. right. apply list_elem_of_here. }
  intros Hattr Hvid. rewrite !elem_of_app. right. left. apply Himg.
  - unfold hasAttribute, getAttribute in *. now rewrite Ha.
  - now rewrite Hcl.
Qed.

Lemma statics_inv (it it' : MatrixItem) :
  statics it = statics it' ->
  originalNode it = originalNode it' /\ mediaWrapper it = mediaWrapper it' /\
  mediaElement it = mediaElement it'.
Proof. unfold statics. intros [= -> -> ->]. auto. Qed.

Lemma statics_lookup (m m' : list MatrixItem) (i : nat) (it : MatrixItem) :
  statics <$> m' = statics <$> m -> m' !! i = Some it ->
  exists it0, m !! i = Some it0 /\ statics it0 = statics it.
Proof.
  intros Hs Hi.
  assert (H : (statics <$> m) !! i = Some (statics it))
    by (rewrite <- Hs, list_lookup_fmap, Hi; reflexivity).
  rewrite list_lookup_fmap in H.
  destruct (m !! i) as [it0|]; [|discriminate].
  exists it0. split; [reflexivity|]. simpl in H. congruence.
Qed.

Lemma statics_insert (m : list MatrixItem) (i : nat) (it it' : MatrixItem) :
  m !! i = Some it -> statics it' = statics it ->
  statics <$> <[i := it']> m = statics <$> m.
Proof.
  intros Hi Hs. rewrite list_fmap_insert, Hs. apply list_insert_id.
  now rewrite list_lookup_fmap, Hi.
Qed.

Lemma pass_inv_refl (s : State) : pass_inv s s.
Proof.
  split; [apply frame_same_env|apply gently_refl|reflexivity|reflexivity|lia].
Qed.

Section Pass.

Variable s1 : State.
Variable host : option node.

Hypothesis Hattached :
  forall it, it ∈ matrix (vars s1) ->
    contains (dom s1) (element (vars s1)) (originalNode it) = true.
Hypothesis Hapart :
  forall it it', it ∈ matrix (vars s1) -> it' ∈ matrix (vars s1) ->
    contains (dom s1) (mediaWrapper it') (originalNode it) = false.
Hypothesis Hnodup : NoDup (mediaWrapper <$> matrix (vars s1)).

Lemma wrappers_apart (i j : nat) (it it' : MatrixItem) :
  matrix (vars s1) !! i = Some it -> matrix (vars s1) !! j = Some it' ->
  mediaWrapper it = mediaWrapper it' -> i = j.
Proof.
  intros Hi Hj Hw. eapply NoDup_lookup; [exact Hnodup| |].
  - rewrite list_lookup_fmap, Hi. reflexivity.
  - rewrite list_lookup_fmap, Hj. simpl. now rewrite Hw.
Qed.

Lemma step_attached (sa : State) (i : nat) (it : MatrixItem) :
  pass_inv s1 sa -> matrix (vars sa) !! i = Some it ->
  contains (dom sa) (element (vars sa)) (originalNode it) = true.
Proof.
  intros [He Hg Hst Hpar Hsz] Hi.
  destruct (statics_lookup _ _ _ _ Hst Hi) as (it0 & Hi0 & (Ho & _ & _)%statics_inv).
  assert (Hin0 : it0 ∈ matrix (vars s1)) by (eapply list_elem_of_lookup_2; eauto).
  replace (element (vars sa)) with (element (vars s1)).
  2:{ destruct He as (_ & _ & Hv). apply (f_equal element) in Hv.
      simpl in Hv. congruence. }
  rewrite <- Ho.
  apply (contains_stable (dom s1) (dom sa) (mediaWrapper <$> matrix (vars s1)));
    auto.
  intros w (it' & -> & Hin')%list_elem_of_fmap. now apply Hapart.
Qed.

Lemma pass_inv_step (sa sb : State) (i : nat) (it : MatrixItem) :
  pass_inv s1 sa -> same_env sa sb -> gently sa sb ->
  matrix (vars sa) !! i = Some it ->
  statics <$> matrix (vars sb) = statics <$> matrix (vars sa) ->
  (parentNode (dom sb) = parentNode (dom sa) \/
   exists x, parentNode (dom sb) = <[mediaWrapper it := x]> (parentNode (dom sa))) ->
  pass_inv s1 sb.
Proof.
  intros [He Hg Hst Hpar Hsz] He' Hg' Hi Hst' Hp.
  destruct (statics_lookup _ _ _ _ Hst Hi) as (it0 & Hi0 & (_ & Hw & _)%statics_inv).
  assert (Hin : mediaWrapper it ∈ mediaWrapper <$> matrix (vars s1)).
  { rewrite <- Hw. apply list_elem_of_fmap_2. eapply list_elem_of_lookup_2; eauto. }
  split.
  - eapply (frame_trans _ frame_same_env); eauto.
  - eapply gently_trans; eauto.
  - congruence.
  - intros x Hx. rewrite <- Hpar by exact Hx.
    destruct Hp as [->|[y ->]]; [reflexivity|].
    apply lookup_insert_ne. intros <-. now apply Hx.
  - destruct Hp as [->|[y ->]]; [exact Hsz|].
    etransitivity; [exact Hsz|apply size_insert_le].
Qed.

Lemma syncItem_step (sa sb : State) (i : nat) (it : MatrixItem) (b : bool) :
  pass_inv s1 sa -> matrix (vars sa) !! i = Some it ->
  syncItem host i sa = Ok b sb ->
  pass_inv s1 sb /\
  (forall x, x <> mediaWrapper it ->
             parentNode (dom sb) !! x = parentNode (dom sa) !! x) /\
  (forall j, j <> i -> matrix (vars sb) !! j = matrix (vars sa) !! j) /\
  (if isParallaxEnabled sa then
     exists p it',
       matrix (vars sb) !! i = Some it' /\ parallaxItem it' = Some p /\
       (parentNode (dom sa) !! mediaWrapper it = Some (originalNode it) ->
        parentNode (dom sb) !! mediaWrapper it = Some p)
   else parentNode (dom sb) !! mediaWrapper it = Some (originalNode it)).
Proof.
  intros Hinv Hi Hrun.
  pose proof (step_attached sa i it Hinv Hi) as Hc.
  pose proof (always_syncItem same_env frame_same_env host i sa) as He.
  rewrite Hrun in He.
  pose proof (gently_syncItem host i sa) as Hg. rewrite Hrun in Hg.
  destruct (syncItem_outcome host i sa sb b Hrun) as (it_ & Hi_ & Ha & Hout).
  rewrite Hi in Hi_. injection Hi_ as <-.
  assert (Hlen : i < length (matrix (vars sa))) by (eapply lookup_lt_Some; eauto).
  destruct Hout as [Hnc _ _ | p Hon Hch _ Hv Hp | p Hon Hch Hpi Hv Hp
                   | Hoff Hch Hv Hp | Hoff Hch Hv Hp].
  - congruence.
  - split; [|split; [|split]].
    + apply (pass_inv_step sa sb i it Hinv He Hg Hi).
      * rewrite Hv. simpl. now apply (statics_insert _ _ it).
      * right. eauto.
    + intros x Hx. rewrite Hp. now apply lookup_insert_ne.
    + intros j Hj. rewrite Hv. simpl. now apply list_lookup_insert_ne.
    + rewrite Hon. exists p, (with_parallaxItem (Some p) it).
      split; [rewrite Hv; simpl; now apply list_lookup_insert_eq|].
      split; [reflexivity|]. intros _. rewrite Hp. apply lookup_insert_eq.
  - split; [|split; [|split]].
    + apply (pass_inv_step sa sb i it Hinv He Hg Hi);
        [now rewrite Hv|left; exact Hp].
    + intros x Hx. now rewrite Hp.
    + intros j Hj. now rewrite Hv.
    + rewrite Hon. exists p, it. rewrite Hv. split; [exact Hi|].
      split; [exact Hpi|]. intros Hin. now destruct Hch.
  - split; [|split; [|split]].
    + apply (pass_inv_step sa sb i it Hinv He Hg Hi);
        [now rewrite Hv|right; eauto].
    + intros x Hx. rewrite Hp. now apply lookup_insert_ne.
    + intros j Hj. now rewrite Hv.
    + rewrite Hoff, Hp. apply lookup_insert_eq.
  - split; [|split; [|split]].
    + apply (pass_inv_step sa sb i it Hinv He Hg Hi);
        [now rewrite Hv|left; exact Hp].
    + intros x Hx. now rewrite Hp.
    + intros j Hj. now rewrite Hv.
    + now rewrite Hoff, Hp.
Qed.

Lemma filterM_pass (l : list nat) (sa sb : State) (kept : list nat) :
  NoDup l -> pass_inv s1 sa ->
  filterM (syncItem host) l sa = Ok kept sb ->
  pass_inv s1 sb /\
  (forall x,
     (forall i it, i ∈ l -> matrix (vars s1) !! i = Some it ->
                   mediaWrapper it <> x) ->
     parentNode (dom sb) !! x = parentNode (dom sa) !! x) /\
  (forall j, j ∉ l -> matrix (vars sb) !! j = matrix (vars sa) !! j) /\
  exists es,
    trace sb = trace sa ++ es /\
    forall i it, i ∈ l -> matrix (vars s1) !! i = Some it ->
      ClassAdd (mediaWrapper it) "loaded" ∈ es /\
      (hasAttribute (dom s1) (mediaElement it) "data-src" = true ->
       classList_contains (dom s1) (mediaElement it) "sqs-video-background"
       = false ->
       ImageLoad (mediaElement it) ∈ es) /\
      (if isParallaxEnabled s1 then
         exists p it',
           matrix (vars sb) !! i = Some it' /\ parallaxItem it' = Some p /\
           (parentNode (dom sa) !! mediaWrapper it = Some (originalNode it) ->
            parentNode (dom sb) !! mediaWrapper it = Some p)
       else parentNode (dom sb) !! mediaWrapper it = Some (originalNode it)).
Proof.
  revert sa kept. induction l as [|i l IH]; intros sa kept Hnd Hinv H.
  - injection H as _ <-. split; [exact Hinv|]. split; [reflexivity|].
    split; [reflexivity|]. exists []. split; [now rewrite app_nil_r|].
    intros i it Hin. now apply elem_of_nil in Hin.
  - apply NoDup_cons in Hnd as [Hi Hnd]. simpl in H.
    inv_bind H as keep sm Hstep. inv_bind H as rest sb' Hrest.
    injection H as _ <-.
    destruct (syncItem_outcome host i sa sm keep Hstep) as (ita & Hia & _ & _).
    destruct (statics_lookup _ _ _ _ (inv_statics _ _ Hinv) Hia)
      as (it1 & Hi1 & (Ho1 & Hw1 & Hm1)%statics_inv).
    destruct (syncItem_step sa sm i ita keep Hinv Hia Hstep)
      as (Hinvm & Hparm & Hmatm & Hrelm).
    destruct (syncItem_marks host i sa sm ita keep Hia
                (step_attached sa i ita Hinv Hia) Hstep)
      as (es1 & Ht1 & Hadd1 & Himg1).
    destruct (IH sm rest Hnd Hinvm Hrest) as (Hinvb & Hparb & Hmatb & es2 & Ht2 & Hall).
    assert (Hon : isParallaxEnabled sa = isParallaxEnabled s1)
      by (apply same_env_isParallaxEnabled, Hinv).
    assert (Hrest_w : forall j itj, j ∈ l -> matrix (vars s1) !! j = Some itj ->
                                    mediaWrapper itj <> mediaWrapper it1).
    { intros j itj Hj Hitj Heq. apply Hi.
      now rewrite (wrappers_apart i j it1 itj Hi1 Hitj). }
    split; [exact Hinvb|]. split; [|split].
    + intros x Hx. rewrite Hparb, Hparm.
      * reflexivity.
      * rewrite <- Hw1. intros ->. apply (Hx i it1); [apply list_elem_of_here|exact Hi1|reflexivity].
      * intros j itj Hj. apply Hx. now apply list_elem_of_further.
    + intros j Hj. apply not_elem_of_cons in Hj as [Hne Hj].
      now rewrite Hmatb, Hmatm.
    + exists (es1 ++ es2). split; [rewrite Ht2, Ht1; now rewrite app_assoc|].
      intros k it [->|Hk]%elem_of_cons Hit.
      * rewrite Hi1 in Hit. injection Hit as <-.
        rewrite Ho1, Hw1, Hm1. split; [|split].
        -- apply elem_of_app. now left.
        -- intros Hattr Hvid. apply elem_of_app. left. apply Himg1.
           ++ destruct (inv_gently _ _ Hinv) as (Ha & _ & _).
              unfold hasAttribute, getAttribute in *. now rewrite Ha.
           ++ destruct (inv_gently _ _ Hinv) as (_ & Hcl & _).
              now rewrite Hcl.
        -- rewrite <- Hon.
           assert (Hsame : parentNode (dom sb') !! mediaWrapper ita
                           = parentNode (dom sm) !! mediaWrapper ita).
           { apply Hparb. intros j itj Hj Hitj. rewrite <- Hw1.
             now apply (Hrest_w j itj). }
           destruct (isParallaxEnabled sa).
           ++ destruct Hrelm as (p & it' & Hit' & Hp' & Hmoved).
              exists p, it'. rewrite Hmatb by exact Hi.
              split; [exact Hit'|]. split; [exact Hp'|].
              intros Hin. rewrite Hsame. now apply Hmoved.
           ++ now rewrite Hsame.
      * destruct (Hall k it Hk Hit) as (Hadd & Himg & Hrel).
        split; [apply elem_of_app; now right|].
        split; [intros Hattr Hvid; apply elem_of_app; right; now apply Himg|].
        assert (Hsame : parentNode (dom sm) !! mediaWrapper it
                        = parentNode (dom sa) !! mediaWrapper it).
        { apply Hparm. rewrite <- Hw1. now apply (Hrest_w k it). }
        destruct (isParallaxEnabled s1); [|exact Hrel].
        destruct Hrel as (p & it' & Hit' & Hp' & Hmoved).
        exists p, it'. split; [exact Hit'|]. split; [exact Hp'|].
        intros Hin. apply Hmoved. now rewrite Hsame.
Qed.

End Pass.

Lemma statics_refreshed (s : State) (it : MatrixItem) :
  statics (refreshed s it) = statics it.
Proof. unfold refreshed. now destruct (differs s it). Qed.

Lemma strict_eq_false_other (force : jsval) :
  force <> JBool false -> strict_eq_false force = false.
Proof. destruct force as [|[]| |]; auto. intros H. now destruct H. Qed.

Lemma syncParallax_pass_effects (force : jsval) (s s' : State) :
  force <> JBool false ->
  NoDup (mediaWrapper <$> matrix (vars s)) ->
  (forall it, it ∈ matrix (vars s) ->
     contains (dom s) (element (vars s)) (originalNode it) = true) ->
  (forall it it', it ∈ matrix (vars s) -> it' ∈ matrix (vars s) ->
     contains (dom s) (mediaWrapper it') (originalNode it) = false) ->
  syncParallax force s = Ok tt s' ->
  exists es,
    trace s' = trace s ++ es /\
    forall i it, matrix (vars s) !! i = Some it ->
      ClassAdd (mediaWrapper it) "loaded" ∈ es /\
      (hasAttribute (dom s) (mediaElement it) "data-src" = true ->
       classList_contains (dom s) (mediaElement it) "sqs-video-background"
       = false ->
       ImageLoad (mediaElement it) ∈ es) /\
      (if isParallaxEnabled s then
         exists p it',
           matrix (vars s') !! i = Some it' /\ parallaxItem it' = Some p /\
           (parentNode (dom s) !! mediaWrapper it = Some (originalNode it) ->
            parentNode (dom s') !! mediaWrapper it = Some p)
       else parentNode (dom s') !! mediaWrapper it = Some (originalNode it)).
Proof.
  intros Hforce Hnd Hatt Hapart Hrun.
  rewrite syncParallax_after_windowHeight in Hrun.
  set (s0 := set_vars (with_windowHeight (Some (innerHeight (window s)))) s) in *.
  unfold bind at 1 in Hrun. rewrite updateAllMatrixItems_run in Hrun.
  set (s1 := set_vars (with_matrix (refreshed s0 <$> matrix (vars s0))) s0) in *.
  rewrite (strict_eq_false_other force Hforce), andb_false_r in Hrun.
  assert (Hm1 : matrix (vars s1) = refreshed s0 <$> matrix (vars s))
    by reflexivity.
  assert (Hin1 : forall it1, it1 ∈ matrix (vars s1) ->
                 exists it, it ∈ matrix (vars s) /\ statics it1 = statics it).
  { intros it1 Hin. rewrite Hm1 in Hin.
    apply list_elem_of_fmap in Hin as (it & -> & Hit).
    exists it. split; [exact Hit|apply statics_refreshed]. }
  assert (Hatt1 : forall it, it ∈ matrix (vars s1) ->
            contains (dom s1) (element (vars s1)) (originalNode it) = true).
  { intros it1 (it & Hit & (Ho & _ & _)%statics_inv)%Hin1.
    rewrite Ho. now apply Hatt. }
  assert (Hapart1 : forall it it', it ∈ matrix (vars s1) ->
            it' ∈ matrix (vars s1) ->
            contains (dom s1) (mediaWrapper it') (originalNode it) = false).
  { intros it1 it1' (it & Hit & (Ho & _ & _)%statics_inv)%Hin1
      (it' & Hit' & (_ & Hw & _)%statics_inv)%Hin1.
    rewrite Ho, Hw. now apply Hapart. }
  assert (Hnd1 : NoDup (mediaWrapper <$> matrix (vars s1))).
  { replace (mediaWrapper <$> matrix (vars s1))
      with (mediaWrapper <$> matrix (vars s)); [exact Hnd|].
    rewrite Hm1, <- list_fmap_compose. apply list_fmap_ext.
    intros i it _. simpl.
    now destruct (statics_inv _ _ (statics_refreshed s0 it)) as (_ & -> & _). }
  unfold syncPass in Hrun. inv_bind Hrun as sg sg' Hget.
  injection Hget as <- <-.
  inv_bind Hrun as kept s2 Hpass. inv_bind Hrun as sg sg' Hget.
  injection Hget as <- <-.
  destruct (filterM_pass s1 _ Hatt1 Hapart1 Hnd1
              (seq 0 (length (matrix (vars s1)))) s1 s2 kept
              (NoDup_seq _ _) (pass_inv_refl s1) Hpass)
    as (Hinv & _ & _ & es & Ht & Hall).
  assert (Hend : exists es', s' = logged es' s2).
  { destruct (isParallaxEnabled s2).
    - now apply scroll_logs in Hrun.
    - injection Hrun as <-. exists []. now rewrite logged_nil. }
  destruct Hend as [es' ->].
  exists (es ++ es'). split.
  { simpl. rewrite Ht. now rewrite app_assoc. }
  intros i it Hi.
  assert (Hi1 : matrix (vars s1) !! i = Some (refreshed s0 it))
    by (rewrite Hm1, list_lookup_fmap, Hi; reflexivity).
  assert (Hin : i ∈ seq 0 (length (matrix (vars s1)))).
  { apply list_elem_of_In, in_seq. apply lookup_lt_Some in Hi1. lia. }
  destruct (Hall i _ Hin Hi1) as (Hadd & Himg & Hrel).
  destruct (statics_inv _ _ (statics_refreshed s0 it)) as (Ho & Hw & Hm).
  rewrite Ho, Hw, Hm in *.
  split; [apply elem_of_app; now left|].
  split; [intros Hattr Hvid; apply elem_of_app; left; now apply Himg|].
  exact Hrel.
Qed.

(** C10.  The early return is taken for [force === false] only.  Called
    with any other argument ([undefined], a frame timestamp, an event or a
    mutation record, as the browser, [resizeEnd] and [Darwin] pass to the
    callback [syncParallax]), the call records the window height, refreshes
    the geometry and then runs the pass over the whole matrix, whether or
    not the refresh found a change.  What the pass does shows when the call
    returns, on a page where the items have distinct media wrappers and
    every original node is inside the element of the controller and inside
    no media wrapper: for every item of the matrix the class ["loaded"] was
    added to its media wrapper; the load of its media element was requested
    when that is an image (it has [data-src] and is no video background);
    and the wrapper was relocated: with parallax enabled the item has an
    overlay node recorded afterwards, under which the wrapper is if it was
    under the original node before, and with parallax not enabled the
    wrapper is under the original node. *)
Theorem syncParallax_runs_unless_false (force : jsval) (s : State) :
  force <> JBool false ->
  call FnSyncParallax force s
  = bind (modify (set_vars (with_windowHeight (Some (innerHeight (window s))))))
      (fun _ => bind updateAllMatrixItems
         (fun _ => syncPass
            (querySelector (dom s) (body (window s))
               [SelAttr "data-parallax-host"])
            (or_num (documentElement_scrollTop (window s))
               (body_scrollTop (window s))))) s
  /\
  forall s',
    NoDup (mediaWrapper <$> matrix (vars s)) ->
    (forall it, it ∈ matrix (vars s) ->
       contains (dom s) (element (vars s)) (originalNode it) = true) ->
    (forall it it', it ∈ matrix (vars s) -> it' ∈ matrix (vars s) ->
       contains (dom s) (mediaWrapper it') (originalNode it) = false) ->
    call FnSyncParallax force s = Ok tt s' ->
    exists es,
      trace s' = trace s ++ es /\
      forall i it, matrix (vars s) !! i = Some it ->
        ClassAdd (mediaWrapper it) "loaded" ∈ es /\
        (hasAttribute (dom s) (mediaElement it) "data-src" = true ->
         classList_contains (dom s) (mediaElement it) "sqs-video-background"
         = false ->
         ImageLoad (mediaElement it) ∈ es) /\
        (if isParallaxEnabled s then
           exists p it',
             matrix (vars s') !! i = Some it' /\ parallaxItem it' = Some p /\
             (parentNode (dom s) !! mediaWrapper it = Some (originalNode it) ->
              parentNode (dom s') !! mediaWrapper it = Some p)
         else parentNode (dom s') !! mediaWrapper it = Some (originalNode it)).
Proof.
  intros Hforce. split.
  - simpl. unfold syncParallax, bind, get, modify.
    destruct (updateAllMatrixItems _) as [hasUpdated s1|e s1]; [|reflexivity].
    now rewrite (strict_eq_false_other force Hforce), andb_false_r.
  - intros s'. now apply syncParallax_pass_effects.
Qed.

(** On the sample page the first frame ran with parallax off; then the
    tweak is switched on.  A later frame finds the geometry unchanged and
    still moves the wrapper into its overlay slot, requests the image and
    marks the wrapper as loaded. *)
Lemma syncParallax_runs_unless_false_witness :
  let s := Sample.tweak_set "true" (Sample.synced "false") in
  let s0 := set_vars (with_windowHeight (Some (innerHeight (window s)))) s in
  exists s',
    isParallaxEnabled s = true /\
    updateAllMatrixItems s0 = Ok false s0 /\
    syncParallax (JNum 32) s = Ok tt s' /\
    parentNode (dom s) !! Sample.wrapper = Some Sample.original /\
    parentNode (dom s') !! Sample.wrapper = Some Sample.slot /\
    exists es,
      trace s' = trace s ++ es /\
      ClassAdd Sample.wrapper "loaded" ∈ es /\
      ImageLoad Sample.img ∈ es.
Proof.
  intros s s0. exists (Sample.state_of (syncParallax (JNum 32) s)).
  assert (Hrun : syncParallax (JNum 32) s
                 = Ok tt (Sample.state_of (syncParallax (JNum 32) s)))
    by (vm_compute; reflexivity).
  pose (it := {| originalNode := Sample.original;
                 mediaWrapper := Sample.wrapper; mediaElement := Sample.img;
                 focalPoint := 0.5%float; parallaxItem := None;
                 top := Some 1000%float; right := Some 1200%float;
                 bottom := Some 1500%float; left := Some 0%float;
                 width := Some 1200%float; height := Some 500%float |}).
  assert (Hm : matrix (vars s) = [it]) by (vm_compute; reflexivity).
  assert (Hon : isParallaxEnabled s = true) by (vm_compute; reflexivity).
  split; [exact Hon|].
  split; [vm_compute; reflexivity|]. split; [exact Hrun|].
  assert (Hbefore : parentNode (dom s) !! Sample.wrapper = Some Sample.original)
    by (vm_compute; reflexivity).
  split; [exact Hbefore|].
  assert (H1 : JNum 32 <> JBool false) by discriminate.
  assert (H2 : NoDup (mediaWrapper <$> matrix (vars s)))
    by (rewrite Hm; apply NoDup_singleton).
  assert (H3 : forall x, x ∈ matrix (vars s) ->
            contains (dom s) (element (vars s)) (originalNode x) = true).
  { rewrite Hm. intros x ->%list_elem_of_singleton. vm_compute. reflexivity. }
  assert (H4 : forall x y, x ∈ matrix (vars s) -> y ∈ matrix (vars s) ->
            contains (dom s) (mediaWrapper y) (originalNode x) = false).
  { rewrite Hm. intros x y ->%list_elem_of_singleton ->%list_elem_of_singleton.
    vm_compute. reflexivity. }
  destruct (proj2 (syncParallax_runs_unless_false (JNum 32) s H1) _
              H2 H3 H4 Hrun)
    as (es & Ht & Hall).
  destruct (Hall 0 it) as (Hadd & Himg & Hrel);
    [rewrite Hm; reflexivity|].
  rewrite Hon in Hrel. destruct Hrel as (p & it' & Hit' & Hp & Hmoved).
  assert (Hslot : p = Sample.slot).
  { assert (H : parallaxItem <$> matrix (vars (Sample.state_of
                  (syncParallax (JNum 32) s))) !! 0 = Some (Some Sample.slot))
      by (vm_compute; reflexivity).
    rewrite Hit' in H. simpl in H. congruence. }
  split; [rewrite <- Hslot; now apply Hmoved|].
  exists es. split; [exact Ht|]. split; [exact Hadd|].
  apply Himg; vm_compute; reflexivity.
Defined.
